(** * Policy compliance checker: a shallow embedding of [crawler.js]

    The development follows the source file top to bottom: the static policy
    catalogue, the text helpers, the legal-name matcher, the merchant
    classifier, and the per-merchant audit [checkWebsite] with its four passes
    and its final evaluation.

    Modelling conventions.
    - A JavaScript string is a [string] of code units in the Latin-1 range;
      [toLowerCase], white space and word characters are the ECMAScript ones
      restricted to that range.
    - [undefined]/[null] arguments are [None].
    - A JavaScript exception is the [Throw] completion; [try]/[catch] is
      [try_catch].  The mutable [result] object, the [visitedPages] array and
      the browser page are threaded through a state-and-exception monad.
    - The regular-expression engine and the browser page are interfaces
      ([RegExpEngine], [Browser]); a small backtracking engine and a static
      web site are given as instances and used to run the code. *)

From Stdlib Require Import ZArith Lia Ascii.
From Stdlib Require DecimalString DecimalNat.
From stdpp Require Import base gmap strings list.

Local Open Scope Z_scope.

(** ** Completions *)

Inductive Completion (A : Type) : Type :=
| Normal (a : A)
| Throw (msg : string).
Arguments Normal {A} a.
Arguments Throw {A} msg.

Definition cbind {A B} (c : Completion A) (k : A → Completion B) : Completion B :=
  match c with
  | Normal a => k a
  | Throw msg => Throw msg
  end.

Fixpoint cfilter {A} (f : A → Completion bool) (l : list A) : Completion (list A) :=
  match l with
  | [] => Normal []
  | x :: l' =>
      cbind (f x) (λ b,
      cbind (cfilter f l') (λ r, Normal (if b then x :: r else r)))
  end.

(** ** Characters and strings *)

Module Text.

Definition code (c : ascii) : nat := nat_of_ascii c.

Definition between (lo hi n : nat) : bool := (lo <=? n)%nat && (n <=? hi)%nat.

(** ECMAScript [WhiteSpace] and [LineTerminator] below U+0100. *)
Definition isWhiteSpace (c : ascii) : bool :=
  between 9 13 (code c) || (code c =? 32)%nat || (code c =? 160)%nat.

(** [\w] : [A-Za-z0-9_]. *)
Definition isWordChar (c : ascii) : bool :=
  between 65 90 (code c) || between 97 122 (code c)
  || between 48 57 (code c) || (code c =? 95)%nat.

Definition isLineTerminator (c : ascii) : bool :=
  (code c =? 10)%nat || (code c =? 13)%nat.

Definition toLowerChar (c : ascii) : ascii :=
  if between 65 90 (code c)
     || (between 192 222 (code c) && negb (code c =? 215)%nat)
  then ascii_of_nat (code c + 32) else c.

Fixpoint toLowerCase (s : string) : string :=
  match s with
  | EmptyString => EmptyString
  | String c s' => String (toLowerChar c) (toLowerCase s')
  end.

Definition isEmpty (s : string) : bool :=
  match s with EmptyString => true | _ => false end.

(** [s.replace(/\s+/g, rep)]: [inRun] tells that the previous character
    belonged to the run being replaced. *)
Fixpoint replaceRuns (rep : string) (inRun : bool) (s : string) : string :=
  match s with
  | EmptyString => EmptyString
  | String c s' =>
      if isWhiteSpace c
      then (if inRun then replaceRuns rep true s'
            else rep +:+ replaceRuns rep true s')
      else String c (replaceRuns rep false s')
  end.

Definition replaceWhiteSpace (rep s : string) : string := replaceRuns rep false s.

Fixpoint trimStart (s : string) : string :=
  match s with
  | EmptyString => EmptyString
  | String c s' => if isWhiteSpace c then trimStart s' else s
  end.

Fixpoint trimEnd (s : string) : string :=
  match s with
  | EmptyString => EmptyString
  | String c s' =>
      let t := trimEnd s' in
      if isWhiteSpace c && isEmpty t then EmptyString else String c t
  end.

Definition trim (s : string) : string := trimEnd (trimStart s).

(** [text.startsWith(k)] *)
Fixpoint startsWith (text k : string) : bool :=
  match k, text with
  | EmptyString, _ => true
  | String a k', String b text' => bool_decide (a = b) && startsWith text' k'
  | String _ _, EmptyString => false
  end.

(** [text.includes(k)] *)
Fixpoint includes (text k : string) : bool :=
  startsWith text k
  || match text with
     | EmptyString => false
     | String _ text' => includes text' k
     end.

(** [text.indexOf(k)], the scan being at offset [i]; -1 when absent. *)
Fixpoint indexOfFrom (i : Z) (text k : string) : Z :=
  if startsWith text k then i
  else match text with
       | EmptyString => -1
       | String _ text' => indexOfFrom (i + 1) text' k
       end.

Definition indexOf (text k : string) : Z := indexOfFrom 0 text k.

(** [text.lastIndexOf(k)]; -1 when absent. *)
Fixpoint lastIndexOfFrom (i : Z) (text k : string) : Z :=
  let later :=
    match text with
    | EmptyString => -1
    | String _ text' => lastIndexOfFrom (i + 1) text' k
    end in
  if later =? -1 then (if startsWith text k then i else -1) else later.

Definition lastIndexOf (text k : string) : Z := lastIndexOfFrom 0 text k.

(** [s.split(/\s+/)]: the pieces between the white-space runs, the empty
    pieces at both ends included. [cur] is the piece being read. *)
Fixpoint splitRuns (cur : string) (inRun : bool) (s : string) : list string :=
  match s with
  | EmptyString => [cur]
  | String c s' =>
      if isWhiteSpace c
      then (if inRun then splitRuns EmptyString true s'
            else cur :: splitRuns EmptyString true s')
      else splitRuns (cur +:+ String c EmptyString) false s'
  end.

Definition splitWhiteSpace (s : string) : list string :=
  splitRuns EmptyString false s.

(** [s.replace(/\b(?:w1|w2|...)\b/g, "")] for alternatives [ws] made of word
    characters only: between two word boundaries such a match is a whole
    maximal run of word characters, so the replacement drops exactly the
    runs that are listed. [cur] is the run being read. *)
Definition flushWord (ws : list string) (cur : string) : string :=
  if bool_decide (cur ∈ ws) then EmptyString else cur.

Fixpoint removeRuns (ws : list string) (cur : string) (s : string) : string :=
  match s with
  | EmptyString => flushWord ws cur
  | String c s' =>
      if isWordChar c then removeRuns ws (cur +:+ String c EmptyString) s'
      else flushWord ws cur +:+ String c (removeRuns ws EmptyString s')
  end.

Definition removeWholeWords (ws : list string) (s : string) : string :=
  removeRuns ws EmptyString s.

End Text.

(** ** HELPERS *)

(** [normalize = s => (s || "").toLowerCase().replace(/\s+/g, " ").trim()] *)
Definition normalize (s : option string) : string :=
  Text.trim (Text.replaceWhiteSpace " " (Text.toLowerCase (default "" s))).

(** [containsAny = (text, keywords) => keywords.some(k => text.includes(k))] *)
Definition containsAny (text : string) (keywords : list string) : bool :=
  existsb (λ k, Text.includes text k) keywords.

(** ** The regular-expression engine, as the code uses it *)

Class RegExpEngine := {
  RegExp : Type;
  (** [new RegExp(source, flags)]: a compiled expression or a [SyntaxError] *)
  RegExp_new : string → string → Completion RegExp;
  (** [re.test(text)] for an expression without the [g] and [y] flags *)
  RegExp_test : RegExp → string → bool
}.

Section LegalName.
Context `{RegExpEngine}.

Definition entitySuffixes : list string :=
  ["llc"; "inc"; "ltd"; "corp"; "corporation"; "co"; "company"; "limited"].

Definition cleanName (legalName : string) : string :=
  Text.trim (Text.removeWholeWords entitySuffixes (normalize (Some legalName))).

Definition exactSource (cleanLegalName : string) : string :=
  "\b" +:+ Text.replaceWhiteSpace "\s+" cleanLegalName +:+ "\b".

Definition partSource (part : string) : string := "\b" +:+ part +:+ "\b".

Definition namePartsOf (cleanLegalName : string) : list string :=
  List.filter (λ part, (2 <? String.length part)%nat) (Text.splitWhiteSpace cleanLegalName).

(** [part => new RegExp(`\\b${part}\\b`, 'i').test(pageText)] *)
Definition partFound (pageText part : string) : Completion bool :=
  cbind (RegExp_new (partSource part) "i") (λ partPattern,
  Normal (RegExp_test partPattern pageText)).

Definition firstPartIndex (pageText : string) (foundParts : list string) : Z :=
  Text.indexOf (Text.toLowerCase pageText) (default "undefined" (head foundParts)).

Definition lastPartIndex (pageText : string) (foundParts : list string) : Z :=
  Text.lastIndexOf (Text.toLowerCase pageText) (default "undefined" (last foundParts)).

Definition containsLegalName (pageText legalName : string) : Completion bool :=
  if Text.isEmpty legalName || Text.isEmpty (Text.trim legalName) then Normal false
  else
    let cleanLegalName := cleanName legalName in
    if Text.isEmpty cleanLegalName then Normal false
    else
      (* Strategy 1: exact match with word boundaries *)
      cbind (RegExp_new (exactSource cleanLegalName) "i") (λ exactPattern,
      if RegExp_test exactPattern pageText then Normal true
      else
        (* Strategy 2: name parts in close proximity *)
        let nameParts := namePartsOf cleanLegalName in
        if (2 <=? length nameParts)%nat then
          cbind (cfilter (partFound pageText) nameParts) (λ foundParts,
          if (2 <=? length foundParts)%nat then
            let first := firstPartIndex pageText foundParts in
            let last := lastPartIndex pageText foundParts in
            if negb (first =? -1) && negb (last =? -1)
               && (Z.abs (last - first) <? 200)
            then Normal true else Normal false
          else Normal false)
        else
          match nameParts with
          | [part] => partFound pageText part
          | _ => Normal false
          end).

End LegalName.

(** ** Merchant classification *)

(** [!input] for a string-or-undefined argument *)
Definition falsy (input : option string) : bool :=
  match input with
  | None => true
  | Some s => Text.isEmpty s
  end.

Inductive MerchantType := goods | services.

Definition determineMerchantType (input : option string) : MerchantType :=
  if falsy input then goods
  else if Text.includes (normalize input) "good" then goods
  else services.

Definition isProprietorship (entityType : option string) : bool :=
  if falsy entityType then true
  else Text.includes (normalize entityType) "proprietor".


(** ** CONFIG *)

Inductive Policy := privacy | terms | shipping | returns | refund | cancellation.

#[global] Instance Policy_eq_dec : EqDecision Policy.
Proof. solve_decision. Defined.

Definition Policy_index (p : Policy) : nat :=
  match p with
  | privacy => 0 | terms => 1 | shipping => 2
  | returns => 3 | refund => 4 | cancellation => 5
  end%nat.

Definition Policy_of_index (n : nat) : option Policy :=
  match n with
  | 0 => Some privacy | 1 => Some terms | 2 => Some shipping
  | 3 => Some returns | 4 => Some refund | 5 => Some cancellation
  | _ => None
  end%nat.

#[global] Instance Policy_countable : Countable Policy.
Proof.
  apply (inj_countable Policy_index Policy_of_index).
  intros []; reflexivity.
Defined.

#[global] Instance MerchantType_eq_dec : EqDecision MerchantType.
Proof. solve_decision. Defined.

Record PolicyConfig := {
  anchorHints : list string;
  pageKeywords : list string;
  relevantFor : list MerchantType;
  displayName : string
}.

Definition POLICY_CONFIG (policy : Policy) : PolicyConfig :=
  match policy with
  | privacy =>
      {| anchorHints := ["privacy"];
         pageKeywords := ["privacy policy"; "privacy notice"; "privacy practices"];
         relevantFor := [goods; services];
         displayName := "Privacy Policy" |}
  | terms =>
      {| anchorHints := ["terms"];
         pageKeywords := ["terms and conditions"; "terms & conditions";
                          "terms of use"; "terms of service"];
         relevantFor := [goods; services];
         displayName := "Terms and Conditions" |}
  | shipping =>
      {| anchorHints := ["shipping"; "delivery"];
         pageKeywords := ["shipping"; "delivery"];
         relevantFor := [goods];
         displayName := "Shipping Policy" |}
  | returns =>
      {| anchorHints := ["return"; "returns"];
         pageKeywords := ["return policy"; "returns policy"; "return"];
         relevantFor := [goods];
         displayName := "Returns Policy" |}
  | refund =>
      {| anchorHints := ["refund"];
         pageKeywords := ["refund policy"; "refund"];
         relevantFor := [goods; services];
         displayName := "Refund Policy" |}
  | cancellation =>
      {| anchorHints := ["cancellation"; "cancel"];
         pageKeywords := ["cancellation policy"; "cancellation"; "cancelling"; "cancel"];
         relevantFor := [goods; services];
         displayName := "Cancellation Policy" |}
  end.

(** [Object.keys(POLICY_CONFIG)], in insertion order *)
Definition POLICY_KEYS : list Policy :=
  [privacy; terms; shipping; returns; refund; cancellation].

(** The property name of a policy, as pushed on [missingPolicies] *)
Definition policyKey (policy : Policy) : string :=
  match policy with
  | privacy => "privacy" | terms => "terms" | shipping => "shipping"
  | returns => "returns" | refund => "refund" | cancellation => "cancellation"
  end.

Definition POLICY_ORDER (merchantType : MerchantType) : list Policy :=
  match merchantType with
  | goods => [privacy; terms; shipping; returns; refund; cancellation]
  | services => [privacy; terms; refund; cancellation]
  end.

Definition RESOLVABLE_GROUP (merchantType : MerchantType) : list Policy :=
  match merchantType with
  | goods => [shipping; returns; refund; cancellation]
  | services => [refund; cancellation]
  end.

Definition isPolicyRelevant (policy : Policy) (merchantType : MerchantType) : bool :=
  bool_decide (merchantType ∈ relevantFor (POLICY_CONFIG policy)).

(** ** The result object *)

Inductive Status := FOUND | MISSING | NOT_RELEVANT.

(** [result.legalNamePresent]: [true], [false] or the string ["NOT RELEVANT"] *)
Inductive LegalNamePresence := LegalTrue | LegalFalse | LegalNotRelevant.

Inductive Compliance := PASS | FAIL.

#[global] Instance Status_eq_dec : EqDecision Status.
Proof. solve_decision. Defined.
#[global] Instance LegalNamePresence_eq_dec : EqDecision LegalNamePresence.
Proof. solve_decision. Defined.
#[global] Instance Compliance_eq_dec : EqDecision Compliance.
Proof. solve_decision. Defined.

(** [{ present, url, pageText, status }]; [pageText] is an optional property *)
Record PolicyEntry := {
  present : bool;
  url : option string;
  pageText : option string;
  status : Status
}.

(** [{ url, pageText, policyType }] *)
Record VisitedPage := {
  visitedUrl : string;
  visitedText : string;
  policyType : Policy
}.

(** [{ text, href }] *)
Record Link := {
  text : string;
  href : string
}.

Module Result.

Record t := {
  website : string;
  merchantType : string;
  determinedMerchantType : MerchantType;
  entityType : string;
  isProprietorship : bool;
  legalName : string;
  legalNamePresent : LegalNamePresence;
  legalNameURL : option string;
  policies : gmap Policy PolicyEntry;
  missingPolicies : list string;
  allRelevantPoliciesMissing : bool;
  complianceStatus : Compliance;
  error : option string
}.

Definition setLegalName (present : LegalNamePresence) (url : option string) (r : t) : t :=
  {| website := website r; merchantType := merchantType r;
     determinedMerchantType := determinedMerchantType r;
     entityType := entityType r; isProprietorship := isProprietorship r;
     legalName := legalName r;
     legalNamePresent := present; legalNameURL := url;
     policies := policies r; missingPolicies := missingPolicies r;
     allRelevantPoliciesMissing := allRelevantPoliciesMissing r;
     complianceStatus := complianceStatus r; error := error r |}.

Definition setPolicies (m : gmap Policy PolicyEntry) (r : t) : t :=
  {| website := website r; merchantType := merchantType r;
     determinedMerchantType := determinedMerchantType r;
     entityType := entityType r; isProprietorship := isProprietorship r;
     legalName := legalName r;
     legalNamePresent := legalNamePresent r; legalNameURL := legalNameURL r;
     policies := m; missingPolicies := missingPolicies r;
     allRelevantPoliciesMissing := allRelevantPoliciesMissing r;
     complianceStatus := complianceStatus r; error := error r |}.

Definition setMissingPolicies (l : list string) (r : t) : t :=
  {| website := website r; merchantType := merchantType r;
     determinedMerchantType := determinedMerchantType r;
     entityType := entityType r; isProprietorship := isProprietorship r;
     legalName := legalName r;
     legalNamePresent := legalNamePresent r; legalNameURL := legalNameURL r;
     policies := policies r; missingPolicies := l;
     allRelevantPoliciesMissing := allRelevantPoliciesMissing r;
     complianceStatus := complianceStatus r; error := error r |}.

Definition setAllRelevantPoliciesMissing (b : bool) (r : t) : t :=
  {| website := website r; merchantType := merchantType r;
     determinedMerchantType := determinedMerchantType r;
     entityType := entityType r; isProprietorship := isProprietorship r;
     legalName := legalName r;
     legalNamePresent := legalNamePresent r; legalNameURL := legalNameURL r;
     policies := policies r; missingPolicies := missingPolicies r;
     allRelevantPoliciesMissing := b;
     complianceStatus := complianceStatus r; error := error r |}.

Definition setComplianceStatus (c : Compliance) (r : t) : t :=
  {| website := website r; merchantType := merchantType r;
     determinedMerchantType := determinedMerchantType r;
     entityType := entityType r; isProprietorship := isProprietorship r;
     legalName := legalName r;
     legalNamePresent := legalNamePresent r; legalNameURL := legalNameURL r;
     policies := policies r; missingPolicies := missingPolicies r;
     allRelevantPoliciesMissing := allRelevantPoliciesMissing r;
     complianceStatus := c; error := error r |}.

Definition setError (e : option string) (r : t) : t :=
  {| website := website r; merchantType := merchantType r;
     determinedMerchantType := determinedMerchantType r;
     entityType := entityType r; isProprietorship := isProprietorship r;
     legalName := legalName r;
     legalNamePresent := legalNamePresent r; legalNameURL := legalNameURL r;
     policies := policies r; missingPolicies := missingPolicies r;
     allRelevantPoliciesMissing := allRelevantPoliciesMissing r;
     complianceStatus := complianceStatus r; error := e |}.

End Result.

(** ** The browser page, as the code uses it *)

Class Browser := {
  Page : Type;
  (** [page.goto(url, { waitUntil, timeout })]: resolves or rejects *)
  page_goto : string → Page → Completion unit * Page;
  (** [page.$$eval("a", as => as.map(a => ({ text: a.innerText || "", href: a.href || "" })))] *)
  page_anchors : Page → Completion (list Link) * Page;
  (** [page.textContent("body")]: a string or [null] *)
  page_textContent : Page → Completion (option string) * Page
}.

(** ** The audit monad: state and exceptions *)

Section Monad.
Context `{Browser}.

Record State := {
  result : Result.t;
  visitedPages : list VisitedPage;
  page : Page;
  (** the URLs handed to [page.goto], oldest first *)
  navigations : list string
}.

Definition M (A : Type) : Type := State → Completion A * State.

Definition ret {A} (a : A) : M A := λ s, (Normal a, s).

Definition throw {A} (msg : string) : M A := λ s, (Throw msg, s).

Definition bind {A B} (m : M A) (k : A → M B) : M B :=
  λ s, match m s with
       | (Normal a, s') => k a s'
       | (Throw msg, s') => (Throw msg, s')
       end.

Definition gets {A} (f : Result.t → A) : M A := λ s, (Normal (f (result s)), s).

Definition modify (f : Result.t → Result.t) : M unit :=
  λ s, (Normal tt,
        {| result := f (result s); visitedPages := visitedPages s;
           page := page s; navigations := navigations s |}).

(** a call of a function that may throw and does not touch the state *)
Definition call {A} (c : Completion A) : M A := λ s, (c, s).

Definition withPage {A} (f : Page → Completion A * Page) (nav : list string) : M A :=
  λ s, let '(c, pg) := f (page s) in
       (c, {| result := result s; visitedPages := visitedPages s;
              page := pg; navigations := navigations s ++ nav |}).

Definition getVisited : M (list VisitedPage) := λ s, (Normal (visitedPages s), s).

Definition pushVisited (v : VisitedPage) : M unit :=
  λ s, (Normal tt,
        {| result := result s; visitedPages := visitedPages s ++ [v];
           page := page s; navigations := navigations s |}).

Definition try_catch {A} (m : M A) (handler : string → M A) : M A :=
  λ s, match m s with
       | (Normal a, s') => (Normal a, s')
       | (Throw msg, s') => handler msg s'
       end.

(** [for (const x of xs) { ... }] with [continue] and [break] *)
Inductive LoopControl := Continue | Break.

Fixpoint forOf {A} (xs : list A) (body : A → M LoopControl) : M unit :=
  match xs with
  | [] => ret tt
  | x :: xs' =>
      bind (body x) (λ c,
      match c with
      | Continue => forOf xs' body
      | Break => ret tt
      end)
  end.

(** The number of times [forOf] enters its body from a given state. *)
Fixpoint iterations {A} (xs : list A) (body : A → M LoopControl) (s : State) : nat :=
  match xs with
  | [] => 0
  | x :: xs' =>
      match body x s with
      | (Normal Continue, s') => S (iterations xs' body s')
      | _ => 1
      end
  end%nat.

End Monad.

Declare Scope audit_scope.
Delimit Scope audit_scope with audit.
Notation "x <- m ;; k" := (bind m (λ x, k))
  (at level 100, m at next level, k at level 200, right associativity) : audit_scope.
Notation "m ;; k" := (bind m (λ _, k))
  (at level 100, k at level 200, right associativity) : audit_scope.

(** ** CHECK SINGLE WEBSITE *)

(** The arguments of [checkWebsite] other than the page *)
Record Args := {
  website : string;
  merchantTypeInput : option string;
  entityType : option string;
  legalNameRaw : option string
}.

Section CheckWebsite.
Context `{RegExpEngine} `{Browser}.
Variable args : Args.

Local Open Scope audit_scope.

Definition merchantType : MerchantType := determineMerchantType (merchantTypeInput args).
(** [legalNameRaw || ""] *)
Definition legalName : string := default "" (legalNameRaw args).
Definition ORDER : list Policy := POLICY_ORDER merchantType.
Definition GROUP : list Policy := RESOLVABLE_GROUP merchantType.
Definition isProprietorEntity : bool := isProprietorship (entityType args).

Definition initialEntry (p : Policy) : PolicyEntry :=
  if isPolicyRelevant p merchantType
  then {| present := false; url := None; pageText := None; status := MISSING |}
  else {| present := false; url := None; pageText := None; status := NOT_RELEVANT |}.

Definition initialResult : Result.t :=
  {| Result.website := website args;
     Result.merchantType := default "" (merchantTypeInput args);
     Result.determinedMerchantType := merchantType;
     Result.entityType := default "" (entityType args);
     Result.isProprietorship := isProprietorEntity;
     Result.legalName := legalName;
     Result.legalNamePresent := if isProprietorEntity then LegalFalse else LegalNotRelevant;
     Result.legalNameURL := None;
     Result.policies := foldl (λ m p, <[p := initialEntry p]> m) ∅ POLICY_KEYS;
     Result.missingPolicies := [];
     Result.allRelevantPoliciesMissing := false;
     Result.complianceStatus := FAIL;
     Result.error := None |}.

Definition initialState (pg : Page) : State :=
  {| result := initialResult; visitedPages := []; page := pg; navigations := [] |}.

(** [safeGoto]: the rejection of [page.goto] is caught and becomes [false] *)
Definition safeGoto (url : string) : M bool :=
  try_catch (withPage (page_goto url) [url] ;; ret true) (λ _, ret false).

Definition textContent : M (option string) := withPage page_textContent [].

Definition anchors : M (list Link) := withPage page_anchors [].

(** [result.policies[policy]], then a property read: a [TypeError] on [undefined] *)
Definition getPolicy (policy : Policy) : M PolicyEntry :=
  m <- gets Result.policies ;;
  match m !! policy with
  | Some e => ret e
  | None => throw "Cannot read properties of undefined"
  end.

(** [result.policies[policy] = e] *)
Definition setPolicy (policy : Policy) (e : PolicyEntry) : M unit :=
  modify (λ r, Result.setPolicies (<[policy := e]> (Result.policies r)) r).

(** [result.legalNamePresent === v] *)
Definition legalNameIs (v : LegalNamePresence) : M bool :=
  p <- gets Result.legalNamePresent ;; ret (bool_decide (p = v)).

(** a string-or-absent value in a condition *)
Definition truthy (o : option string) : bool :=
  match o with
  | Some s => negb (Text.isEmpty s)
  | None => false
  end.

(** The block shared by the primary pass and the group resolution:
    [if (isProprietorEntity && result.legalNamePresent === false && legalName
         && containsLegalName(text, legalName)) { ... }] *)
Definition noteLegalName (pageText : string) (url : option string) : M unit :=
  isFalse <- legalNameIs LegalFalse ;;
  if isProprietorEntity && isFalse && negb (Text.isEmpty legalName) then
    found <- call (containsLegalName pageText legalName) ;;
    if found then modify (Result.setLegalName LegalTrue url) else ret tt
  else ret tt.

(** *** Primary pass (ordered) *)

Definition primaryLink (policy : Policy) (link : Link) : M LoopControl :=
  if Text.isEmpty (href link) || Text.isEmpty (text link) then ret Continue
  else if negb (containsAny (text link) (anchorHints (POLICY_CONFIG policy))) then ret Continue
  else
    ok <- safeGoto (href link) ;;
    if negb ok then ret Continue
    else
      body <- textContent ;;
      let pageText := normalize body in
      pushVisited {| visitedUrl := href link; visitedText := pageText; policyType := policy |} ;;
      if containsAny pageText (pageKeywords (POLICY_CONFIG policy)) then
        setPolicy policy {| present := true; url := Some (href link);
                            pageText := Some pageText; status := FOUND |} ;;
        noteLegalName pageText (Some (href link)) ;;
        safeGoto (website args) ;;
        ret Break
      else ret Continue.

Definition primaryPolicy (links : list Link) (policy : Policy) : M LoopControl :=
  if negb (isPolicyRelevant policy merchantType) then ret Continue
  else forOf links (primaryLink policy) ;; ret Continue.

Definition primaryPass (links : list Link) : M unit :=
  forOf ORDER (primaryPolicy links).

(** *** Group resolution *)

(** [GROUP.map(p => result.policies[p]).filter(p => p && p.present && p.pageText)] *)
Definition presentSources : M (list PolicyEntry) :=
  m <- gets Result.policies ;;
  ret (List.filter (λ p, present p && truthy (pageText p)) (omap (λ p, m !! p) GROUP)).

Definition resolveFromSource (policy : Policy) (source : PolicyEntry) : M LoopControl :=
  let sourceText := default "" (pageText source) in
  if containsAny sourceText (pageKeywords (POLICY_CONFIG policy)) then
    setPolicy policy {| present := true; url := url source;
                        pageText := pageText source; status := FOUND |} ;;
    noteLegalName sourceText (url source) ;;
    ret Break
  else ret Continue.

Definition resolvePolicy (sources : list PolicyEntry) (policy : Policy) : M LoopControl :=
  if negb (isPolicyRelevant policy merchantType) then ret Continue
  else
    e <- getPolicy policy ;;
    if present e then ret Continue
    else forOf sources (resolveFromSource policy) ;; ret Continue.

(** one round of [for (let i = 0; i < GROUP.length; i++)] *)
Definition groupRound (i : nat) : M LoopControl :=
  sources <- presentSources ;;
  if (length sources =? 0)%nat then ret Break
  else forOf GROUP (resolvePolicy sources) ;; ret Continue.

Definition groupResolution : M unit :=
  forOf (seq 0 (length GROUP)) groupRound.

(** *** Verification step *)

Definition verification : M unit :=
  isTrue <- legalNameIs LegalTrue ;;
  legalNameURL <- gets Result.legalNameURL ;;
  if isProprietorEntity && isTrue && truthy legalNameURL then
    verifyOk <- safeGoto (default "" legalNameURL) ;;
    if verifyOk then
      body <- textContent ;;
      found <- call (containsLegalName (normalize body) legalName) ;;
      if negb found then modify (Result.setLegalName LegalFalse None) else ret tt
    else ret tt
  else ret tt.

(** *** Comprehensive search *)

Definition searchVisited (pageInfo : VisitedPage) : M LoopControl :=
  found <- call (containsLegalName (visitedText pageInfo) legalName) ;;
  if found then
    modify (Result.setLegalName LegalTrue (Some (visitedUrl pageInfo))) ;; ret Break
  else ret Continue.

Definition searchHomepage : M unit :=
  safeGoto (website args) ;;
  body <- textContent ;;
  found <- call (containsLegalName (normalize body) legalName) ;;
  if found then modify (Result.setLegalName LegalTrue (Some (website args))) else ret tt.

Definition searchLink (link : Link) : M LoopControl :=
  ok <- safeGoto (href link) ;;
  if negb ok then ret Continue
  else
    body <- textContent ;;
    found <- call (containsLegalName (normalize body) legalName) ;;
    if found then
      modify (Result.setLegalName LegalTrue (Some (href link))) ;; ret Break
    else
      safeGoto (website args) ;;
      isTrue <- legalNameIs LegalTrue ;;
      if isTrue then ret Break else ret Continue.

Definition otherPages : list string := ["contact"; "about"; "info"; "us"; "company"].

Definition searchPageType (links : list Link) (pageType : string) : M LoopControl :=
  let relevantLinks :=
    List.filter (λ link, Text.includes (text link) pageType && negb (Text.isEmpty (href link)))
                links in
  forOf (take 2 relevantLinks) searchLink ;;
  isTrue <- legalNameIs LegalTrue ;;
  if isTrue then ret Break else ret Continue.

Definition comprehensiveSearch (links : list Link) : M unit :=
  isFalse <- legalNameIs LegalFalse ;;
  if isProprietorEntity && isFalse && negb (Text.isEmpty legalName) then
    visited <- getVisited ;;
    forOf visited searchVisited ;;
    isFalse <- legalNameIs LegalFalse ;;
    (if isFalse then searchHomepage else ret tt) ;;
    isFalse <- legalNameIs LegalFalse ;;
    if isFalse then forOf otherPages (searchPageType links) else ret tt
  else ret tt.

(** *** Final evaluation *)

Definition markMissing (e : PolicyEntry) : PolicyEntry :=
  {| present := present e; url := url e; pageText := pageText e; status := MISSING |}.

Definition deletePageText (e : PolicyEntry) : PolicyEntry :=
  {| present := present e; url := url e; pageText := None; status := status e |}.

Definition pushMissing (label : string) : M unit :=
  modify (λ r, Result.setMissingPolicies (Result.missingPolicies r ++ [label]) r).

Definition evaluatePolicy (policy : Policy) : M LoopControl :=
  if negb (isPolicyRelevant policy merchantType) then ret Continue
  else
    e <- getPolicy policy ;;
    (if negb (present e) then
       pushMissing (policyKey policy) ;;
       e <- getPolicy policy ;;
       setPolicy policy (markMissing e)
     else ret tt) ;;
    e <- getPolicy policy ;;
    (if truthy (pageText e) then
       e <- getPolicy policy ;;
       setPolicy policy (deletePageText e)
     else ret tt) ;;
    ret Continue.

(** [xs.filter(f)] and [xs.every(f)] for callbacks that read the result *)
Fixpoint filterM {A} (f : A → M bool) (xs : list A) : M (list A) :=
  match xs with
  | [] => ret []
  | x :: xs' =>
      b <- f x ;;
      r <- filterM f xs' ;;
      ret (if b then x :: r else r)
  end.

Fixpoint everyM {A} (f : A → M bool) (xs : list A) : M bool :=
  match xs with
  | [] => ret true
  | x :: xs' =>
      b <- f x ;;
      if b then everyM f xs' else ret false
  end.

Definition isPresent (policy : Policy) : M bool :=
  e <- getPolicy policy ;; ret (present e).

Definition finalEvaluation : M unit :=
  forOf ORDER evaluatePolicy ;;
  isFalse <- legalNameIs LegalFalse ;;
  (if isProprietorEntity && isFalse && negb (Text.isEmpty legalName)
   then pushMissing "legal name" else ret tt) ;;
  let allRelevantPolicies := List.filter (λ policy, isPolicyRelevant policy merchantType) ORDER in
  foundRelevantPolicies <- filterM isPresent allRelevantPolicies ;;
  modify (Result.setAllRelevantPoliciesMissing (length foundRelevantPolicies =? 0)%nat) ;;
  allRelevantPoliciesPresent <-
    everyM (λ policy, if negb (isPolicyRelevant policy merchantType) then ret true
                      else isPresent policy) ORDER ;;
  isTrue <- legalNameIs LegalTrue ;;
  let legalNameOk := negb isProprietorEntity || isTrue in
  if allRelevantPoliciesPresent && legalNameOk
  then modify (Result.setComplianceStatus PASS) else ret tt.

(** *** The whole audit *)

Definition normalizeLink (l : Link) : Link :=
  {| text := normalize (Some (text l)); href := href l |}.

(** the four passes, from the extracted links to the state handed to the
    final evaluation *)
Definition passes (links : list Link) : M unit :=
  primaryPass links ;;
  groupResolution ;;
  verification ;;
  comprehensiveSearch links.

(** the body of the [try] block *)
Definition audit : M unit :=
  ok <- safeGoto (website args) ;;
  if negb ok then modify (Result.setError (Some "Failed to load website"))
  else
    rawLinks <- anchors ;;
    let links := map normalizeLink rawLinks in
    passes links ;;
    finalEvaluation.

(** [try { ... } catch (error) { result.error = error.message }] *)
Definition checkWebsiteRun (pg : Page) : Completion unit * State :=
  try_catch audit (λ msg, modify (Result.setError (Some msg))) (initialState pg).

Definition checkWebsite (pg : Page) : Result.t := result (checkWebsiteRun pg).2.

End CheckWebsite.

(** ** MAIN: the report columns derived from a result *)

Definition ManualCheckingRequired (r : Result.t) : string :=
  if Result.allRelevantPoliciesMissing r then "YES" else "NO".

(** ** A regular-expression engine for a fragment of the ECMAScript syntax

    The fragment, read as the web engines read a pattern without the flag
    [u]: literal characters, [.], [^], [$], the escapes [\b \B \s \S \d \D
    \w \W \t \n \v \f \r], the escape of any other character that is not
    one of [c x u k] or a digit (it stands for the character itself),
    bracketed classes with ranges and class escapes, groups [( )] and
    [(?: )], alternation, and the quantifiers [* + ?] and [{n}], [{n,}],
    [{n,m}] (also lazy); a brace that opens no quantifier is a literal
    character.  The syntax errors of the fragment are the ECMAScript ones,
    and their message names the pattern as the constructor of [RegExp]
    does.  Look-around, named groups, back-references and the escapes
    [\c \x \u \k \0]-[\9] lie outside the fragment: [modelled] tells the
    patterns of the fragment apart, the engine refuses the others, and no
    statement below rests on what it does with them.  Since [test] only asks
    whether a match exists, greedy and lazy quantifiers coincide and groups
    need not capture. *)

Module MiniRegExp.

Inductive CharClass := Space | Digit | Word.

(** a member of a bracketed class *)
Inductive ClassItem :=
| One (c : ascii)
| Between (lo hi : ascii)
| Escaped (positive : bool) (k : CharClass).

Inductive Re :=
| Eps
| Lit (c : ascii)
| Dot
| Cls (positive : bool) (k : CharClass)
| Bracket (invert : bool) (items : list ClassItem)
| Boundary (positive : bool)
| Bol
| Eol
| Cat (a b : Re)
| Alt (a b : Re)
| Star (a : Re)
| Times (n : nat) (a : Re).

Record Compiled := { ignoreCase : bool; expr : Re }.

Definition inClass (k : CharClass) (c : ascii) : bool :=
  match k with
  | Space => Text.isWhiteSpace c
  | Digit => Text.between 48 57 (Text.code c)
  | Word => Text.isWordChar c
  end.

(** Canonical equivalence of code units below U+0100 under the [i] flag *)
Definition sameChar (icase : bool) (a b : ascii) : bool :=
  if icase then bool_decide (Text.toLowerChar a = Text.toLowerChar b)
  else bool_decide (a = b).

(** [x] is, up to the canonical equivalence, a member of the class item *)
Definition inItem (icase : bool) (x : ascii) (item : ClassItem) : bool :=
  match item with
  | One c => sameChar icase c x
  | Between lo hi =>
      existsb (λ n, sameChar icase (ascii_of_nat n) x)
        (seq (Text.code lo) (S (Text.code hi) - Text.code lo))
  | Escaped positive k => eqb (inClass k x) positive
  end.

Definition isWordAt (c : option ascii) : bool :=
  match c with
  | Some x => Text.isWordChar x
  | None => false
  end.

(** [matchRe icase r prev rest k]: [r] matches a prefix of [rest], the
    character before it being [prev], and [k] accepts what follows. *)
Fixpoint matchRe (icase : bool) (r : Re) (prev : option ascii) (rest : list ascii)
    (k : option ascii → list ascii → bool) {struct r} : bool :=
  match r with
  | Eps => k prev rest
  | Lit c =>
      match rest with
      | x :: rest' => if sameChar icase c x then k (Some x) rest' else false
      | [] => false
      end
  | Dot =>
      match rest with
      | x :: rest' => if Text.isLineTerminator x then false else k (Some x) rest'
      | [] => false
      end
  | Cls positive cl =>
      match rest with
      | x :: rest' => if eqb (inClass cl x) positive then k (Some x) rest' else false
      | [] => false
      end
  | Bracket invert items =>
      match rest with
      | x :: rest' =>
          if xorb (existsb (inItem icase x) items) invert then k (Some x) rest' else false
      | [] => false
      end
  | Boundary positive =>
      if eqb (xorb (isWordAt prev) (isWordAt (head rest))) positive
      then k prev rest else false
  | Bol => match prev with None => k prev rest | Some _ => false end
  | Eol => match rest with [] => k prev rest | _ :: _ => false end
  | Cat a b => matchRe icase a prev rest (λ prev' rest', matchRe icase b prev' rest' k)
  | Alt a b => if matchRe icase a prev rest k then true else matchRe icase b prev rest k
  | Star a =>
      (fix loop (fuel : nat) (prev : option ascii) (rest : list ascii) : bool :=
         if k prev rest then true
         else match fuel with
              | O => false
              | S fuel' =>
                  matchRe icase a prev rest
                    (λ prev' rest',
                       if (length rest' <? length rest)%nat
                       then loop fuel' prev' rest' else false)
              end) (length rest) prev rest
  | Times n a =>
      (fix times (n : nat) (prev : option ascii) (rest : list ascii) : bool :=
         match n with
         | O => k prev rest
         | S n' => matchRe icase a prev rest (λ prev' rest', times n' prev' rest')
         end) n prev rest
  end.

Fixpoint searchFrom (icase : bool) (r : Re) (prev : option ascii) (rest : list ascii) : bool :=
  if matchRe icase r prev rest (λ _ _, true) then true
  else match rest with
       | [] => false
       | x :: rest' => searchFrom icase r (Some x) rest'
       end.

Definition test (re : Compiled) (text : string) : bool :=
  searchFrom (ignoreCase re) (expr re) None (String.list_ascii_of_string text).

(** *** Parsing *)

Inductive Parsed :=
| POk (current : Re) (others : list Re) (rest : list ascii)
| PErr (msg : string)
(** the pattern leaves the fragment *)
| PBeyond.

Definition isDigit (c : ascii) : bool := Text.between 48 57 (Text.code c).

(** the decimal digits at the head of [cs], and what follows them *)
Fixpoint digits (cs : list ascii) : list ascii * list ascii :=
  match cs with
  | c :: cs' =>
      if isDigit c then let '(ds, rest) := digits cs' in (c :: ds, rest)
      else ([], cs)
  | [] => ([], [])
  end.

Definition number (ds : list ascii) : nat :=
  foldl (λ n d, 10 * n + (Text.code d - 48))%nat 0%nat ds.

(** a braced quantifier at the head of [cs], the brace being read already:
    its least count, its greatest count if any, and what follows it *)
Definition braces (cs : list ascii) : option (nat * option nat * list ascii) :=
  match digits cs with
  | ([], _) => None
  | (lo, "}"%char :: rest) => Some (number lo, Some (number lo), rest)
  | (lo, ","%char :: "}"%char :: rest) => Some (number lo, None, rest)
  | (lo, ","%char :: cs') =>
      match digits cs' with
      | ([], _) => None
      | (hi, "}"%char :: rest) => Some (number lo, Some (number hi), rest)
      | _ => None
      end
  | _ => None
  end.

Definition isQuantifier (c : ascii) : bool :=
  bool_decide (c = "*"%char) || bool_decide (c = "+"%char) || bool_decide (c = "?"%char).

Definition quantify (q : ascii) (a : Re) : Re :=
  if bool_decide (q = "*"%char) then Star a
  else if bool_decide (q = "+"%char) then Cat a (Star a)
  else Alt a Eps.

(** [a{lo,hi}] and [a{lo,}] *)
Definition repeat (lo : nat) (hi : option nat) (a : Re) : Re :=
  match hi with
  | Some hi => Cat (Times lo a) (Times (hi - lo) (Alt a Eps))
  | None => Cat (Times lo a) (Star a)
  end.

Definition skipLazy (cs : list ascii) : list ascii :=
  match cs with
  | "?"%char :: cs' => cs'
  | _ => cs
  end.

Inductive Quantified :=
| QOk (a : Re) (rest : list ascii)
| QErr (msg : string).

(** an optional quantifier, with its optional lazy mark *)
Definition quantified (a : Re) (cs : list ascii) : Quantified :=
  match cs with
  | q :: cs' =>
      if isQuantifier q then QOk (quantify q a) (skipLazy cs')
      else if bool_decide (q = "{"%char) then
        match braces cs' with
        | Some (lo, hi, rest) =>
            if (default lo hi <? lo)%nat
            then QErr "numbers out of order in {} quantifier"
            else QOk (repeat lo hi a) (skipLazy rest)
        | None => QOk a cs
        end
      else QOk a cs
  | [] => QOk a cs
  end.

Inductive Escape :=
| EAtom (a : Re)
| EAssertion (a : Re)
| EBeyond.

(** the escapes with a meaning of their own that the fragment leaves out *)
Definition isBeyondEscape (c : ascii) : bool :=
  bool_decide (c = "c"%char) || bool_decide (c = "x"%char) || bool_decide (c = "u"%char)
  || bool_decide (c = "k"%char) || isDigit c.

Definition escape (c : ascii) : Escape :=
  if bool_decide (c = "b"%char) then EAssertion (Boundary true)
  else if bool_decide (c = "B"%char) then EAssertion (Boundary false)
  else if bool_decide (c = "s"%char) then EAtom (Cls true Space)
  else if bool_decide (c = "S"%char) then EAtom (Cls false Space)
  else if bool_decide (c = "d"%char) then EAtom (Cls true Digit)
  else if bool_decide (c = "D"%char) then EAtom (Cls false Digit)
  else if bool_decide (c = "w"%char) then EAtom (Cls true Word)
  else if bool_decide (c = "W"%char) then EAtom (Cls false Word)
  else if bool_decide (c = "t"%char) then EAtom (Lit (ascii_of_nat 9))
  else if bool_decide (c = "n"%char) then EAtom (Lit (ascii_of_nat 10))
  else if bool_decide (c = "v"%char) then EAtom (Lit (ascii_of_nat 11))
  else if bool_decide (c = "f"%char) then EAtom (Lit (ascii_of_nat 12))
  else if bool_decide (c = "r"%char) then EAtom (Lit (ascii_of_nat 13))
  else if isBeyondEscape c then EBeyond
  else EAtom (Lit c).

(** an escape inside a bracketed class *)
Definition classEscape (c : ascii) : option ClassItem :=
  if bool_decide (c = "b"%char) then Some (One (ascii_of_nat 8))
  else if bool_decide (c = "s"%char) then Some (Escaped true Space)
  else if bool_decide (c = "S"%char) then Some (Escaped false Space)
  else if bool_decide (c = "d"%char) then Some (Escaped true Digit)
  else if bool_decide (c = "D"%char) then Some (Escaped false Digit)
  else if bool_decide (c = "w"%char) then Some (Escaped true Word)
  else if bool_decide (c = "W"%char) then Some (Escaped false Word)
  else if bool_decide (c = "t"%char) then Some (One (ascii_of_nat 9))
  else if bool_decide (c = "n"%char) then Some (One (ascii_of_nat 10))
  else if bool_decide (c = "v"%char) then Some (One (ascii_of_nat 11))
  else if bool_decide (c = "f"%char) then Some (One (ascii_of_nat 12))
  else if bool_decide (c = "r"%char) then Some (One (ascii_of_nat 13))
  else if isBeyondEscape c then None
  else Some (One c).

Inductive ClassAtom :=
| AOk (item : ClassItem) (rest : list ascii)
| AUnterminated
| AEscapeAtEnd
| ABeyond.

(** one atom of a class, [cs] not starting with the closing bracket *)
Definition classAtom (cs : list ascii) : ClassAtom :=
  match cs with
  | [] => AUnterminated
  | "\"%char :: [] => AEscapeAtEnd
  | "\"%char :: e :: rest =>
      match classEscape e with
      | Some item => AOk item rest
      | None => ABeyond
      end
  | c :: rest => AOk (One c) rest
  end.

Inductive ClassParsed :=
| COk (items : list ClassItem) (rest : list ascii)
| CErr (msg : string)
| CBeyond.

(** the members of a class up to its closing bracket *)
Fixpoint classItems (fuel : nat) (cs : list ascii) : ClassParsed :=
  match fuel with
  | O => CBeyond
  | S fuel' =>
      let more (items : list ClassItem) (cs' : list ascii) :=
        match classItems fuel' cs' with
        | COk others rest => COk (items ++ others) rest
        | failed => failed
        end in
      match cs with
      | [] => CErr "Unterminated character class"
      | "]"%char :: rest => COk [] rest
      | _ =>
          match classAtom cs with
          | AUnterminated => CErr "Unterminated character class"
          | AEscapeAtEnd => CErr "\ at end of pattern"
          | ABeyond => CBeyond
          | AOk a ("-"%char :: "]"%char :: rest) => COk [a; One "-"%char] rest
          | AOk a ("-"%char :: cs') =>
              match classAtom cs' with
              | AUnterminated => CErr "Unterminated character class"
              | AEscapeAtEnd => CErr "\ at end of pattern"
              | ABeyond => CBeyond
              | AOk b rest =>
                  match a, b with
                  | One lo, One hi =>
                      if (Text.code hi <? Text.code lo)%nat
                      then CErr "Range out of order in character class"
                      else more [Between lo hi] rest
                  | _, _ => more [a; One "-"%char; b] rest
                  end
              end
          | AOk a rest => more [a] rest
          end
      end
  end.

Definition stripNonCapturing (cs : list ascii) : option (list ascii) :=
  match cs with
  | "?"%char :: ":"%char :: cs' => Some cs'
  | "?"%char :: _ => None
  | _ => Some cs
  end.

(** [parse fuel cs]: the alternative that starts at [cs], the alternatives
    that follow it up to the end of the enclosing group, and what is left. *)
Fixpoint parse (fuel : nat) (cs : list ascii) : Parsed :=
  match fuel with
  | O => PBeyond
  | S fuel' =>
      let continue (a : Re) (cs' : list ascii) :=
        match parse fuel' cs' with
        | POk current others rest => POk (Cat a current) others rest
        | failed => failed
        end in
      let atom (a : Re) (cs' : list ascii) :=
        match quantified a cs' with
        | QOk a' rest' => continue a' rest'
        | QErr msg => PErr msg
        end in
      match cs with
      | [] => POk Eps [] []
      | c :: cs' =>
          if bool_decide (c = ")"%char) then POk Eps [] cs
          else if bool_decide (c = "|"%char) then
            match parse fuel' cs' with
            | POk current others rest => POk Eps (current :: others) rest
            | failed => failed
            end
          else if isQuantifier c then PErr "Nothing to repeat"
          else if bool_decide (c = "("%char) then
            match stripNonCapturing cs' with
            | None => PBeyond
            | Some body =>
                match parse fuel' body with
                | POk current others (_ :: rest) => atom (foldl Alt current others) rest
                | POk _ _ [] => PErr "Unterminated group"
                | failed => failed
                end
            end
          else if bool_decide (c = "\"%char) then
            match cs' with
            | [] => PErr "\ at end of pattern"
            | e :: cs'' =>
                match escape e with
                | EAtom a => atom a cs''
                | EAssertion a => continue a cs''
                | EBeyond => PBeyond
                end
            end
          else if bool_decide (c = "^"%char) then continue Bol cs'
          else if bool_decide (c = "$"%char) then continue Eol cs'
          else if bool_decide (c = "["%char) then
            let '(invert, members) :=
              match cs' with
              | "^"%char :: cs'' => (true, cs'')
              | _ => (false, cs')
              end in
            match classItems (S (length members)) members with
            | COk items rest => atom (Bracket invert items) rest
            | CErr msg => PErr msg
            | CBeyond => PBeyond
            end
          else if bool_decide (c = "{"%char) then
            match braces cs' with
            | Some _ => PErr "Nothing to repeat"
            | None => atom (Lit c) cs'
            end
          else atom (if bool_decide (c = "."%char) then Dot else Lit c) cs'
      end
  end.

Definition parsePattern (source : string) : Parsed :=
  let cs := String.list_ascii_of_string source in
  parse (S (length cs)) cs.

(** the flags of the fragment: none, or [i] *)
Definition modelledFlags (flags : string) : bool :=
  bool_decide (flags = "i") || bool_decide (flags = "").

(** the pattern and the flags lie in the fragment *)
Definition modelled (source flags : string) : bool :=
  modelledFlags flags
  && match parsePattern source with
     | PBeyond => false
     | _ => true
     end.

(** the message of the [SyntaxError] of [new RegExp(source, flags)] *)
Definition syntaxError (source flags reason : string) : string :=
  "Invalid regular expression: /" +:+ source +:+ "/" +:+ flags +:+ ": " +:+ reason.

Definition beyond : string := "pattern outside the modelled fragment".

Definition compile (source flags : string) : Completion Compiled :=
  if negb (modelledFlags flags) then Throw beyond
  else
    match parsePattern source with
    | POk current others [] =>
        Normal {| ignoreCase := bool_decide (flags = "i");
                  expr := foldl Alt current others |}
    | POk _ _ (_ :: _) => Throw (syntaxError source flags "Unmatched ')'")
    | PErr msg => Throw (syntaxError source flags msg)
    | PBeyond => Throw beyond
    end.

End MiniRegExp.

Definition MiniRegExp_engine : RegExpEngine :=
  {| RegExp := MiniRegExp.Compiled;
     RegExp_new := MiniRegExp.compile;
     RegExp_test := MiniRegExp.test |}.

(** ** A browser over a static web site

    Every URL of the site always answers with the same page; a URL outside
    the site makes [page.goto] reject.  A page may be one whose body cannot
    be read, in which case [page.textContent] rejects. *)

Module StaticSite.

Record WebPage := {
  body : Completion (option string);
  anchorList : list Link
}.

Record Session := {
  site : gmap string WebPage;
  current : option WebPage
}.

Definition goto (url : string) (s : Session) : Completion unit * Session :=
  match site s !! url with
  | Some w => (Normal tt, {| site := site s; current := Some w |})
  | None => (Throw "net::ERR_NAME_NOT_RESOLVED", s)
  end.

Definition anchorsOf (s : Session) : Completion (list Link) * Session :=
  (Normal (match current s with Some w => anchorList w | None => [] end), s).

Definition textOf (s : Session) : Completion (option string) * Session :=
  (match current s with Some w => body w | None => Normal (Some "") end, s).

Definition open (pages : list (string * WebPage)) : Session :=
  {| site := list_to_map pages; current := None |}.

End StaticSite.

Definition StaticSite_browser : Browser :=
  {| Page := StaticSite.Session;
     page_goto := StaticSite.goto;
     page_anchors := StaticSite.anchorsOf;
     page_textContent := StaticSite.textOf |}.

(** * Specification vocabulary *)

Section Vocabulary.
Context `{RegExpEngine} `{Browser}.
Variable args : Args.

(** ** Triples over the result object

    [triple P m Q E]: run from a state whose result satisfies [P], [m] ends
    normally with a value [a] and a result satisfying [Q a], or throws with
    a result satisfying [E]. *)
Definition triple {A} (P : Result.t → Prop) (m : M A)
    (Q : A → Result.t → Prop) (E : Result.t → Prop) : Prop :=
  ∀ s, P (result s) →
    match m s with
    | (Normal a, s') => Q a (result s')
    | (Throw _, s') => E (result s')
    end.

(** a step that leaves the browser and the visited pages alone *)
Definition offline {A} (m : M A) : Prop :=
  ∀ s, page (m s).2 = page s ∧ navigations (m s).2 = navigations s
       ∧ visitedPages (m s).2 = visitedPages s.

(** ** Invariants of the result object *)

(** [result.policies[p].present] *)
Definition presentOf (r : Result.t) (p : Policy) : bool :=
  match Result.policies r !! p with
  | Some e => present e
  | None => false
  end.

Definition notRelevantEntry : PolicyEntry :=
  {| present := false; url := None; pageText := None; status := NOT_RELEVANT |}.

Definition EntryOk (p : Policy) (e : PolicyEntry) : Prop :=
  if isPolicyRelevant p (merchantType args)
  then (present e = true ∧ status e = FOUND) ∨ (present e = false ∧ status e = MISSING)
  else e = notRelevantEntry.

Record Core (r : Result.t) : Prop := {
  core_error : Result.error r = None;
  core_isProprietorship : Result.isProprietorship r = isProprietorEntity args;
  core_not_relevant :
    Result.legalNamePresent r = LegalNotRelevant ↔ isProprietorEntity args = false;
  core_no_name : legalName args = "" → Result.legalNamePresent r ≠ LegalTrue;
  core_entries : ∀ p, ∃ e, Result.policies r !! p = Some e ∧ EntryOk p e
}.

(** the verdict and the manual-review flag still have their initial values *)
Record Unjudged (r : Result.t) : Prop := {
  unjudged_compliance : Result.complianceStatus r = FAIL;
  unjudged_allMissing : Result.allRelevantPoliciesMissing r = false
}.

(** why a label may stand in [missingPolicies] *)
Definition Justified (r : Result.t) (l : string) : Prop :=
  (∃ p, l = policyKey p ∧ isPolicyRelevant p (merchantType args) = true
        ∧ presentOf r p = false)
  ∨ (l = "legal name" ∧ isProprietorEntity args = true
     ∧ Result.legalNamePresent r = LegalFalse ∧ legalName args ≠ "").

Definition MissingOk (r : Result.t) : Prop :=
  ∀ l, l ∈ Result.missingPolicies r → Justified r l.

(** the invariant of the four passes *)
Definition Inv (r : Result.t) : Prop :=
  Core r ∧ Unjudged r ∧ Result.missingPolicies r = [].

(** the invariant of the final evaluation, up to the verdict *)
Definition Evaluating (r : Result.t) : Prop :=
  Core r ∧ Unjudged r ∧ MissingOk r.

(** [ORDER.every(policy => !isPolicyRelevant(policy, merchantType)
                           || result.policies[policy].present)] over [xs] *)
Definition allPresent (r : Result.t) (xs : list Policy) : bool :=
  forallb (λ p, negb (isPolicyRelevant p (merchantType args)) || presentOf r p) xs.

Definition legalNameOk (r : Result.t) : bool :=
  negb (isProprietorEntity args) || bool_decide (Result.legalNamePresent r = LegalTrue).

Definition foundRelevant (r : Result.t) : list Policy :=
  List.filter (presentOf r)
    (List.filter (λ policy, isPolicyRelevant policy (merchantType args)) (ORDER args)).

(** what the final evaluation leaves in the result *)
Record Evaluated (r : Result.t) : Prop := {
  evaluated_core : Core r;
  evaluated_missing : MissingOk r;
  evaluated_allMissing :
    Result.allRelevantPoliciesMissing r = (length (foundRelevant r) =? 0)%nat;
  evaluated_compliance :
    Result.complianceStatus r
    = if allPresent r (ORDER args) && legalNameOk r then PASS else FAIL
}.

(** the result returned when the home page cannot be loaded *)
Definition homepageFailure : Result.t :=
  Result.setError (Some "Failed to load website") (initialResult args).

(** an outcome is NOT RELEVANT exactly for the policies outside the
    applicability set, and those are not among the missing items *)
Definition Relevance (r : Result.t) : Prop :=
  ∀ p, (∃ e, Result.policies r !! p = Some e
             ∧ (status e = NOT_RELEVANT ↔ isPolicyRelevant p (merchantType args) = false))
       ∧ (isPolicyRelevant p (merchantType args) = false →
          policyKey p ∉ Result.missingPolicies r).

(** the legal name is looked for and not found *)
Definition Absent (r : Result.t) : Prop := Result.legalNamePresent r = LegalFalse.

(** ** The scan of the home-page links for one policy *)

(** the link is one the primary pass follows for the policy *)
Definition followed (policy : Policy) (link : Link) : bool :=
  negb (Text.isEmpty (href link) || Text.isEmpty (text link))
  && containsAny (text link) (anchorHints (POLICY_CONFIG policy)).

(** the state after the page of [link] was loaded and read as [body] *)
Definition visited (policy : Policy) (link : Link) (body : option string)
    (pg : Page) (s : State) : State :=
  {| result := result s;
     visitedPages := visitedPages s
       ++ [{| visitedUrl := href link; visitedText := normalize body; policyType := policy |}];
     page := pg;
     navigations := navigations s ++ [href link] |}.

(** the outcome written when the page of [link] passes the keyword test *)
Definition foundEntry (link : Link) (body : option string) : PolicyEntry :=
  {| present := true; url := Some (href link);
     pageText := Some (normalize body); status := FOUND |}.

(** The reading of the primary pass under which the first followed link is
    final: once that link leads to a page that fails the keyword test of the
    policy, the scan of the links leaves the outcome of the policy as it was
    and navigates to no other link. *)
Definition first_match_is_final (policy : Policy) (links : list Link) (s : State) : Prop :=
  ∀ link pg1 pg2 body,
    head (List.filter (followed policy) links) = Some link →
    page_goto (href link) (page s) = (Normal tt, pg1) →
    page_textContent pg1 = (Normal body, pg2) →
    containsAny (normalize body) (pageKeywords (POLICY_CONFIG policy)) = false →
    presentOf (result (forOf links (primaryLink args policy) s).2) policy
    = presentOf (result s) policy
    ∧ navigations (forOf links (primaryLink args policy) s).2
      = navigations s ++ [href link].

End Vocabulary.

(** every character of the string is white space *)
Fixpoint allWhite (s : string) : bool :=
  match s with
  | EmptyString => true
  | String c s' => Text.isWhiteSpace c && allWhite s'
  end.

(** ** Scenarios on static sites *)

Module Scenario.

Definition anchor (t h : string) : Link := {| text := t; href := h |}.

Definition webPage (t : string) (links : list Link) : StaticSite.WebPage :=
  {| StaticSite.body := Normal (Some t); StaticSite.anchorList := links |}.

(** a studio that sells services and shows its four policies *)
Definition studio : StaticSite.Session :=
  StaticSite.open
    [("https://studio.example/",
      webPage "Welcome to Studio Nine"
        [anchor "Privacy Policy" "https://studio.example/privacy";
         anchor "Terms of Service" "https://studio.example/terms";
         anchor "Refund Policy" "https://studio.example/refund";
         anchor "Cancellation" "https://studio.example/cancel";
         anchor "Contact" "https://studio.example/gone"]);
     ("https://studio.example/privacy", webPage "Our Privacy Policy" []);
     ("https://studio.example/terms", webPage "Terms of Service of the studio" []);
     ("https://studio.example/refund", webPage "Refund policy: 14 days" []);
     ("https://studio.example/cancel", webPage "Cancellation is free" [])].

Definition company : Args :=
  {| website := "https://studio.example/"; merchantTypeInput := Some "services";
     entityType := Some "Private Limited"; legalNameRaw := Some "Studio Nine" |}.

Definition namelessProprietor : Args :=
  {| website := "https://studio.example/"; merchantTypeInput := Some "services";
     entityType := Some "Sole Proprietorship"; legalNameRaw := None |}.

Definition bracketProprietor : Args :=
  {| website := "https://studio.example/"; merchantTypeInput := Some "services";
     entityType := Some "Sole Proprietorship"; legalNameRaw := Some "Acme (" |}.

(** a consultancy whose home page shows no policy link at all *)
Definition bare : StaticSite.Session :=
  StaticSite.open
    [("https://bare.example/",
      webPage "Under construction" [anchor "Home" "https://bare.example/"])].

Definition consultancy : Args :=
  {| website := "https://bare.example/"; merchantTypeInput := Some "services";
     entityType := Some "Private Limited"; legalNameRaw := None |}.

(** a merchant whose site does not answer *)
Definition unreachable : Args :=
  {| website := "https://down.example/"; merchantTypeInput := Some "goods";
     entityType := Some "Sole Proprietorship"; legalNameRaw := Some "Down Traders" |}.

(** a shop with two privacy links, the first leading to a page without any
    privacy keyword *)
Definition cookieLink : Link := anchor "privacy settings" "https://shop.example/cookies".
Definition policyLink : Link := anchor "privacy policy" "https://shop.example/privacy".

Definition shop : StaticSite.Session :=
  StaticSite.open
    [("https://shop.example/", webPage "Shop" [cookieLink; policyLink]);
     ("https://shop.example/cookies", webPage "Choose your cookies" []);
     ("https://shop.example/privacy", webPage "Privacy Policy of the shop" [])].

Definition shopkeeper : Args :=
  {| website := "https://shop.example/"; merchantTypeInput := Some "goods";
     entityType := Some "Private Limited"; legalNameRaw := None |}.

(** the state of the audit of the shop once its home page is loaded *)
Definition shopLoaded : @State StaticSite_browser :=
  (@safeGoto StaticSite_browser (website shopkeeper)
     (@initialState StaticSite_browser shopkeeper shop)).2.

(** [n] characters ["x"] *)
Fixpoint filler (n : nat) : string :=
  match n with
  | O => EmptyString
  | S n' => String "x" (filler n')
  end.

(** ["John"], then a gap of [n] characters, then ["Doe"] *)
Definition apart (n : nat) : string := "John " +:+ filler (n - 2) +:+ " Doe".

End Scenario.

(** ** The call of [checkWebsite], whatever the cells

    [checkWebsite] classifies the merchant before its [try] block.  A cell of
    the input sheet need not be a string: a numeric cell reaches
    [checkWebsite] as a number (here an integer), and a number that is not
    zero has no [toLowerCase]. *)

Inductive Input :=
| Missing
| Str (s : string)
| Num (n : Z).

(** [!input] *)
Definition falsyInput (input : Input) : bool :=
  match input with
  | Missing => true
  | Str s => Text.isEmpty s
  | Num n => n =? 0
  end.

Definition notAFunction : string :=
  "(s || " +:+ String "034"%char (String "034"%char ").toLowerCase is not a function").

(** [normalize(s)] for any cell *)
Definition normalizeInput (s : Input) : Completion string :=
  match s with
  | Missing => Normal (normalize None)
  | Str t => Normal (normalize (Some t))
  | Num n => if n =? 0 then Normal (normalize None) else Throw notAFunction
  end.

(** [determineMerchantType(input)] for any cell *)
Definition determineMerchantTypeOf (input : Input) : Completion MerchantType :=
  if falsyInput input then Normal goods
  else cbind (normalizeInput input) (λ normalizedInput,
       Normal (if Text.includes normalizedInput "good" then goods else services)).

(** [isProprietorship(entityType)] for any cell *)
Definition isProprietorshipOf (entityType : Input) : Completion bool :=
  if falsyInput entityType then Normal true
  else cbind (normalizeInput entityType) (λ normalizedEntity,
       Normal (Text.includes normalizedEntity "proprietor")).

(** the cell as [checkWebsite] uses it once the classification went
    through: a string, or a falsy value *)
Definition textOf (input : Input) : option string :=
  match input with
  | Str s => Some s
  | _ => None
  end.



(** ** Occurrences of a string in a text

    What "the first occurrence" and "the last occurrence" of a part in the
    page mean, said without the searches of the program: the part occurs at
    an offset when the text is some characters, as many as the offset, then
    the part, then the rest. *)

Definition occursAt (text k : string) (i : Z) : Prop :=
  ∃ before after, text = before +:+ k +:+ after ∧ i = Z.of_nat (String.length before).

Definition firstOccurrence (text k : string) (i : Z) : Prop :=
  occursAt text k i ∧ ∀ j, occursAt text k j → i ≤ j.

Definition lastOccurrence (text k : string) (i : Z) : Prop :=
  occursAt text k i ∧ ∀ j, occursAt text k j → j ≤ i.

(** the offsets at which [k] occurs in [text], the scan being at offset [i] *)
Fixpoint occurrencesFrom (i : Z) (text k : string) : list Z :=
  (if Text.startsWith text k then [i] else [])
  ++ match text with
     | EmptyString => []
     | String _ text' => occurrencesFrom (i + 1) text' k
     end.

(** ** The proximity strategy read on whole words *)

(** the character of [text] at offset [i] is a word character; where the
    text has no character there is no word character *)
Definition wordCharAt (text : string) (i : Z) : bool :=
  if i <? 0 then false
  else match String.get (Z.to_nat i) text with
       | Some c => Text.isWordChar c
       | None => false
       end.

(** [k] occurs in [text] at offset [i] as a whole word: no word character
    stands right before it and none right after it *)
Definition wholeWordAt (text k : string) (i : Z) : Prop :=
  occursAt text k i
  ∧ wordCharAt text (i - 1) = false
  ∧ wordCharAt text (i + Z.of_nat (String.length k)) = false.

Definition firstWholeWord (text k : string) (i : Z) : Prop :=
  wholeWordAt text k i ∧ ∀ j, wholeWordAt text k j → i ≤ j.

Definition lastWholeWord (text k : string) (i : Z) : Prop :=
  wholeWordAt text k i ∧ ∀ j, wholeWordAt text k j → j ≤ i.

(** The strategy with the occurrences of the found parts read as the places
    where the parts are found, as whole words: when the exact pattern does
    not match and at least two parts are found, a first whole-word occurrence
    of the first found part and a last whole-word occurrence of the last
    found part less than 200 characters apart make the matcher answer
    true. *)
Definition distance_between_whole_words `{RegExpEngine} : Prop :=
  ∀ (pageText legalName : string) (exactPattern : RegExp) (found : string → bool)
    (firstPart lastPart : string) (i j : Z),
    (2 ≤ length (namePartsOf (cleanName legalName)))%nat →
    RegExp_new (exactSource (cleanName legalName)) "i" = Normal exactPattern →
    RegExp_test exactPattern pageText = false →
    (∀ part, part ∈ namePartsOf (cleanName legalName) →
       ∃ partPattern, RegExp_new ("\b" +:+ part +:+ "\b") "i" = Normal partPattern
                      ∧ RegExp_test partPattern pageText = found part) →
    (2 ≤ length (List.filter found (namePartsOf (cleanName legalName))))%nat →
    head (List.filter found (namePartsOf (cleanName legalName))) = Some firstPart →
    last (List.filter found (namePartsOf (cleanName legalName))) = Some lastPart →
    firstWholeWord (Text.toLowerCase pageText) firstPart i →
    lastWholeWord (Text.toLowerCase pageText) lastPart j →
    Z.abs (j - i) < 200 →
    containsLegalName pageText legalName = Normal true.

(** ** Shapes of strings *)

(** every character of the string satisfies [p] *)
Fixpoint allChars (p : ascii → bool) (s : string) : bool :=
  match s with
  | EmptyString => true
  | String c s' => p c && allChars p s'
  end.

(** the white space of the string is made of single spaces, none of them
    first when [afterSpace] is set *)
Fixpoint singleSpaced (afterSpace : bool) (s : string) : bool :=
  match s with
  | EmptyString => true
  | String c s' =>
      if Text.isWhiteSpace c
      then bool_decide (c = " "%char) && negb afterSpace && singleSpaced true s'
      else singleSpaced false s'
  end.

(** the last character of the string, if any *)
Fixpoint lastChar (s : string) : option ascii :=
  match s with
  | EmptyString => None
  | String c s' => match lastChar s' with Some d => Some d | None => Some c end
  end.

Definition firstChar (s : string) : option ascii :=
  match s with
  | EmptyString => None
  | String c _ => Some c
  end.

Definition isInk (c : option ascii) : bool :=
  match c with
  | Some x => negb (Text.isWhiteSpace x)
  | None => true
  end.

(** lower-casing leaves the character as it is *)
Definition lowered (c : ascii) : bool := bool_decide (Text.toLowerChar c = c).

(** the character is no white space other than the space *)
Definition spaceOrInk (c : ascii) : bool :=
  negb (Text.isWhiteSpace c) || bool_decide (c = " "%char).

(** ** More invariants of the result object *)

Section Vocabulary2.
Context `{RegExpEngine} `{Browser}.
Variable args : Args.

(** a found outcome has its source: a URL and, until the final evaluation,
    the cached text of the page; an outcome that is not found has neither *)
Definition Sourced (r : Result.t) : Prop :=
  ∀ p e, Result.policies r !! p = Some e →
    if present e then truthy (url e) = true ∧ truthy (pageText e) = true
    else url e = None ∧ pageText e = None.

(** the same while the final evaluation deletes the cached texts *)
Definition Halfway (r : Result.t) : Prop :=
  ∀ p e, Result.policies r !! p = Some e →
    if present e
    then truthy (url e) = true ∧ (truthy (pageText e) = true ∨ pageText e = None)
    else url e = None ∧ pageText e = None.

(** the outcome of [p] carries no cached text *)
Definition Cleared (p : Policy) (r : Result.t) : Prop :=
  ∀ e, Result.policies r !! p = Some e → pageText e = None.

(** the outcomes as they are reported: a URL exactly on the found ones, and
    no cached text *)
Definition Published (r : Result.t) : Prop :=
  ∀ p e, Result.policies r !! p = Some e →
    (if present e then truthy (url e) = true else url e = None)
    ∧ pageText e = None.

(** the policy is found, at the URL [u] *)
Definition FoundAt (p : Policy) (u : option string) (r : Result.t) : Prop :=
  ∃ e, Result.policies r !! p = Some e
       ∧ present e = true ∧ url e = u ∧ status e = FOUND.

(** [isProprietorEntity && result.legalNamePresent === false && legalName] *)
Definition legalNameWanted (r : Result.t) : bool :=
  isProprietorEntity args
  && bool_decide (Result.legalNamePresent r = LegalFalse)
  && negb (Text.isEmpty (legalName args)).

(** the missing items that the final evaluation is to report: the relevant
    policies that are not present, in the order of the checklist, then the
    legal name when it is wanted *)
Definition expectedMissing (r : Result.t) : list string :=
  map policyKey
    (List.filter (λ p, isPolicyRelevant p (merchantType args) && negb (presentOf r p))
       (ORDER args))
  ++ (if legalNameWanted r then ["legal name"] else []).

(** the state of the final evaluation once the policies of [done] are
    evaluated: which policies are present is as at its start ([pr]), and so
    is the legal name ([lp]); the missing items are those of [done], then
    [tail] *)
Definition Evaluation (pr : Policy → bool) (lp : LegalNamePresence)
    (done : list Policy) (tail : list string) (r : Result.t) : Prop :=
  (∀ p, is_Some (Result.policies r !! p))
  ∧ (∀ p, presentOf r p = pr p)
  ∧ Result.legalNamePresent r = lp
  ∧ Result.missingPolicies r
    = map policyKey
        (List.filter (λ p, isPolicyRelevant p (merchantType args) && negb (pr p)) done)
      ++ tail
  ∧ Halfway r
  ∧ (∀ p, p ∈ done → isPolicyRelevant p (merchantType args) = true → Cleared p r).

(** a URL of the legal name is recorded only while the name counts as found *)
Definition Located (r : Result.t) : Prop :=
  Result.legalNamePresent r ≠ LegalTrue → Result.legalNameURL r = None.

(** what the final evaluation adds to the verdict *)
Definition Reported (r : Result.t) : Prop :=
  Evaluated args r ∧ Published r
  ∧ Result.missingPolicies r = expectedMissing r.

End Vocabulary2.

(** ** Where the found policies come from *)

(** every policy that is present has the address of one of the links as
    its URL *)
Definition FromLinks (links : list Link) (r : Result.t) : Prop :=
  ∀ p e, Result.policies r !! p = Some e → present e = true →
    ∃ l, l ∈ links ∧ url e = Some (href l).

(** ** The page loads of an audit *)

(** [m] hands at most [n] URLs to [page.goto] *)
Definition loads `{Browser} {A} (m : M A) (n : nat) : Prop :=
  ∀ s, (length (navigations (m s).2) ≤ length (navigations s) + n)%nat.

(** the links that the home page shows when the audit reads it *)
Definition homeLinks `{Browser} (args : Args) (pg : Page) : list Link :=
  match (page_anchors (page_goto (website args) pg).2).1 with
  | Normal rawLinks => rawLinks
  | Throw _ => []
  end.

(** ** MAIN: more of the report columns, and the email decision *)

(** [data[i].LegalNameStatus] *)
Definition LegalNameStatus (r : Result.t) : string :=
  if Result.isProprietorship r
  then if bool_decide (Result.legalNamePresent r = LegalTrue) then "FOUND" else "MISSING"
  else "NOT RELEVANT".

(** [if (result.legalNameURL) data[i].LegalNameURL = result.legalNameURL]:
    the column, when the row gets one *)
Definition LegalNameURL (r : Result.t) : option string :=
  if truthy (Result.legalNameURL r) then Result.legalNameURL r else None.

(** [result.complianceStatus === "FAIL" && !result.allRelevantPoliciesMissing
     && merchantEmail && result.missingPolicies.length > 0] *)
Definition emailDue (r : Result.t) (merchantEmail : string) : bool :=
  bool_decide (Result.complianceStatus r = FAIL)
  && negb (Result.allRelevantPoliciesMissing r)
  && negb (Text.isEmpty merchantEmail)
  && (0 <? length (Result.missingPolicies r))%nat.

(** [data[i].EmailGenerated] *)
Definition EmailGenerated (r : Result.t) (merchantEmail : string) : string :=
  if emailDue r merchantEmail then "YES" else "NO".

(** ** MAIN: the rows of the input sheet

    A row is read as the map from its column names to its cells, the cells
    being strings. *)

(** [a || b] for a cell [a] *)
Definition cellOr (a : option string) (b : string) : string :=
  match a with
  | Some s => if Text.isEmpty s then b else s
  | None => b
  end.

(** [row.Website || row.website] *)
Definition rowWebsite (row : gmap string string) : option string :=
  if truthy (row !! "Website") then row !! "Website" else row !! "website".

(** the arguments that the main loop hands to [checkWebsite] for a row *)
Definition rowArgs (row : gmap string string) (website : string) : Args :=
  {| website := website;
     merchantTypeInput :=
       Some (cellOr (row !! "MerchantType") (cellOr (row !! "merchantType") "goods"));
     entityType :=
       Some (cellOr (row !! "EntityType") (cellOr (row !! "entityType") "proprietorship"));
     legalNameRaw :=
       Some (cellOr (row !! "LegalName") (cellOr (row !! "legalName") "")) |}.

(** [row.Email || row.email || ""] *)
Definition rowEmail (row : gmap string string) : string :=
  cellOr (row !! "Email") (cellOr (row !! "email") "").

(** the audit of a row: none when the row has no website *)
Definition auditRow `{RegExpEngine} `{Browser} (row : gmap string string) (pg : Page)
    : option Result.t :=
  if truthy (rowWebsite row) then
    Some (checkWebsite (rowArgs row (default "" (rowWebsite row))) pg)
  else None.

(** ** Emails

    The text of an email has three characters that need care: the line feed
    and the double quote, written by their codes, and the bullet U+2022,
    which lies outside the code units that the strings of this development
    hold; the text that stands for the bullet is left open.  The year of
    [new Date().getFullYear()] is a parameter too. *)

(** [`${n}`] for a natural number below 10^21 *)
Definition decimal (n : nat) : string :=
  DecimalString.NilEmpty.string_of_uint (Nat.to_uint n).

(** [xs.join(sep)] *)
Fixpoint join (sep : string) (xs : list string) : string :=
  match xs with
  | [] => ""
  | x :: xs' =>
      match xs' with
      | [] => x
      | _ :: _ => x +:+ sep +:+ join sep xs'
      end
  end.

Module Email.

Definition nl : string := String "010"%char EmptyString.
Definition quote : string := String "034"%char EmptyString.
Definition copyright : string := String "169"%char EmptyString.

Record Content := { subject : string; to : string; body : string }.

(** the callback of [otherMissingPolicies.map]: the policy key as a
    display name *)
Definition displayNameOf (policy : string) : string :=
  if bool_decide (policy = "privacy") then "Privacy Policy"
  else if bool_decide (policy = "terms") then "Terms and Conditions"
  else if bool_decide (policy = "shipping") then "Shipping Policy"
  else if bool_decide (policy = "returns") then "Returns Policy"
  else if bool_decide (policy = "refund") then "Refund Policy"
  else if bool_decide (policy = "cancellation") then "Cancellation Policy"
  else policy.

Section Generate.
Variable bullet : string.
Variable year : nat.

Definition legalNameSection (legalName : string) : string :=
  "1. As the company has been registered as a proprietorship, RBI guidelines require you to display your legal name on the website. Please update the website to display your registered legal name: "
    +:+ legalName +:+ nl +:+ nl
  +:+ ("   Possible locations to display your legal name:" +:+ nl)
  +:+ ("   " +:+ bullet +:+ " Website Footer (Most common)" +:+ nl)
  +:+ ("   " +:+ bullet +:+ " About Us page" +:+ nl)
  +:+ ("   " +:+ bullet +:+ " Contact Us page" +:+ nl)
  +:+ ("   " +:+ bullet +:+ " Site-Wide copyright notice (e.g., " +:+ quote +:+ copyright
         +:+ " " +:+ decimal year +:+ " " +:+ legalName +:+ ". All rights reserved."
         +:+ quote +:+ ")" +:+ nl +:+ nl).

Definition policiesSection (hasLegalNameMissing : bool) (otherMissingPolicies : list string)
    : string :=
  (if hasLegalNameMissing then "2. " else "")
  +:+ ("It is required that you add the following policies to your website for legal protection:"
         +:+ nl)
  +:+ ("   " +:+ bullet +:+ " "
         +:+ join (nl +:+ "   " +:+ bullet +:+ " ") (map displayNameOf otherMissingPolicies)
         +:+ nl +:+ nl).

Definition generateEmailContent (website legalName merchantEmail : string)
    (missingPolicies : list string) (entityType : option string) : Content :=
  let isProprietor := isProprietorship entityType in
  let hasLegalNameMissing := bool_decide ("legal name" ∈ missingPolicies) in
  let otherMissingPolicies :=
    List.filter (λ p, bool_decide (p ≠ "legal name")) missingPolicies in
  let emailBody :=
    "Dear " +:+ (if Text.isEmpty legalName then "Merchant" else legalName)
      +:+ "," +:+ nl +:+ nl in
  let emailBody := emailBody +:+
    ("Following our initial review for your PayGlocal onboarding, we need your assistance to ensure your website meets our required compliance standards."
       +:+ nl +:+ nl) in
  let emailBody := emailBody +:+
    ("Please implement the following updates on " +:+ website +:+ ":" +:+ nl +:+ nl) in
  let emailBody :=
    if hasLegalNameMissing && isProprietor
    then emailBody +:+ legalNameSection legalName else emailBody in
  let emailBody :=
    if (0 <? length otherMissingPolicies)%nat
    then emailBody +:+ policiesSection hasLegalNameMissing otherMissingPolicies
    else emailBody in
  let emailBody := emailBody +:+
    ("These updates are necessary before we can activate your account. Once completed, kindly notify us so we can verify and proceed."
       +:+ nl +:+ nl) in
  let emailBody := emailBody +:+
    ("Thank you for your prompt attention to this." +:+ nl +:+ nl) in
  let emailBody := emailBody +:+
    ("Sincerely," +:+ nl +:+ "PayGlocal Onboarding Team") in
  {| subject := "PayGlocal Onboarding: Website Updates Needed";
     to := merchantEmail;
     body := emailBody |}.

End Generate.

(** *** Saving an email *)

(** the rest of [text] after the prefix [k], when it starts with [k] *)
Fixpoint afterPrefix (k text : string) : option string :=
  match k, text with
  | EmptyString, _ => Some text
  | String a k', String b text' =>
      if bool_decide (a = b) then afterPrefix k' text' else None
  | String _ _, EmptyString => None
  end.

(** [website.replace(/^https?:\/\//, '')] *)
Definition stripScheme (website : string) : string :=
  match afterPrefix "http://" website with
  | Some rest => rest
  | None =>
      match afterPrefix "https://" website with
      | Some rest => rest
      | None => website
      end
  end.

(** [[a-z0-9]] under the flag [i] *)
Definition isAlphaNumeric (c : ascii) : bool :=
  Text.between 97 122 (Text.code c) || Text.between 65 90 (Text.code c)
  || Text.between 48 57 (Text.code c).

(** [s.replace(/[^a-z0-9]/gi, '_')] *)
Fixpoint replaceOthers (s : string) : string :=
  match s with
  | EmptyString => EmptyString
  | String c s' => String (if isAlphaNumeric c then c else "_"%char) (replaceOthers s')
  end.

Definition safeWebsiteName (website : string) : string :=
  Text.toLowerCase (replaceOthers (stripScheme website)).

(** [`email_${index + 1}_${safeWebsiteName}.txt`] *)
Definition filename (website : string) (index : nat) : string :=
  "email_" +:+ decimal (index + 1) +:+ "_" +:+ safeWebsiteName website +:+ ".txt".

Definition fullEmail (merchantEmail : string) (emailContent : Content) : string :=
  "To: " +:+ merchantEmail +:+ nl +:+ "Subject: " +:+ subject emailContent
    +:+ nl +:+ nl +:+ body emailContent.

(** [saveEmailToFile]: writes the file into the directory [emails], given
    as the map from the names of its files to their contents, and returns
    the name of the file *)
Definition saveEmailToFile (website merchantEmail : string) (emailContent : Content)
    (index : nat) (emailDir : gmap string string) : string * gmap string string :=
  (filename website index,
   <[filename website index := fullEmail merchantEmail emailContent]> emailDir).

(** a lower-case letter, a digit, the underscore or the dot *)
Definition isFileNameChar (c : ascii) : bool :=
  Text.between 97 122 (Text.code c) || Text.between 48 57 (Text.code c)
  || bool_decide (c = "_"%char) || bool_decide (c = "."%char).

Definition isDigit (c : ascii) : bool := Text.between 48 57 (Text.code c).

End Email.

(** ** More scenarios *)

Module Cases.

(** an engine that compiles no expression at all *)
Definition refusingEngine : RegExpEngine :=
  {| RegExp := unit;
     RegExp_new := λ _ _, Throw "Invalid regular expression";
     RegExp_test := λ _ _, false |}.

(** a proprietorship whose legal name is made of entity suffixes only *)
Definition suffixProprietor : Args :=
  {| website := "https://studio.example/"; merchantTypeInput := Some "services";
     entityType := Some "Sole Proprietorship"; legalNameRaw := Some "Company Limited" |}.

Definition refundEmail : Email.Content :=
  Email.generateEmailContent "*" 2024 "https://shop.example/" "" "owner@shop.example"
    ["refund"] (Some "Private Limited").

(** a row with a website and a merchant type only *)
Definition blankRow : gmap string string :=
  <["Website" := "https://studio.example/"]> (<["MerchantType" := "services"]> ∅).

(** ["John"] at the offset 0 and ["Doe"] at the offset [n] *)
Definition offsets (n : nat) : string :=
  "John " +:+ Scenario.filler (n - 6) +:+ " Doe".

(** ["ann"] inside a longer word at the head of the page, and ["lee ann"]
    as two words at its end *)
Definition insideWords : string := "annex " +:+ Scenario.filler 250 +:+ " lee ann".


End Cases.

(** * Reasoning about audits *)

(** ** Rules for triples *)

Section Triples.
Context `{Browser}.

Lemma triple_ret {A} (a : A) (P : Result.t → Prop) Q E :
  (∀ r, P r → Q a r) → triple P (ret a) Q E.
Proof. intros HQ s Hs. simpl. auto. Qed.

Lemma triple_throw {A} msg (P : Result.t → Prop) (Q : A → Result.t → Prop) E :
  (∀ r, P r → E r) → triple P (throw msg) Q E.
Proof. intros HE s Hs. simpl. auto. Qed.

Lemma triple_bind {A B} (m : M A) (k : A → M B) P Q' Q E :
  triple P m Q' E → (∀ a, triple (Q' a) (k a) Q E) → triple P (bind m k) Q E.
Proof.
  intros Hm Hk s Hs. unfold bind. specialize (Hm s Hs).
  destruct (m s) as [[a|msg] s']; [apply (Hk a s' Hm) | exact Hm].
Qed.

Lemma triple_conseq {A} (m : M A) (P P' : Result.t → Prop) Q Q' E E' :
  (∀ r, P r → P' r) → triple P' m Q' E' →
  (∀ a r, Q' a r → Q a r) → (∀ r, E' r → E r) →
  triple P m Q E.
Proof.
  intros HP Hm HQ HE s Hs. specialize (Hm s (HP _ Hs)).
  destruct (m s) as [[a|msg] s']; auto.
Qed.

Lemma triple_pre {A} (m : M A) (P P' : Result.t → Prop) Q E :
  (∀ r, P r → P' r) → triple P' m Q E → triple P m Q E.
Proof. intros HP Hm. eapply triple_conseq; eauto. Qed.

Lemma triple_gets {A} (f : Result.t → A) (P : Result.t → Prop) E :
  triple P (gets f) (λ a r, P r ∧ a = f r) E.
Proof. intros s Hs. simpl. auto. Qed.

Lemma triple_modify (f : Result.t → Result.t) (P I E : Result.t → Prop) :
  (∀ r, P r → I (f r)) → triple P (modify f) (λ _, I) E.
Proof. intros HQ s Hs. simpl. auto. Qed.

Lemma triple_call {A} (c : Completion A) (P : Result.t → Prop) (E : Result.t → Prop) :
  (∀ r msg, P r → c = Throw msg → E r) →
  triple P (call c) (λ a r, P r ∧ c = Normal a) E.
Proof. intros HE s Hs. unfold call. destruct c; eauto. Qed.

Lemma triple_withPage {A} (f : Page → Completion A * Page) nav (P E : Result.t → Prop) :
  (∀ r, P r → E r) → triple P (withPage f nav) (λ _, P) E.
Proof.
  intros HE s Hs. unfold withPage.
  destruct (f (page s)) as [[a|msg] pg]; simpl; auto.
Qed.

Lemma triple_getVisited (P : Result.t → Prop) E :
  triple P getVisited (λ _, P) E.
Proof. intros s Hs. simpl. auto. Qed.

Lemma triple_pushVisited v (P : Result.t → Prop) E :
  triple P (pushVisited v) (λ _, P) E.
Proof. intros s Hs. simpl. auto. Qed.

Lemma triple_try_catch {A} (m : M A) (h : string → M A) P Q E' E :
  triple P m Q E' → (∀ msg, triple E' (h msg) Q E) → triple P (try_catch m h) Q E.
Proof.
  intros Hm Hh s Hs. unfold try_catch. specialize (Hm s Hs).
  destruct (m s) as [[a|msg] s']; [exact Hm | apply (Hh msg s' Hm)].
Qed.

Lemma triple_forOf {A} (xs : list A) (body : A → M LoopControl) (I E : Result.t → Prop) :
  (∀ x, x ∈ xs → triple I (body x) (λ _, I) E) →
  triple I (forOf xs body) (λ _, I) E.
Proof.
  induction xs as [|x xs IH]; intros Hbody.
  - apply triple_ret. auto.
  - simpl. eapply triple_bind.
    + apply Hbody. left.
    + intros [|].
      * apply IH. intros y Hy. apply Hbody. right. exact Hy.
      * apply triple_ret. auto.
Qed.

Lemma triple_filterM {A} (f : A → M bool) (xs : list A) (I E : Result.t → Prop) :
  (∀ x, triple I (f x) (λ _, I) E) →
  triple I (filterM f xs) (λ _, I) E.
Proof.
  intros Hf. induction xs as [|x xs IH]; simpl.
  - apply triple_ret. auto.
  - eapply triple_bind; [apply Hf|]. intros b.
    eapply triple_bind; [apply IH|]. intros l. apply triple_ret. auto.
Qed.

Lemma triple_everyM {A} (f : A → M bool) (xs : list A) (I E : Result.t → Prop) :
  (∀ x, triple I (f x) (λ _, I) E) →
  triple I (everyM f xs) (λ _, I) E.
Proof.
  intros Hf. induction xs as [|x xs IH]; simpl.
  - apply triple_ret. auto.
  - eapply triple_bind; [apply Hf|]. intros [|]; [apply IH | apply triple_ret; auto].
Qed.

(** *** The primitives of [checkWebsite] *)

Lemma safeGoto_total (url : string) (s : State) :
  ∃ ok s', safeGoto url s = (Normal ok, s') ∧ result s' = result s
           ∧ visitedPages s' = visitedPages s
           ∧ navigations s' = navigations s ++ [url].
Proof.
  unfold safeGoto, try_catch, bind, withPage, ret.
  destruct (page_goto url (page s)) as [[[]|msg] pg]; simpl; eauto 6.
Qed.

Lemma triple_safeGoto url (P E : Result.t → Prop) :
  triple P (safeGoto url) (λ _, P) E.
Proof.
  intros s Hs. destruct (safeGoto_total url s) as (ok & s' & -> & Hr & _).
  rewrite Hr. exact Hs.
Qed.

Lemma triple_getPolicy policy (P E : Result.t → Prop) :
  (∀ r, P r → E r) →
  triple P (getPolicy policy) (λ e r, P r ∧ Result.policies r !! policy = Some e) E.
Proof.
  intros HE s Hs. unfold getPolicy, bind, gets.
  destruct (Result.policies (result s) !! policy) eqn:Hl; simpl; auto.
Qed.

Lemma triple_legalNameIs v (P E : Result.t → Prop) :
  triple P (legalNameIs v)
    (λ b r, P r ∧ b = bool_decide (Result.legalNamePresent r = v)) E.
Proof. intros s Hs. simpl. auto. Qed.

End Triples.

(** ** The invariants hold initially and the updates keep them *)

Section Invariants.
Context `{RegExpEngine} `{Browser}.
Variable args : Args.

Lemma initial_lookup p :
  Result.policies (initialResult args) !! p = Some (initialEntry args p).
Proof. destruct p; reflexivity. Qed.

Lemma initialEntry_ok p : EntryOk args p (initialEntry args p).
Proof.
  unfold EntryOk, initialEntry.
  destruct (isPolicyRelevant p (merchantType args)); [right|]; done.
Qed.

Lemma Inv_initial : Inv args (initialResult args).
Proof.
  split; [|split; [split|]; done]. split; simpl; try done.
  - destruct (isProprietorEntity args); split; done.
  - intros _. destruct (isProprietorEntity args); done.
  - intros p. exists (initialEntry args p). split; [apply initial_lookup | apply initialEntry_ok].
Qed.

Lemma Inv_Evaluating r : Inv args r → Evaluating args r.
Proof.
  intros (Hc & Hu & Hm). split; [done|]. split; [done|].
  intros l. rewrite Hm. intros Hl. inversion Hl.
Qed.

Lemma Core_setPolicy r p e :
  Core args r → EntryOk args p e →
  Core args (Result.setPolicies (<[p := e]> (Result.policies r)) r).
Proof.
  intros [] He. split; simpl; try done.
  intros q. destruct (decide (p = q)) as [->|Hne].
  - exists e. by rewrite lookup_insert_eq.
  - rewrite lookup_insert_ne; done.
Qed.

Lemma found_ok p u t :
  isPolicyRelevant p (merchantType args) = true →
  EntryOk args p {| present := true; url := u; pageText := t; status := FOUND |}.
Proof. intros Hr. unfold EntryOk. rewrite Hr. left. done. Qed.

Lemma Inv_setPolicy r p e :
  Inv args r → EntryOk args p e → Inv args (Result.setPolicies (<[p := e]> (Result.policies r)) r).
Proof.
  intros (Hc & [] & Hm) He. split; [by apply Core_setPolicy|]. split; [split|]; done.
Qed.

Lemma Core_setLegalTrue r u :
  Core args r → isProprietorEntity args = true → legalName args ≠ "" →
  Core args (Result.setLegalName LegalTrue u r).
Proof.
  intros [] Hp Hn. split; simpl; try done. rewrite Hp. split; done.
Qed.

Lemma Core_setLegalFalse r u :
  Core args r → isProprietorEntity args = true →
  Core args (Result.setLegalName LegalFalse u r).
Proof.
  intros [] Hp. split; simpl; try done. rewrite Hp. split; done.
Qed.

Lemma Inv_setLegalTrue r u :
  Inv args r → isProprietorEntity args = true → legalName args ≠ "" →
  Inv args (Result.setLegalName LegalTrue u r).
Proof.
  intros (Hc & [] & Hm) Hp Hn. split; [by apply Core_setLegalTrue|]. split; [split|]; done.
Qed.

Lemma Inv_setLegalFalse r u :
  Inv args r → isProprietorEntity args = true →
  Inv args (Result.setLegalName LegalFalse u r).
Proof.
  intros (Hc & [] & Hm) Hp. split; [by apply Core_setLegalFalse|]. split; [split|]; done.
Qed.

Lemma isEmpty_false s : Text.isEmpty s = false → s ≠ "".
Proof. destruct s; done. Qed.

End Invariants.

(** ** Tactics for triples *)

Ltac weaken :=
  cbv beta; intros; simpl;
  repeat match goal with
         | H : _ ∧ _ |- _ => destruct H
         end;
  subst; try done; eauto.

Ltac tprim :=
  lazymatch goal with
  | |- triple _ (safeGoto _) _ _ => apply triple_safeGoto
  | |- triple _ textContent _ _ => apply triple_withPage; weaken
  | |- triple _ anchors _ _ => apply triple_withPage; weaken
  | |- triple _ (legalNameIs _) _ _ => apply triple_legalNameIs
  | |- triple _ (getPolicy _) _ _ => apply triple_getPolicy; weaken
  | |- triple _ (call _) _ _ => apply triple_call; weaken
  | |- triple _ getVisited _ _ => apply triple_getVisited
  | |- triple _ (pushVisited _) _ _ => apply triple_pushVisited
  | |- triple _ (gets _) _ _ => apply triple_gets
  | _ => idtac
  end.

(** [tbind x]: split a sequence, the value of its head being [x]; a head
    that is a primitive is discharged at once. *)
Tactic Notation "tbind" ident(x) :=
  cbv beta; eapply triple_bind; [ tprim | intros x; cbv beta ].

Ltac tret := cbv beta; apply triple_ret; weaken.

Ltac tuse lem := eapply triple_pre; [ | apply lem ]; [ weaken | .. ].

(** ** The four passes keep every invariant that their updates keep

    The passes update the result in three ways only: a relevant policy is
    marked found, the legal name is marked present after the matcher said
    so for a proprietorship with a name, and it is marked absent again by
    the verification step. *)

Section Passes.
Context `{RegExpEngine} `{Browser}.
Variable args : Args.
Variable I : Result.t → Prop.

Hypothesis keep_found : ∀ r policy u t,
  I r → isPolicyRelevant policy (merchantType args) = true →
  I (Result.setPolicies
       (<[policy := {| present := true; url := u; pageText := t; status := FOUND |}]>
          (Result.policies r)) r).

Hypothesis keep_legalTrue : ∀ r u text,
  I r → isProprietorEntity args = true → legalName args ≠ "" →
  containsLegalName text (legalName args) = Normal true →
  I (Result.setLegalName LegalTrue u r).

Hypothesis keep_legalFalse : ∀ r text,
  I r → isProprietorEntity args = true →
  containsLegalName text (legalName args) = Normal false →
  I (Result.setLegalName LegalFalse None r).

Lemma setLegalTrue_keeps (P : Result.t → Prop) u text :
  isProprietorEntity args = true → legalName args ≠ "" →
  (∀ r, P r → I r ∧ containsLegalName text (legalName args) = Normal true) →
  triple P (modify (Result.setLegalName LegalTrue u)) (λ _, I) I.
Proof.
  intros Hp Hn HP. apply (triple_modify _ _ I). intros r Hr.
  destruct (HP r Hr). eapply keep_legalTrue; eauto.
Qed.

Lemma setFound_keeps (P : Result.t → Prop) policy u t :
  isPolicyRelevant policy (merchantType args) = true →
  (∀ r, P r → I r) →
  triple P (setPolicy policy {| present := true; url := u; pageText := t; status := FOUND |})
    (λ _, I) I.
Proof.
  intros Hrel HP. apply (triple_modify _ _ I). intros r Hr.
  apply keep_found; auto.
Qed.

Lemma presentSources_keeps (P E : Result.t → Prop) :
  triple P (presentSources args) (λ _, P) E.
Proof. intros s Hs. simpl. exact Hs. Qed.

Lemma noteLegalName_keeps t u :
  triple I (noteLegalName args t u) (λ _, I) I.
Proof.
  unfold noteLegalName. tbind isFalse.
  destruct (isProprietorEntity args) eqn:Hp in |- *; simpl; [|tret].
  destruct isFalse; simpl; [|tret].
  destruct (Text.isEmpty (legalName args)) eqn:Hn in |- *; simpl; [tret|].
  tbind found. destruct found; [|tret].
  apply (setLegalTrue_keeps _ _ t); auto using isEmpty_false. weaken.
Qed.

Lemma primaryLink_keeps policy link :
  isPolicyRelevant policy (merchantType args) = true →
  triple I (primaryLink args policy link) (λ _, I) I.
Proof.
  intros Hrel. unfold primaryLink.
  destruct (_ || _); [tret|]. destruct (negb _); [tret|].
  tbind ok. destruct ok; simpl; [|tret].
  tbind body. tbind u.
  destruct (containsAny _ _); [|tret].
  tbind u1. { apply setFound_keeps; auto. }
  tbind u2. { apply noteLegalName_keeps. }
  tbind back. tret.
Qed.

Lemma primaryPass_keeps links :
  triple I (primaryPass args links) (λ _, I) I.
Proof.
  unfold primaryPass. apply triple_forOf. intros policy _.
  unfold primaryPolicy.
  destruct (isPolicyRelevant policy (merchantType args)) eqn:Hrel in |- *; simpl; [|tret].
  tbind u. { apply triple_forOf. intros link _. by apply primaryLink_keeps. }
  tret.
Qed.

Lemma resolveFromSource_keeps policy source :
  isPolicyRelevant policy (merchantType args) = true →
  triple I (resolveFromSource args policy source) (λ _, I) I.
Proof.
  intros Hrel. unfold resolveFromSource.
  destruct (containsAny _ _); [|tret].
  tbind u1. { apply setFound_keeps; auto. }
  tbind u2. { apply noteLegalName_keeps. }
  tret.
Qed.

Lemma resolvePolicy_keeps sources policy :
  triple I (resolvePolicy args sources policy) (λ _, I) I.
Proof.
  unfold resolvePolicy.
  destruct (isPolicyRelevant policy (merchantType args)) eqn:Hrel in |- *; simpl; [|tret].
  tbind e. destruct (present e); [tret|].
  tbind u.
  { tuse (triple_forOf sources (resolveFromSource args policy) I I).
    intros source _. by apply resolveFromSource_keeps. }
  tret.
Qed.

Lemma groupResolution_keeps :
  triple I (groupResolution args) (λ _, I) I.
Proof.
  unfold groupResolution. apply triple_forOf. intros i _.
  unfold groupRound. tbind sources. { apply presentSources_keeps. }
  destruct (_ =? _)%nat; [tret|].
  tbind u. { apply triple_forOf. intros policy _. apply resolvePolicy_keeps. }
  tret.
Qed.

Lemma verification_keeps :
  triple I (verification args) (λ _, I) I.
Proof.
  unfold verification. tbind isTrue. tbind legalNameURL.
  destruct (isProprietorEntity args) eqn:Hp in |- *; simpl; [|tret].
  destruct (_ && _); [|tret].
  tbind verifyOk. destruct verifyOk; [|tret].
  tbind body. tbind found. destruct found; simpl; [tret|].
  apply (triple_modify _ _ I). weaken; eapply keep_legalFalse; eauto.
Qed.

Lemma searchVisited_keeps pageInfo :
  isProprietorEntity args = true → legalName args ≠ "" →
  triple I (searchVisited args pageInfo) (λ _, I) I.
Proof.
  intros Hp Hn. unfold searchVisited. tbind found. destruct found; [|tret].
  tbind u. { apply (setLegalTrue_keeps _ _ (visitedText pageInfo)); weaken. } tret.
Qed.

Lemma searchHomepage_keeps :
  isProprietorEntity args = true → legalName args ≠ "" →
  triple I (searchHomepage args) (λ _, I) I.
Proof.
  intros Hp Hn. unfold searchHomepage. tbind ok. tbind body. tbind found.
  destruct found; [|tret]. apply (setLegalTrue_keeps _ _ (normalize body)); weaken.
Qed.

Lemma searchLink_keeps link :
  isProprietorEntity args = true → legalName args ≠ "" →
  triple I (searchLink args link) (λ _, I) I.
Proof.
  intros Hp Hn. unfold searchLink. tbind ok. destruct ok; simpl; [|tret].
  tbind body. tbind found. destruct found.
  - tbind u. { apply (setLegalTrue_keeps _ _ (normalize body)); weaken. } tret.
  - tbind back. tbind isTrue. destruct isTrue; tret.
Qed.

Lemma searchPageType_keeps links pageType :
  isProprietorEntity args = true → legalName args ≠ "" →
  triple I (searchPageType args links pageType) (λ _, I) I.
Proof.
  intros Hp Hn. unfold searchPageType.
  tbind u. { apply triple_forOf. intros link _. by apply searchLink_keeps. }
  tbind isTrue. destruct isTrue; tret.
Qed.

Lemma comprehensiveSearch_keeps links :
  triple I (comprehensiveSearch args links) (λ _, I) I.
Proof.
  unfold comprehensiveSearch. tbind isFalse.
  destruct (isProprietorEntity args) eqn:Hp in |- *; simpl; [|tret].
  destruct isFalse; simpl; [|tret].
  destruct (Text.isEmpty (legalName args)) eqn:Hn in |- *; simpl; [tret|].
  apply isEmpty_false in Hn.
  tbind visited. tbind u.
  { tuse (triple_forOf visited (searchVisited args) I I).
    intros v _. by apply searchVisited_keeps. }
  tbind isFalse1. tbind u1.
  { destruct isFalse1; [tuse searchHomepage_keeps; auto | tret]. }
  tbind isFalse2. destruct isFalse2; [|tret].
  tuse (triple_forOf otherPages (searchPageType args links) I I).
  intros pageType _. by apply searchPageType_keeps.
Qed.

Lemma passes_keeps links :
  triple I (passes args links) (λ _, I) I.
Proof.
  unfold passes.
  tbind u1. { apply primaryPass_keeps. }
  tbind u2. { apply groupResolution_keeps. }
  tbind u3. { apply verification_keeps. }
  apply comprehensiveSearch_keeps.
Qed.

End Passes.

Section PassesInv.
Context `{RegExpEngine} `{Browser}.
Variable args : Args.

Lemma passes_Inv links :
  triple (Inv args) (passes args links) (λ _, Inv args) (Inv args).
Proof.
  apply passes_keeps.
  - intros r policy u t Hr Hrel. apply Inv_setPolicy; [done | by apply found_ok].
  - intros r u text Hr Hp Hn _. by apply Inv_setLegalTrue.
  - intros r text Hr Hp _. by apply Inv_setLegalFalse.
Qed.

End PassesInv.

(** ** The final evaluation *)

Section FinalEvaluation.
Context `{RegExpEngine} `{Browser}.
Variable args : Args.

Lemma Core_keys r p : Core args r → is_Some (Result.policies r !! p).
Proof. intros [_ _ _ _ He]. destruct (He p) as (e & -> & _). eauto. Qed.

Lemma presentOf_update r p e e' q :
  Result.policies r !! p = Some e → present e' = present e →
  presentOf (Result.setPolicies (<[p := e']> (Result.policies r)) r) q = presentOf r q.
Proof.
  intros Hl Hp. unfold presentOf. simpl.
  destruct (decide (p = q)) as [->|Hne].
  - by rewrite lookup_insert_eq, Hl.
  - by rewrite lookup_insert_ne.
Qed.

Lemma Evaluating_update r p e e' :
  Evaluating args r → Result.policies r !! p = Some e →
  present e' = present e → EntryOk args p e' →
  Evaluating args (Result.setPolicies (<[p := e']> (Result.policies r)) r).
Proof.
  intros (Hc & [] & Hm) Hl Hp He. split; [by apply Core_setPolicy|].
  split; [split; done|].
  intros l Hin. destruct (Hm l Hin) as [(q & -> & Hq & Hpq)|Hlegal]; [left|right; done].
  exists q. split; [done|]. split; [done|]. by rewrite (presentOf_update r p e e' q).
Qed.

Lemma Evaluating_push r l :
  Evaluating args r → Justified args r l →
  Evaluating args (Result.setMissingPolicies (Result.missingPolicies r ++ [l]) r).
Proof.
  intros (Hc & [] & Hm) Hj. split; [destruct Hc; split; done|].
  split; [split; done|].
  intros l' Hin. simpl in Hin. apply elem_of_app in Hin as [Hin|Hin].
  - apply (Hm l' Hin).
  - apply list_elem_of_singleton in Hin as ->. exact Hj.
Qed.

Lemma triple_getPolicy_total policy (P E : Result.t → Prop) :
  (∀ r, P r → is_Some (Result.policies r !! policy)) →
  triple P (getPolicy policy) (λ e r, P r ∧ Result.policies r !! policy = Some e) E.
Proof.
  intros HP s Hs. unfold getPolicy, bind, gets.
  destruct (HP _ Hs) as [e He]. rewrite He. simpl. auto.
Qed.

Lemma markMissing_ok p e :
  isPolicyRelevant p (merchantType args) = true → present e = false →
  EntryOk args p (markMissing e).
Proof. intros Hr Hp. unfold EntryOk. rewrite Hr. right. done. Qed.

Lemma deletePageText_ok p e : EntryOk args p e → EntryOk args p (deletePageText e).
Proof.
  unfold EntryOk. destruct (isPolicyRelevant p (merchantType args)); [done|].
  intros ->. done.
Qed.

Lemma evaluatePolicy_Evaluating policy :
  triple (Evaluating args) (evaluatePolicy args policy)
    (λ _, Evaluating args) (λ _, False).
Proof.
  unfold evaluatePolicy.
  destruct (isPolicyRelevant policy (merchantType args)) eqn:Hrel; simpl; [|tret].
  eapply triple_bind.
  { apply triple_getPolicy_total. intros r (Hc & _). by apply Core_keys. }
  intros e. cbv beta.
  eapply triple_bind with (Q' := λ _, Evaluating args).
  { destruct (present e) eqn:Hpe; simpl; [tret|].
    eapply triple_bind with
      (Q' := λ _ r, Evaluating args r ∧ Result.policies r !! policy = Some e).
    { apply (triple_modify _ _
        (λ r, Evaluating args r ∧ Result.policies r !! policy = Some e)).
      intros r (Hev & Hl). split; [|done]. apply Evaluating_push; [done|].
      left. exists policy. unfold presentOf. by rewrite Hl. }
    intros _. eapply triple_bind.
    { apply triple_getPolicy_total. intros r ((Hc & _) & _). by apply Core_keys. }
    intros e'. apply (triple_modify _ _ (Evaluating args)).
    intros r ((Hev & Hl) & Hl'). assert (e' = e) as -> by congruence.
    apply (Evaluating_update r policy e); [done..|]. by apply markMissing_ok. }
  intros _. eapply triple_bind.
  { apply triple_getPolicy_total. intros r (Hc & _). by apply Core_keys. }
  intros e1. cbv beta.
  eapply triple_bind with (Q' := λ _, Evaluating args); [|intros; tret].
  destruct (truthy (pageText e1)); [|tret].
  eapply triple_bind.
  { apply triple_getPolicy_total. intros r ((Hc & _) & _). by apply Core_keys. }
  intros e2. apply (triple_modify _ _ (Evaluating args)).
  intros r ((Hev & Hl) & Hl').
  apply (Evaluating_update r policy e2); [done..|].
  apply deletePageText_ok. destruct Hev as ([_ _ _ _ He] & _).
  destruct (He policy) as (e3 & He3 & Hok). congruence.
Qed.

Lemma isPresent_run policy (P E : Result.t → Prop) :
  (∀ r, P r → is_Some (Result.policies r !! policy)) →
  triple P (isPresent policy) (λ b r, P r ∧ b = presentOf r policy) E.
Proof.
  intros HP s Hs. unfold isPresent, getPolicy, bind, gets, presentOf.
  destruct (HP _ Hs) as [e He]. rewrite He. simpl. rewrite He. auto.
Qed.

Lemma filterM_isPresent_run (xs : list Policy) (P E : Result.t → Prop) :
  (∀ r p, P r → is_Some (Result.policies r !! p)) →
  triple P (filterM isPresent xs) (λ l r, P r ∧ l = List.filter (presentOf r) xs) E.
Proof.
  revert P. induction xs as [|x xs IH]; intros P HP; simpl.
  - apply triple_ret. auto.
  - eapply triple_bind. { apply isPresent_run. intros r Hr. by apply HP. }
    intros b. cbv beta. eapply triple_bind.
    { apply IH. intros r p (Hr & _). by apply HP. }
    intros l. apply triple_ret. intros r ((Hr & ->) & ->). split; [done|].
    destruct (presentOf r x); done.
Qed.

Lemma everyM_present_run (xs : list Policy) (P E : Result.t → Prop) :
  (∀ r p, P r → is_Some (Result.policies r !! p)) →
  triple P
    (everyM (λ policy, if negb (isPolicyRelevant policy (merchantType args))
                       then ret true else isPresent policy) xs)
    (λ b r, P r ∧ b = allPresent args r xs) E.
Proof.
  revert P. induction xs as [|x xs IH]; intros P HP; simpl.
  - apply triple_ret. auto.
  - eapply triple_bind with
      (Q' := λ b r, P r ∧ b = negb (isPolicyRelevant x (merchantType args)) || presentOf r x).
    { destruct (isPolicyRelevant x (merchantType args)); simpl.
      - apply isPresent_run. intros r Hr. by apply HP.
      - apply triple_ret. auto. }
    intros [|]; cbv beta.
    + eapply triple_conseq; [| apply (IH (λ r, P r ∧
          true = negb (isPolicyRelevant x (merchantType args)) || presentOf r x)) | |].
      * done.
      * intros r p (Hr & _). by apply HP.
      * intros b r ((Hr & Hx) & ->). split; [done|]. by rewrite <- Hx.
      * done.
    + apply triple_ret. intros r (Hr & Hb). split; [done|]. by rewrite <- Hb.
Qed.

End FinalEvaluation.

(** ** The result of an audit *)

Section Verdict.
Context `{RegExpEngine} `{Browser}.
Variable args : Args.

Lemma finalEvaluation_Evaluated :
  triple (Inv args) (finalEvaluation args) (λ _, Evaluated args) (λ _, False).
Proof.
  unfold finalEvaluation.
  tbind u.
  { eapply triple_pre; [apply Inv_Evaluating|].
    apply triple_forOf. intros policy _. apply evaluatePolicy_Evaluating. }
  tbind isFalse.
  eapply triple_bind with (Q' := λ _, Evaluating args).
  { destruct (isProprietorEntity args) eqn:Hp; simpl; [|tret].
    destruct isFalse eqn:Hf; simpl; [|tret].
    destruct (Text.isEmpty (legalName args)) eqn:Hn; simpl; [tret|].
    apply (triple_modify _ _ (Evaluating args)). intros r (Hev & Hb).
    apply Evaluating_push; [done|]. right.
    symmetry in Hb. apply bool_decide_eq_true in Hb. auto using isEmpty_false. }
  intros _.
  eapply triple_bind.
  { apply filterM_isPresent_run. intros r p (Hc & _). by apply (Core_keys args). }
  intros found. cbv beta.
  eapply triple_bind with
    (Q' := λ _ r, Core args r ∧ MissingOk args r
                  ∧ Result.complianceStatus r = FAIL
                  ∧ Result.allRelevantPoliciesMissing r = (length (foundRelevant args r) =? 0)%nat).
  { apply (triple_modify _ _
      (λ r, Core args r ∧ MissingOk args r ∧ Result.complianceStatus r = FAIL
            ∧ Result.allRelevantPoliciesMissing r = (length (foundRelevant args r) =? 0)%nat)).
    intros r ((Hc & [] & Hm) & ->). split; [destruct Hc; split; done|]. done. }
  intros _.
  eapply triple_bind.
  { apply everyM_present_run. intros r p (Hc & _). by apply (Core_keys args). }
  intros allRelevantPoliciesPresent. tbind isTrue.
  destruct (allRelevantPoliciesPresent && _) eqn:Hv.
  - apply (triple_modify _ _ (Evaluated args)).
    intros r (((Hc & Hm & Hcs & Ha) & ->) & ->).
    split; [destruct Hc; split; done|exact Hm|exact Ha|].
    change (PASS = if allPresent args r (ORDER args) && legalNameOk args r then PASS else FAIL).
    unfold legalNameOk. by rewrite Hv.
  - apply triple_ret. intros r (((Hc & Hm & Hcs & Ha) & ->) & ->).
    split; [done..|]. unfold legalNameOk. by rewrite Hv.
Qed.

Lemma audit_outcome :
  triple (λ r, r = initialResult args) (audit args)
    (λ _ r, r = homepageFailure args ∨ Evaluated args r) (Inv args).
Proof.
  unfold audit. tbind ok. destruct ok; simpl.
  - tbind rawLinks. { apply Inv_initial. }
    tbind u. { eapply triple_pre; [|apply passes_Inv]. intros r ->. apply Inv_initial. }
    eapply triple_conseq; [| apply finalEvaluation_Evaluated | |]; [done|auto|done].
  - apply (triple_modify _ _ (λ r, r = homepageFailure args ∨ Evaluated args r)).
    intros r ->. by left.
Qed.

(** [checkWebsite] always returns; its result is of one of three kinds. *)
Lemma checkWebsite_cases (pg : Page) :
  (checkWebsiteRun args pg).1 = Normal tt
  ∧ (checkWebsite args pg = homepageFailure args
     ∨ (∃ msg r, Inv args r ∧ checkWebsite args pg = Result.setError (Some msg) r)
     ∨ Evaluated args (checkWebsite args pg)).
Proof.
  assert (triple (λ r, r = initialResult args)
            (try_catch (audit args) (λ msg, modify (Result.setError (Some msg))))
            (λ _ r, r = homepageFailure args
                    ∨ (∃ msg r0, Inv args r0 ∧ r = Result.setError (Some msg) r0)
                    ∨ Evaluated args r) (λ _, False)) as Ht.
  { eapply triple_try_catch.
    - eapply triple_conseq; [| apply audit_outcome | |]; [done| |done].
      intros _ r [?|?]; auto.
    - intros msg. apply (triple_modify _ _ (λ r, _ ∨ _ ∨ _)).
      intros r Hr. right. left. eauto. }
  specialize (Ht (initialState args pg) eq_refl).
  unfold checkWebsite, checkWebsiteRun.
  destruct (try_catch _ _ _) as [[[]|msg] s']; simpl; [done|done].
Qed.

End Verdict.

(** ** The catalogue *)

Lemma relevant_in_ORDER (args : Args) (p : Policy) :
  isPolicyRelevant p (merchantType args) = true ↔ In p (ORDER args).
Proof.
  unfold ORDER. destruct (merchantType args), p; vm_compute; intuition congruence.
Qed.

Lemma policyKey_inj (p q : Policy) : policyKey p = policyKey q → p = q.
Proof. destruct p, q; simpl; congruence. Qed.

Lemma policyKey_not_legal_name (p : Policy) : policyKey p ≠ "legal name".
Proof. destruct p; discriminate. Qed.

(** ** Reading the verdict *)

Section Verdicts.
Context `{RegExpEngine} `{Browser}.
Variable args : Args.

Lemma presentOf_true r p :
  presentOf r p = true ↔ ∃ e, Result.policies r !! p = Some e ∧ present e = true.
Proof.
  unfold presentOf. destruct (Result.policies r !! p) as [e|]; split.
  - eauto.
  - intros (e' & [= <-] & He). done.
  - done.
  - intros (e' & [=] & _).
Qed.

Lemma allPresent_spec r :
  allPresent args r (ORDER args) = true
  ↔ ∀ p, isPolicyRelevant p (merchantType args) = true → presentOf r p = true.
Proof.
  unfold allPresent. rewrite forallb_forall. split.
  - intros Hall p Hrel. specialize (Hall p (proj1 (relevant_in_ORDER args p) Hrel)).
    by rewrite Hrel in Hall.
  - intros Hall p _. destruct (isPolicyRelevant p (merchantType args)) eqn:Hrel; [|done].
    simpl. auto.
Qed.

Lemma foundRelevant_spec r :
  (length (foundRelevant args r) =? 0)%nat = true
  ↔ ∀ p, isPolicyRelevant p (merchantType args) = true → presentOf r p = false.
Proof.
  unfold foundRelevant. rewrite Nat.eqb_eq, length_zero_iff_nil. split.
  - intros Hnil p Hrel. destruct (presentOf r p) eqn:Hp; [|done].
    assert (In p []) as []. rewrite <- Hnil.
    apply filter_In. split; [|done]. apply filter_In.
    split; [by apply relevant_in_ORDER | done].
  - intros Hnone. destruct (List.filter _ _) as [|p l] eqn:Hf; [done|].
    assert (In p (p :: l)) as Hin by (by left). rewrite <- Hf in Hin.
    apply filter_In in Hin as [Hin Hp]. apply filter_In in Hin as [_ Hrel].
    rewrite (Hnone p Hrel) in Hp. done.
Qed.

Lemma legalNameOk_spec r :
  Core args r →
  legalNameOk args r = true
  ↔ Result.isProprietorship r = false ∨ Result.legalNamePresent r = LegalTrue.
Proof.
  intros [_ Hp _ _ _]. unfold legalNameOk. rewrite Hp.
  rewrite orb_true_iff, negb_true_iff, bool_decide_eq_true. done.
Qed.

Lemma Evaluated_missing_nil r :
  Evaluated args r → Result.complianceStatus r = PASS → Result.missingPolicies r = [].
Proof.
  intros [Hc Hm _ Hv] Hpass. rewrite Hv in Hpass.
  destruct (allPresent args r (ORDER args)) eqn:Hall; [|done].
  destruct (legalNameOk args r) eqn:Hok; [|done].
  destruct (Result.missingPolicies r) as [|l ls] eqn:Hl; [done|].
  destruct (Hm l) as [(p & _ & Hrel & Hp)|(_ & Hprop & Hlegal & _)].
  - rewrite Hl. left.
  - rewrite (proj1 (allPresent_spec r) Hall p Hrel) in Hp. done.
  - unfold legalNameOk in Hok. rewrite Hprop, Hlegal in Hok. done.
Qed.

End Verdicts.

Lemma pass_iff `{RegExpEngine} `{Browser} (args : Args) (pg : Page) :
  Evaluated args (checkWebsite args pg) →
  Result.complianceStatus (checkWebsite args pg) = PASS
  ↔ (∀ p, isPolicyRelevant p (merchantType args) = true →
          ∃ e, Result.policies (checkWebsite args pg) !! p = Some e ∧ present e = true)
    ∧ (Result.isProprietorship (checkWebsite args pg) = false
       ∨ Result.legalNamePresent (checkWebsite args pg) = LegalTrue).
Proof.
  intros Hev. rewrite (evaluated_compliance _ _ Hev).
  rewrite <- (legalNameOk_spec args _ (evaluated_core _ _ Hev)).
  setoid_rewrite <- presentOf_true. rewrite <- (allPresent_spec args).
  destruct (allPresent _ _ _), (legalNameOk _ _); simpl; intuition congruence.
Qed.

(** C2: without a whole-audit error, the verdict is PASS exactly when every
    relevant policy is present and the merchant is not a proprietorship or
    its legal name is present; it is FAIL otherwise; and a PASS result has
    no missing item. *)
Theorem C2_compliance_verdict `{RegExpEngine} `{Browser} (args : Args) (pg : Page) :
  Result.error (checkWebsite args pg) = None →
  (Result.complianceStatus (checkWebsite args pg) = PASS
   ↔ (∀ p, isPolicyRelevant p (merchantType args) = true →
           ∃ e, Result.policies (checkWebsite args pg) !! p = Some e ∧ present e = true)
     ∧ (Result.isProprietorship (checkWebsite args pg) = false
        ∨ Result.legalNamePresent (checkWebsite args pg) = LegalTrue))
  ∧ (Result.complianceStatus (checkWebsite args pg) ≠ PASS →
     Result.complianceStatus (checkWebsite args pg) = FAIL)
  ∧ (Result.complianceStatus (checkWebsite args pg) = PASS →
     Result.missingPolicies (checkWebsite args pg) = []).
Proof.
  intros Herr.
  destruct (checkWebsite_cases args pg) as [_ [Hr|[(msg & r0 & _ & Hr)|Hev]]].
  - rewrite Hr in Herr. done.
  - rewrite Hr in Herr. done.
  - split; [|split].
    + by apply pass_iff.
    + destruct (Result.complianceStatus _); done.
    + by apply (Evaluated_missing_nil args).
Qed.

Section Outcomes.
Context `{RegExpEngine} `{Browser}.
Variable args : Args.

Lemma presentOf_false r p :
  Core args r →
  presentOf r p = false ↔ ∃ e, Result.policies r !! p = Some e ∧ present e = false.
Proof.
  intros Hc. destruct (Core_keys args r p Hc) as [e He].
  unfold presentOf. rewrite He. split; [eauto|]. intros (e' & [= <-] & Hp). done.
Qed.

Lemma homepage_failure (pg : Page) msg :
  (page_goto (website args) pg).1 = Throw msg →
  checkWebsite args pg = homepageFailure args.
Proof.
  intros Hgo. unfold checkWebsite, checkWebsiteRun, try_catch, audit, bind, safeGoto,
    try_catch, bind, withPage. simpl.
  destruct (page_goto (website args) pg) as [[[]|msg'] pg']; simpl in *; done.
Qed.

End Outcomes.

(** C5: when the audit gets through its final evaluation,
    [allRelevantPoliciesMissing] is true exactly when no relevant policy
    ended present, whatever became of the legal name, and the report says
    YES for manual checking exactly when the flag is true. *)
Theorem C5_all_relevant_missing `{RegExpEngine} `{Browser} (args : Args) (pg : Page) :
  Result.error (checkWebsite args pg) = None →
  (Result.allRelevantPoliciesMissing (checkWebsite args pg) = true
   ↔ ∀ p, isPolicyRelevant p (merchantType args) = true →
          ∃ e, Result.policies (checkWebsite args pg) !! p = Some e ∧ present e = false)
  ∧ (ManualCheckingRequired (checkWebsite args pg) = "YES"
     ↔ Result.allRelevantPoliciesMissing (checkWebsite args pg) = true).
Proof.
  intros Herr.
  destruct (checkWebsite_cases args pg) as [_ [Hr|[(msg & r0 & _ & Hr)|Hev]]].
  - rewrite Hr in Herr. done.
  - rewrite Hr in Herr. done.
  - split.
    + rewrite (evaluated_allMissing _ _ Hev), foundRelevant_spec.
      setoid_rewrite (presentOf_false args _ _ (evaluated_core _ _ Hev)). done.
    + unfold ManualCheckingRequired.
      destruct (Result.allRelevantPoliciesMissing _); done.
Qed.

(** C8: a proprietorship whose supplied legal name is empty always fails,
    the item "legal name" is never among its missing items, and when all
    its relevant policies are found its list of missing items is empty. *)
Theorem C8_empty_legal_name `{RegExpEngine} `{Browser} (args : Args) (pg : Page) :
  isProprietorship (entityType args) = true →
  default "" (legalNameRaw args) = "" →
  Result.complianceStatus (checkWebsite args pg) = FAIL
  ∧ ("legal name" ∉ Result.missingPolicies (checkWebsite args pg))
  ∧ ((∀ p, isPolicyRelevant p (merchantType args) = true →
           ∃ e, Result.policies (checkWebsite args pg) !! p = Some e ∧ present e = true) →
     Result.missingPolicies (checkWebsite args pg) = []).
Proof.
  intros Hprop Hname.
  destruct (checkWebsite_cases args pg) as [_ [Hr|[(msg & r0 & Hinv & Hr)|Hev]]].
  - rewrite Hr. split; [done|]. split; [|done]. simpl. apply not_elem_of_nil.
  - rewrite Hr. destruct Hinv as (_ & [Hc _] & Hm). simpl. rewrite Hm.
    split; [done|]. split; [apply not_elem_of_nil|done].
  - destruct Hev as [Hc Hm Ha Hv].
    assert (legalNameOk args (checkWebsite args pg) = false) as Hok.
    { unfold legalNameOk, isProprietorEntity. rewrite Hprop. simpl.
      apply bool_decide_eq_false. by apply (core_no_name _ _ Hc). }
    split; [|split].
    + rewrite Hv, Hok, andb_false_r. done.
    + intros Hin. destruct (Hm _ Hin) as [(p & Hp & _)|(_ & _ & _ & Hn)].
      * symmetry in Hp. by apply policyKey_not_legal_name in Hp.
      * by apply Hn.
    + intros Hall. destruct (Result.missingPolicies _) as [|l ls] eqn:Hl; [done|].
      destruct (Hm l) as [(p & _ & Hrel & Hp)|(_ & _ & _ & Hn)].
      * rewrite Hl. left.
      * apply (presentOf_true _ p) in Hall; [|done]. congruence.
      * by destruct Hn.
Qed.

(** C10: when the home page cannot be loaded, the result carries the error
    "Failed to load website" and the verdict FAIL, every relevant policy has
    status MISSING, and yet the list of missing items is empty, the flag
    [allRelevantPoliciesMissing] is false and the report says NO for manual
    checking. *)
Theorem C10_homepage_not_loaded `{RegExpEngine} `{Browser} (args : Args) (pg : Page)
    (msg : string) :
  (page_goto (website args) pg).1 = Throw msg →
  Result.error (checkWebsite args pg) = Some "Failed to load website"
  ∧ Result.complianceStatus (checkWebsite args pg) = FAIL
  ∧ (∀ p, isPolicyRelevant p (merchantType args) = true →
          ∃ e, Result.policies (checkWebsite args pg) !! p = Some e ∧ status e = MISSING)
  ∧ Result.missingPolicies (checkWebsite args pg) = []
  ∧ Result.allRelevantPoliciesMissing (checkWebsite args pg) = false
  ∧ ManualCheckingRequired (checkWebsite args pg) = "NO".
Proof.
  intros Hgo. rewrite (homepage_failure args pg msg Hgo).
  repeat split. intros p Hrel. exists (initialEntry args p).
  split; [apply initial_lookup|]. unfold initialEntry. by rewrite Hrel.
Qed.

(** ** Relevance of the policy outcomes *)

Section Relevance.
Context `{RegExpEngine} `{Browser}.
Variable args : Args.

Lemma Relevance_initial : Relevance args (initialResult args).
Proof.
  intros p. split; [|intros _; apply not_elem_of_nil].
  exists (initialEntry args p). split; [apply initial_lookup|].
  unfold initialEntry. destruct (isPolicyRelevant p (merchantType args)); done.
Qed.

Lemma Relevance_update r p e :
  Relevance args r → isPolicyRelevant p (merchantType args) = true →
  status e ≠ NOT_RELEVANT →
  Relevance args (Result.setPolicies (<[p := e]> (Result.policies r)) r).
Proof.
  intros Hr Hrel He q. destruct (Hr q) as [(e' & Hl & Hs) Hm]. split; [|exact Hm].
  simpl. destruct (decide (p = q)) as [<-|Hne].
  - exists e. rewrite lookup_insert_eq. split; [done|]. rewrite Hrel. split; done.
  - exists e'. by rewrite lookup_insert_ne.
Qed.

Lemma Relevance_push r l :
  Relevance args r →
  (∀ p, isPolicyRelevant p (merchantType args) = false → l ≠ policyKey p) →
  Relevance args (Result.setMissingPolicies (Result.missingPolicies r ++ [l]) r).
Proof.
  intros Hr Hl p. destruct (Hr p) as [He Hm]. split; [exact He|].
  intros Hrel. simpl. rewrite elem_of_app, list_elem_of_singleton.
  intros [Hin|Heq]; [by apply Hm | by apply (Hl p Hrel)].
Qed.

Lemma Relevance_keys r p : Relevance args r → is_Some (Result.policies r !! p).
Proof. intros Hr. destruct (Hr p) as [(e & -> & _) _]. eauto. Qed.

Lemma Relevance_status r p e :
  Relevance args r → isPolicyRelevant p (merchantType args) = true →
  Result.policies r !! p = Some e → status e ≠ NOT_RELEVANT.
Proof.
  intros Hr Hrel Hl. destruct (Hr p) as [(e' & Hl' & Hs) _].
  assert (e' = e) as -> by congruence. rewrite Hs, Hrel. done.
Qed.

Lemma passes_Relevance links :
  triple (Relevance args) (passes args links) (λ _, Relevance args) (Relevance args).
Proof.
  apply passes_keeps.
  - intros r policy u t Hr Hrel. by apply Relevance_update.
  - intros r u text Hr _ _ _. exact Hr.
  - intros r text Hr _ _. exact Hr.
Qed.

Lemma evaluatePolicy_Relevance policy :
  triple (Relevance args) (evaluatePolicy args policy) (λ _, Relevance args) (Relevance args).
Proof.
  unfold evaluatePolicy.
  destruct (isPolicyRelevant policy (merchantType args)) eqn:Hrel; simpl; [|tret].
  tbind e.
  eapply triple_bind with (Q' := λ _, (Relevance args)).
  { destruct (present e); simpl; [tret|].
    eapply triple_bind with (Q' := λ _, (Relevance args)).
    { apply (triple_modify _ _ (Relevance args)). intros r (Hr & _).
      apply Relevance_push; [done|]. intros p Hp Heq.
      apply policyKey_inj in Heq as ->. congruence. }
    intros _. tbind e'. apply (triple_modify _ _ (Relevance args)).
    intros r (Hr & _). by apply Relevance_update. }
  intros _. tbind e1.
  eapply triple_bind with (Q' := λ _, (Relevance args)); [|intros; tret].
  destruct (truthy (pageText e1)); [|tret].
  tbind e2. apply (triple_modify _ _ (Relevance args)).
  intros r ((Hr & _) & Hl). apply Relevance_update; [done..|].
  simpl. by apply (Relevance_status r policy).
Qed.

Lemma isPresent_keeps policy (I : Result.t → Prop) :
  triple I (isPresent policy) (λ _, I) I.
Proof. unfold isPresent. tbind e. tret. Qed.

Lemma finalEvaluation_Relevance :
  triple (Relevance args) (finalEvaluation args) (λ _, Relevance args) (Relevance args).
Proof.
  unfold finalEvaluation.
  tbind u. { apply triple_forOf. intros policy _. apply evaluatePolicy_Relevance. }
  tbind isFalse.
  eapply triple_bind with (Q' := λ _, (Relevance args)).
  { destruct (_ && _); [|tret]. apply (triple_modify _ _ (Relevance args)).
    intros r (Hr & _). apply Relevance_push; [done|].
    intros p _ Heq. symmetry in Heq. by apply policyKey_not_legal_name in Heq. }
  intros _.
  tbind found. { apply triple_filterM. intros p. apply isPresent_keeps. }
  tbind u1. { apply (triple_modify _ _ (Relevance args)). intros r Hr. exact Hr. }
  tbind allRelevantPoliciesPresent.
  { apply triple_everyM. intros p. destruct (negb _); [tret | apply isPresent_keeps]. }
  tbind isTrue. destruct (_ && _); [|tret].
  apply (triple_modify _ _ (Relevance args)). intros r (Hr & _). exact Hr.
Qed.

Lemma Core_Relevance r :
  Core args r → MissingOk args r → Relevance args r.
Proof.
  intros Hc Hm p. split.
  - destruct (core_entries _ _ Hc p) as (e & Hl & Hok). exists e. split; [done|].
    unfold EntryOk in Hok. destruct (isPolicyRelevant p (merchantType args)).
    + destruct Hok as [[_ ->]|[_ ->]]; done.
    + rewrite Hok. done.
  - intros Hrel Hin. destruct (Hm _ Hin) as [(q & Hq & Hrelq & _)|(Hq & _)].
    + apply policyKey_inj in Hq as ->. congruence.
    + by apply policyKey_not_legal_name in Hq.
Qed.

Lemma checkWebsite_Relevance (pg : Page) : Relevance args (checkWebsite args pg).
Proof.
  destruct (checkWebsite_cases args pg) as [_ [Hr|[(msg & r0 & Hinv & Hr)|Hev]]].
  - rewrite Hr. apply Relevance_initial.
  - rewrite Hr. apply Inv_Evaluating in Hinv as (Hc & _ & Hm).
    apply (Core_Relevance r0 Hc Hm).
  - destruct Hev as [Hc Hm _ _]. by apply Core_Relevance.
Qed.

End Relevance.

(** C3: a policy outcome has status NOT RELEVANT exactly when its kind is
    outside the applicability set of the merchant type, and the key of such
    a policy is not among the missing items: this holds of the initial
    result, each of the four passes and the final evaluation keep it, and so
    it holds of the returned result; and the verdict is PASS exactly when
    there is no error, every outcome whose status is not NOT RELEVANT is
    present, and the legal name is in order, so that the outcomes that are
    NOT RELEVANT have no part in it. *)
Theorem C3_not_relevant_outcomes `{RegExpEngine} `{Browser} (args : Args) (pg : Page) :
  Relevance args (initialResult args)
  ∧ (∀ links, triple (Relevance args) (primaryPass args links)
                (λ _, Relevance args) (Relevance args))
  ∧ triple (Relevance args) (groupResolution args) (λ _, Relevance args) (Relevance args)
  ∧ triple (Relevance args) (verification args) (λ _, Relevance args) (Relevance args)
  ∧ (∀ links, triple (Relevance args) (comprehensiveSearch args links)
                (λ _, Relevance args) (Relevance args))
  ∧ triple (Relevance args) (finalEvaluation args) (λ _, Relevance args) (Relevance args)
  ∧ (∀ p, (∃ e, Result.policies (checkWebsite args pg) !! p = Some e
                ∧ (status e = NOT_RELEVANT
                   ↔ isPolicyRelevant p (merchantType args) = false))
          ∧ (isPolicyRelevant p (merchantType args) = false →
             policyKey p ∉ Result.missingPolicies (checkWebsite args pg)))
  ∧ (Result.complianceStatus (checkWebsite args pg) = PASS
     ↔ Result.error (checkWebsite args pg) = None
       ∧ (∀ p e, Result.policies (checkWebsite args pg) !! p = Some e →
                 status e ≠ NOT_RELEVANT → present e = true)
       ∧ (Result.isProprietorship (checkWebsite args pg) = false
          ∨ Result.legalNamePresent (checkWebsite args pg) = LegalTrue)).
Proof.
  assert (∀ r policy u t, Relevance args r →
            isPolicyRelevant policy (merchantType args) = true →
            Relevance args (Result.setPolicies
              (<[policy := {| present := true; url := u; pageText := t; status := FOUND |}]>
                 (Result.policies r)) r)) as Kf.
  { intros r policy u t Hr Hrel. by apply Relevance_update. }
  split; [apply Relevance_initial|].
  split; [intros links; apply primaryPass_keeps; auto|].
  split; [apply groupResolution_keeps; auto|].
  split; [apply verification_keeps; auto|].
  split; [intros links; apply comprehensiveSearch_keeps; auto|].
  split; [apply finalEvaluation_Relevance|].
  split; [apply checkWebsite_Relevance|].
  pose proof (checkWebsite_Relevance args pg) as Hrel.
  destruct (Result.error (checkWebsite args pg)) as [msg|] eqn:Herr.
  - split; [|intros [[=] _]]. intros Hpass. exfalso.
    destruct (checkWebsite_cases args pg) as [_ [Hr|[(msg' & r0 & Hinv & Hr)|Hev]]].
    + rewrite Hr in Hpass. done.
    + rewrite Hr in Hpass. destruct Hinv as (_ & [Hc _] & _). simpl in Hpass. congruence.
    + rewrite (core_error _ _ (evaluated_core _ _ Hev)) in Herr. done.
  - assert (Evaluated args (checkWebsite args pg)) as Hev.
    { destruct (checkWebsite_cases args pg) as [_ [Hr|[(msg' & r0 & Hinv & Hr)|Hev]]];
        [rewrite Hr in Herr; done | rewrite Hr in Herr; done | done]. }
    rewrite (pass_iff args pg Hev). split.
    + intros (Hall & Hlegal). split; [done|]. split; [|done].
      intros p e Hl Hs. destruct (Hrel p) as [(e' & Hl' & Hst) _].
      assert (e' = e) as -> by congruence.
      destruct (isPolicyRelevant p (merchantType args)) eqn:Hp.
      * destruct (Hall p Hp) as (e2 & Hl2 & Hp2). congruence.
      * destruct Hs. by apply Hst.
    + intros (_ & Hall & Hlegal). split; [|done]. intros p Hp.
      destruct (Hrel p) as [(e & Hl & Hst) _]. exists e. split; [done|].
      apply (Hall p e Hl). rewrite Hst, Hp. done.
Qed.

(** ** Steps that leave the browser alone *)

Section Offline.
Context `{Browser}.

Lemma offline_ret {A} (a : A) : offline (ret a).
Proof. intros s. done. Qed.

Lemma offline_throw {A} msg : offline (@throw _ A msg).
Proof. intros s. done. Qed.

Lemma offline_gets {A} (f : Result.t → A) : offline (gets f).
Proof. intros s. done. Qed.

Lemma offline_modify f : offline (modify f).
Proof. intros s. done. Qed.

Lemma offline_call {A} (c : Completion A) : offline (call c).
Proof. intros s. done. Qed.

Lemma offline_bind {A B} (m : M A) (k : A → M B) :
  offline m → (∀ a, offline (k a)) → offline (bind m k).
Proof.
  intros Hm Hk s. unfold bind. specialize (Hm s).
  destruct (m s) as [[a|msg] s']; simpl in *; [|done].
  destruct (Hk a s') as (-> & -> & ->). done.
Qed.

Lemma offline_forOf {A} (xs : list A) (body : A → M LoopControl) :
  (∀ x, offline (body x)) → offline (forOf xs body).
Proof.
  intros Hb. induction xs as [|x xs IH]; simpl; [apply offline_ret|].
  apply offline_bind; [apply Hb|]. intros [|]; [apply IH | apply offline_ret].
Qed.

Lemma iterations_le {A} (xs : list A) (body : A → M LoopControl) (s : State) :
  (iterations xs body s ≤ length xs)%nat.
Proof.
  revert s. induction xs as [|x xs IH]; intros s; simpl; [lia|].
  destruct (body x s) as [[[|]|msg] s']; [specialize (IH s')|..]; lia.
Qed.

End Offline.

(** ** The group resolution *)

Section GroupResolution.
Context `{RegExpEngine} `{Browser}.
Variable args : Args.

Lemma getPolicy_offline policy : offline (getPolicy policy).
Proof.
  apply offline_bind; [apply offline_gets|]. intros m.
  destruct (m !! policy); [apply offline_ret | apply offline_throw].
Qed.

Lemma noteLegalName_offline t u : offline (noteLegalName args t u).
Proof.
  apply offline_bind; [apply offline_bind; [apply offline_gets|intros; apply offline_ret]|].
  intros isFalse. destruct (_ && _); [|apply offline_ret].
  apply offline_bind; [apply offline_call|].
  intros [|]; [apply offline_modify | apply offline_ret].
Qed.

Lemma groupRound_offline i : offline (groupRound args i).
Proof.
  apply offline_bind.
  { apply offline_bind; [apply offline_gets|intros; apply offline_ret]. }
  intros sources. destruct (_ =? _)%nat; [apply offline_ret|].
  apply offline_bind; [|intros; apply offline_ret].
  apply offline_forOf. intros policy. unfold resolvePolicy.
  destruct (negb _); [apply offline_ret|].
  apply offline_bind; [apply getPolicy_offline|]. intros e.
  destruct (present e); [apply offline_ret|].
  apply offline_bind; [|intros; apply offline_ret].
  apply offline_forOf. intros source. unfold resolveFromSource.
  destruct (containsAny _ _); [|apply offline_ret].
  apply offline_bind; [apply offline_modify|]. intros _.
  apply offline_bind; [apply noteLegalName_offline|]. intros _. apply offline_ret.
Qed.

Lemma groupResolution_offline : offline (groupResolution args).
Proof. apply offline_forOf. apply groupRound_offline. Qed.

Lemma GROUP_size : (length (GROUP args) ≤ 4)%nat.
Proof. unfold GROUP. destruct (merchantType args); simpl; lia. Qed.

Lemma groupResolution_no_source (s : State) :
  (presentSources args s).1 = Normal [] →
  groupResolution args s = (Normal tt, s)
  ∧ (iterations (seq 0 (length (GROUP args))) (groupRound args) s ≤ 1)%nat.
Proof.
  intros Hsrc. unfold groupResolution.
  destruct (seq 0 (length (GROUP args))) as [|i l]; simpl; [split; [done|lia]|].
  assert (groupRound args i s = (Normal Break, s)) as Hround.
  { unfold groupRound, bind. destruct (presentSources args s) as [c s'] eqn:Hp.
    assert (s' = s) as -> by (unfold presentSources, bind, gets, ret in Hp; simpl in Hp; congruence).
    simpl in Hsrc. subst c. done. }
  unfold bind. rewrite Hround. split; [done|lia].
Qed.

End GroupResolution.

(** C6: the group resolution always returns and never navigates (the page,
    the list of navigations and the visited pages are what they were), its
    outer loop enters its body at most as many times as the group has
    members, which is at most four, and when no group policy with cached
    text is present it stops in its first round and changes nothing. *)
Theorem C6_group_resolution_bounded `{RegExpEngine} `{Browser} (args : Args) (s : State) :
  (∃ c s', groupResolution args s = (c, s'))
  ∧ (page (groupResolution args s).2 = page s
   ∧ navigations (groupResolution args s).2 = navigations s
   ∧ visitedPages (groupResolution args s).2 = visitedPages s)
  ∧ (iterations (seq 0 (length (GROUP args))) (groupRound args) s
     ≤ length (GROUP args) ≤ 4)%nat
  ∧ ((presentSources args s).1 = Normal [] →
     groupResolution args s = (Normal tt, s)
     ∧ (iterations (seq 0 (length (GROUP args))) (groupRound args) s ≤ 1)%nat).
Proof.
  split; [destruct (groupResolution args s) as [c s']; eauto|].
  split; [apply groupResolution_offline|]. split.
  - split; [|apply GROUP_size].
    etrans; [apply iterations_le|]. by rewrite length_seq.
  - apply groupResolution_no_source.
Qed.

(** ** Failed navigations and caught errors *)

Section Failures.
Context `{RegExpEngine} `{Browser}.
Variable args : Args.




Lemma forOf_skip {A} (body : A → M LoopControl) x xs s s' :
  body x s = (Normal Continue, s') → forOf (x :: xs) body s = forOf xs body s'.
Proof. intros Hb. simpl. unfold bind. by rewrite Hb. Qed.


End Failures.

(** the classification of any cell agrees with the one of strings *)
Lemma determineMerchantTypeOf_text (input : Input) (merchantType : MerchantType) :
  determineMerchantTypeOf input = Normal merchantType →
  merchantType = determineMerchantType (textOf input).
Proof.
  destruct input as [|s|n]; unfold determineMerchantTypeOf, determineMerchantType; simpl.
  - by intros [= <-].
  - destruct (Text.isEmpty s); simpl; by intros [= <-].
  - destruct (n =? 0); simpl; [by intros [= <-]|done].
Qed.

Lemma isProprietorshipOf_text (input : Input) (answer : bool) :
  isProprietorshipOf input = Normal answer →
  answer = isProprietorship (textOf input).
Proof.
  destruct input as [|s|n]; unfold isProprietorshipOf, isProprietorship; simpl.
  - by intros [= <-].
  - destruct (Text.isEmpty s); simpl; by intros [= <-].
  - destruct (n =? 0); simpl; [by intros [= <-]|done].
Qed.


(** ** What the primary pass does at one link *)

Section PrimaryScan.
Context `{RegExpEngine} `{Browser}.
Variable args : Args.

Lemma primaryLink_visit policy link s pg1 pg2 body :
  followed policy link = true →
  page_goto (href link) (page s) = (Normal tt, pg1) →
  page_textContent pg1 = (Normal body, pg2) →
  primaryLink args policy link s
  = (if containsAny (normalize body) (pageKeywords (POLICY_CONFIG policy))
     then
       (setPolicy policy {| present := true; url := Some (href link);
                            pageText := Some (normalize body); status := FOUND |} ;;
        noteLegalName args (normalize body) (Some (href link)) ;;
        safeGoto (website args) ;;
        ret Break)%audit
     else ret Continue) (visited policy link body pg2 s).
Proof.
  unfold followed. intros Hf Hgo Htext. apply andb_true_iff in Hf as [Hne Hhint].
  unfold primaryLink. apply negb_true_iff in Hne. rewrite Hne, Hhint. simpl.
  unfold bind at 1. unfold safeGoto, try_catch, bind, withPage, ret. rewrite Hgo. simpl.
  unfold textContent, withPage, pushVisited. simpl. rewrite Htext. simpl.
  rewrite app_nil_r. unfold visited.
  destruct (containsAny _ _); done.
Qed.

Lemma noteLegalName_policies t u policy e :
  triple (λ r, Result.policies r !! policy = Some e) (noteLegalName args t u)
    (λ _ r, Result.policies r !! policy = Some e)
    (λ r, Result.policies r !! policy = Some e).
Proof.
  unfold noteLegalName. tbind isFalse. destruct (_ && _); [|tret].
  tbind found. destruct found; [|tret].
  apply (triple_modify _ _ (λ r, Result.policies r !! policy = Some e)). weaken.
Qed.

Lemma primaryLink_found policy link s pg1 pg2 body :
  followed policy link = true →
  page_goto (href link) (page s) = (Normal tt, pg1) →
  page_textContent pg1 = (Normal body, pg2) →
  containsAny (normalize body) (pageKeywords (POLICY_CONFIG policy)) = true →
  (primaryLink args policy link s).1 ≠ Normal Continue
  ∧ Result.policies (result (primaryLink args policy link s).2) !! policy
    = Some (foundEntry link body).
Proof.
  intros Hf Hgo Htext Hkey.
  rewrite (primaryLink_visit policy link s pg1 pg2 body Hf Hgo Htext), Hkey.
  assert (triple (λ r, r = result s)
    (setPolicy policy (foundEntry link body) ;;
     noteLegalName args (normalize body) (Some (href link)) ;;
     safeGoto (website args) ;; ret Break)%audit
    (λ c r, c = Break ∧ Result.policies r !! policy = Some (foundEntry link body))
    (λ r, Result.policies r !! policy = Some (foundEntry link body))) as Ht.
  { tbind u.
    { apply (triple_modify _ _ (λ r, Result.policies r !! policy = Some (foundEntry link body))).
      intros r ->. simpl. apply lookup_insert_eq. }
    tbind u1. { apply noteLegalName_policies. }
    tbind back. tret. }
  specialize (Ht (visited policy link body pg2 s) eq_refl).
  fold (foundEntry link body).
  destruct (bind _ _ _) as [[c|msg] s']; simpl; [destruct Ht as [-> Hl]|]; done.
Qed.

End PrimaryScan.

(** C1, as the code has it: when a followed link leads to a page that fails
    the keyword test of the policy, the scan goes on with the links after it
    for that same policy, from a state in which the page is only recorded as
    visited; the scan for the policy stops at the first followed link whose
    page passes the test, and that link becomes the source of the policy. *)
Theorem C1_scan_continues_after_failed_page `{RegExpEngine} `{Browser} (args : Args)
    (policy : Policy) (link : Link) (rest : list Link) (s : State)
    (pg1 pg2 : Page) (body : option string) :
  followed policy link = true →
  page_goto (href link) (page s) = (Normal tt, pg1) →
  page_textContent pg1 = (Normal body, pg2) →
  (containsAny (normalize body) (pageKeywords (POLICY_CONFIG policy)) = false →
   forOf (link :: rest) (primaryLink args policy) s
   = forOf rest (primaryLink args policy) (visited policy link body pg2 s))
  ∧ (containsAny (normalize body) (pageKeywords (POLICY_CONFIG policy)) = true →
     forOf (link :: rest) (primaryLink args policy) s
     = forOf [link] (primaryLink args policy) s
     ∧ Result.policies (result (forOf (link :: rest) (primaryLink args policy) s).2) !! policy
       = Some (foundEntry link body)).
Proof.
  intros Hf Hgo Htext. split; intros Hkey.
  - apply forOf_skip.
    rewrite (primaryLink_visit args policy link s pg1 pg2 body Hf Hgo Htext), Hkey. done.
  - destruct (primaryLink_found args policy link s pg1 pg2 body Hf Hgo Htext Hkey)
      as [Hc Hl].
    simpl. unfold bind.
    destruct (primaryLink args policy link s) as [[[|]|msg] s']; simpl in *; done.
Qed.

(** ** The legal-name matcher *)

Section Blank.

Lemma trimStart_cases s :
  Text.trimStart s = EmptyString ∧ allWhite s = true
  ∨ ∃ c t, Text.trimStart s = String c t ∧ Text.isWhiteSpace c = false.
Proof.
  induction s as [|c s IH]; simpl; [by left|].
  destruct (Text.isWhiteSpace c) eqn:Hc; simpl; [exact IH|]. right. eauto.
Qed.

Lemma trim_empty_allWhite s : Text.isEmpty (Text.trim s) = true → allWhite s = true.
Proof.
  unfold Text.trim. destruct (trimStart_cases s) as [[_ Hw]|(c & t & -> & Hc)]; [done|].
  simpl. rewrite Hc. done.
Qed.

Lemma toLowerChar_white c : Text.isWhiteSpace c = true → Text.toLowerChar c = c.
Proof.
  destruct c as [[] [] [] [] [] [] [] []]; vm_compute; congruence.
Qed.

Lemma toLowerCase_white s : allWhite s = true → Text.toLowerCase s = s.
Proof.
  induction s as [|c s IH]; simpl; [done|]. intros [Hc Hs]%andb_true_iff.
  by rewrite (toLowerChar_white c Hc), (IH Hs).
Qed.

Lemma replaceRuns_white rep s :
  allWhite s = true → Text.replaceRuns rep true s = EmptyString.
Proof.
  induction s as [|c s IH]; simpl; [done|]. intros [Hc Hs]%andb_true_iff.
  rewrite Hc. auto.
Qed.

Lemma normalize_white s : allWhite s = true → normalize (Some s) = EmptyString.
Proof.
  intros Hs. unfold normalize. simpl. rewrite (toLowerCase_white s Hs).
  unfold Text.replaceWhiteSpace. destruct s as [|c s]; [done|].
  simpl in *. apply andb_true_iff in Hs as [Hc Hs].
  rewrite Hc, (replaceRuns_white " " s Hs). done.
Qed.

Lemma cleanName_blank legalName :
  Text.isEmpty legalName || Text.isEmpty (Text.trim legalName) = true →
  cleanName legalName = EmptyString.
Proof.
  intros Hb. assert (allWhite legalName = true) as Hw.
  { apply orb_true_iff in Hb as [Hb|Hb]; [by destruct legalName|].
    by apply trim_empty_allWhite. }
  unfold cleanName. rewrite (normalize_white legalName Hw). done.
Qed.

End Blank.

(** ** The searches of the program find the first and the last occurrence *)

Section Occurrences.

Lemma startsWith_occurs text k :
  Text.startsWith text k = true ↔ ∃ after, text = k +:+ after.
Proof.
  revert text. induction k as [|c k IH]; intros text.
  - split; [intros _; by exists text|]. intros _. by destruct text.
  - destruct text as [|d text]; simpl.
    + split; [done|]. intros (after & Heq). discriminate Heq.
    + rewrite andb_true_iff, bool_decide_eq_true, IH. split.
      * intros [-> (after & ->)]. by exists after.
      * intros (after & Heq).
        change (String d text = String c (k +:+ after)) in Heq.
        injection Heq as -> ->. split; [done|]. by exists after.
Qed.

Lemma occursAt_head text k : occursAt text k 0 ↔ Text.startsWith text k = true.
Proof.
  rewrite startsWith_occurs. split.
  - intros (before & after & -> & Hi). destruct before; [|simpl in Hi; lia].
    by exists after.
  - intros (after & ->). by exists "", after.
Qed.

Lemma occursAt_nonneg text k i : occursAt text k i → 0 ≤ i.
Proof. intros (before & after & _ & ->). lia. Qed.

Lemma occursAt_tail c text k i :
  0 ≤ i → occursAt (String c text) k (i + 1) ↔ occursAt text k i.
Proof.
  intros Hi0. split.
  - intros (before & after & Heq & Hi). destruct before as [|d before].
    + simpl in Hi. lia.
    + change (String c text = String d (before +:+ k +:+ after)) in Heq.
      injection Heq as -> ->. simpl in Hi.
      exists before, after. split; [done|]. lia.
  - intros (before & after & -> & ->). exists (String c before), after.
    split; [done|]. simpl. lia.
Qed.

Lemma occursAt_empty k i : occursAt "" k i → i = 0 ∧ k = "".
Proof.
  intros (before & after & Heq & ->).
  destruct before; [|discriminate Heq]. split; [done|].
  destruct k; [done|discriminate Heq].
Qed.

(** an occurrence in [String c text] is at the head or is one of [text] *)
Lemma occursAt_cases c text k i :
  occursAt (String c text) k i →
  i = 0 ∨ (∃ j, i = j + 1 ∧ occursAt text k j).
Proof.
  intros Ho. destruct (Z.eq_dec i 0) as [->|Hne]; [by left|]. right.
  exists (i - 1). split; [lia|].
  pose proof (occursAt_nonneg _ _ _ Ho).
  replace i with ((i - 1) + 1) in Ho by lia. apply occursAt_tail in Ho; [done|lia].
Qed.

Lemma indexOfFrom_spec text k i0 :
  0 ≤ i0 →
  (Text.indexOfFrom i0 text k = -1 ∧ ∀ j, ¬ occursAt text k j)
  ∨ (∃ i, Text.indexOfFrom i0 text k = i0 + i ∧ firstOccurrence text k i).
Proof.
  revert i0. induction text as [|c text IH]; intros i0 Hi0; cbn [Text.indexOfFrom].
  - destruct (Text.startsWith "" k) eqn:Hs.
    + right. exists 0. split; [lia|]. split; [by apply occursAt_head|].
      intros j Hj. by apply occursAt_nonneg in Hj.
    + left. split; [done|]. intros j Hj. destruct (occursAt_empty _ _ Hj) as [-> ->].
      done.
  - destruct (Text.startsWith (String c text) k) eqn:Hs.
    + right. exists 0. split; [lia|]. split; [by apply occursAt_head|].
      intros j Hj. by apply occursAt_nonneg in Hj.
    + destruct (IH (i0 + 1)) as [[Hnone Hno]|(i & Hi & Hfirst & Hmin)]; [lia|..].
      * left. split; [done|]. intros j Hj.
        destruct (occursAt_cases _ _ _ _ Hj) as [->|(j' & -> & Hj')].
        -- apply occursAt_head in Hj. congruence.
        -- by apply (Hno j').
      * right. exists (i + 1). split; [lia|]. split.
        -- apply occursAt_tail; [by apply occursAt_nonneg in Hfirst|done].
        -- intros j Hj.
           destruct (occursAt_cases _ _ _ _ Hj) as [->|(j' & -> & Hj')].
           ++ apply occursAt_head in Hj. congruence.
           ++ specialize (Hmin j' Hj'). lia.
Qed.

Lemma lastIndexOfFrom_spec text k i0 :
  0 ≤ i0 →
  (Text.lastIndexOfFrom i0 text k = -1 ∧ ∀ j, ¬ occursAt text k j)
  ∨ (∃ i, Text.lastIndexOfFrom i0 text k = i0 + i ∧ lastOccurrence text k i).
Proof.
  revert i0. induction text as [|c text IH]; intros i0 Hi0; cbn [Text.lastIndexOfFrom].
  - change (-1 =? -1) with true. cbn iota.
    destruct (Text.startsWith "" k) eqn:Hs.
    + right. exists 0. split; [lia|]. split; [by apply occursAt_head|].
      intros j Hj. destruct (occursAt_empty _ _ Hj) as [-> _]. lia.
    + left. split; [done|]. intros j Hj. destruct (occursAt_empty _ _ Hj) as [-> ->].
      done.
  - destruct (IH (i0 + 1)) as [[Hnone Hno]|(i & Hi & Hlast & Hmax)]; [lia|..].
    + rewrite Hnone. change (-1 =? -1) with true. cbn iota.
      destruct (Text.startsWith (String c text) k) eqn:Hs.
      * right. exists 0. split; [lia|]. split; [by apply occursAt_head|].
        intros j Hj. destruct (occursAt_cases _ _ _ _ Hj) as [->|(j' & -> & Hj')]; [lia|].
        by destruct (Hno j').
      * left. split; [done|]. intros j Hj.
        destruct (occursAt_cases _ _ _ _ Hj) as [->|(j' & -> & Hj')].
        -- apply occursAt_head in Hj. congruence.
        -- by apply (Hno j').
    + pose proof (occursAt_nonneg _ _ _ Hlast) as Hnn.
      rewrite Hi. destruct (Z.eqb_spec (i0 + 1 + i) (-1)) as [Heq|_]; [lia|].
      right. exists (i + 1). split; [lia|]. split.
      * by apply occursAt_tail.
      * intros j Hj.
        destruct (occursAt_cases _ _ _ _ Hj) as [->|(j' & -> & Hj')]; [lia|].
        specialize (Hmax j' Hj'). lia.
Qed.

Lemma indexOf_spec text k :
  (Text.indexOf text k = -1 ∧ ∀ j, ¬ occursAt text k j)
  ∨ (Text.indexOf text k ≠ -1 ∧ firstOccurrence text k (Text.indexOf text k)).
Proof.
  unfold Text.indexOf.
  destruct (indexOfFrom_spec text k 0) as [Hnone|(i & Hi & Hfirst)]; [lia|by left|].
  right. rewrite Hi. pose proof (occursAt_nonneg _ _ _ (proj1 Hfirst)).
  split; [lia|]. by replace (0 + i) with i by lia.
Qed.

Lemma lastIndexOf_spec text k :
  (Text.lastIndexOf text k = -1 ∧ ∀ j, ¬ occursAt text k j)
  ∨ (Text.lastIndexOf text k ≠ -1 ∧ lastOccurrence text k (Text.lastIndexOf text k)).
Proof.
  unfold Text.lastIndexOf.
  destruct (lastIndexOfFrom_spec text k 0) as [Hnone|(i & Hi & Hlast)]; [lia|by left|].
  right. rewrite Hi. pose proof (occursAt_nonneg _ _ _ (proj1 Hlast)).
  split; [lia|]. by replace (0 + i) with i by lia.
Qed.

Lemma firstOccurrence_unique text k i j :
  firstOccurrence text k i → firstOccurrence text k j → i = j.
Proof. intros [Hi Hmin] [Hj Hmin']. specialize (Hmin j Hj). specialize (Hmin' i Hi). lia. Qed.

Lemma lastOccurrence_unique text k i j :
  lastOccurrence text k i → lastOccurrence text k j → i = j.
Proof. intros [Hi Hmax] [Hj Hmax']. specialize (Hmax j Hj). specialize (Hmax' i Hi). lia. Qed.

(** an occurrence leaves room for the string *)
Lemma occursAt_bound text k i :
  occursAt text k i →
  i + Z.of_nat (String.length k) ≤ Z.of_nat (String.length text).
Proof.
  intros (before & after & -> & ->).
  assert (∀ a b, String.length (a +:+ b) = (String.length a + String.length b)%nat) as Hlen.
  { intros a b. induction a as [|c a IH]; [done|].
    change (S (String.length (a +:+ b)) = S (String.length a + String.length b)).
    by rewrite IH. }
  rewrite !Hlen. lia.
Qed.

(** every occurrence is listed by the scan *)
Lemma occursAt_occurrences text k i i0 :
  occursAt text k i → i0 + i ∈ occurrencesFrom i0 text k.
Proof.
  revert i i0. induction text as [|c text IH]; intros i i0 Ho.
  - apply occursAt_empty in Ho as [-> ->]. simpl.
    replace (i0 + 0) with i0 by lia. apply elem_of_cons. by left.
  - cbn [occurrencesFrom]. apply elem_of_app.
    destruct (occursAt_cases _ _ _ _ Ho) as [->|(j & -> & Hj)].
    + left. apply occursAt_head in Ho. rewrite Ho.
      replace (i0 + 0) with i0 by lia. apply elem_of_cons. by left.
    + right. replace (i0 + (j + 1)) with ((i0 + 1) + j) by lia. by apply IH.
Qed.

End Occurrences.

Section FoundParts.
Context `{RegExpEngine}.

(** the parts that the program keeps are those whose pattern matches *)
Lemma cfilter_found pageText (found : string → bool) (parts : list string) :
  (∀ part, part ∈ parts →
     ∃ partPattern, RegExp_new ("\b" +:+ part +:+ "\b") "i" = Normal partPattern
                    ∧ RegExp_test partPattern pageText = found part) →
  cfilter (partFound pageText) parts = Normal (List.filter found parts).
Proof.
  induction parts as [|part parts IH]; intros Hparts; [done|].
  destruct (Hparts part) as (partPattern & Hnew & Htest); [left|].
  cbn [cfilter List.filter]. unfold partFound at 1. unfold partSource.
  rewrite Hnew. cbn [cbind]. rewrite Htest, IH; [done|].
  intros p Hp. apply Hparts. by right.
Qed.

End FoundParts.

(** C4: for a legal name whose cleaned form has at least two parts longer
    than two characters, when the exact pattern does not match the page and
    at least two of the parts are found as whole words (the pattern of the
    part between two word boundaries matches the page, case ignored), the
    matcher answers true exactly when the first of the found parts and the
    last of the found parts occur in the lower-cased page, and the first
    offset at which the former occurs there and the last offset at which
    the latter occurs there are less than 200 characters apart; so offsets
    180 apart give true and offsets 200 or more apart give false.  An
    occurrence is an occurrence of the part as a string of characters, inside
    a longer word or not. *)
Theorem C4_proximity_strategy `{RegExpEngine} (pageText legalName : string)
    (exactPattern : RegExp) (found : string → bool) :
  (2 ≤ length (namePartsOf (cleanName legalName)))%nat →
  RegExp_new (exactSource (cleanName legalName)) "i" = Normal exactPattern →
  RegExp_test exactPattern pageText = false →
  (∀ part, part ∈ namePartsOf (cleanName legalName) →
     ∃ partPattern, RegExp_new ("\b" +:+ part +:+ "\b") "i" = Normal partPattern
                    ∧ RegExp_test partPattern pageText = found part) →
  (2 ≤ length (List.filter found (namePartsOf (cleanName legalName))))%nat →
  ∃ answer,
    containsLegalName pageText legalName = Normal answer
    ∧ (answer = true
       ↔ ∃ firstPart lastPart i j,
           head (List.filter found (namePartsOf (cleanName legalName))) = Some firstPart
           ∧ last (List.filter found (namePartsOf (cleanName legalName))) = Some lastPart
           ∧ firstOccurrence (Text.toLowerCase pageText) firstPart i
           ∧ lastOccurrence (Text.toLowerCase pageText) lastPart j
           ∧ Z.abs (j - i) < 200)
    ∧ (∀ firstPart lastPart i j,
         head (List.filter found (namePartsOf (cleanName legalName))) = Some firstPart →
         last (List.filter found (namePartsOf (cleanName legalName))) = Some lastPart →
         firstOccurrence (Text.toLowerCase pageText) firstPart i →
         lastOccurrence (Text.toLowerCase pageText) lastPart j →
         (Z.abs (j - i) = 180 → answer = true)
         ∧ (200 ≤ Z.abs (j - i) → answer = false)).
Proof.
  intros Hparts Hexact Htest Hfound Hfp.
  assert (Text.isEmpty legalName || Text.isEmpty (Text.trim legalName) = false) as Hblank.
  { destruct (_ || _) eqn:Hb; [|done].
    rewrite (cleanName_blank legalName Hb) in Hparts. simpl in Hparts. lia. }
  assert (Text.isEmpty (cleanName legalName) = false) as Hclean.
  { destruct (cleanName legalName); [simpl in Hparts; lia | done]. }
  unfold containsLegalName. rewrite Hblank, Hclean, Hexact. cbn [cbind]. rewrite Htest.
  apply Nat.leb_le in Hparts. rewrite Hparts.
  rewrite (cfilter_found pageText found _ Hfound). cbn [cbind].
  set (foundParts := List.filter found (namePartsOf (cleanName legalName))) in *.
  pose proof Hfp as Hfp'. apply Nat.leb_le in Hfp'. rewrite Hfp'.
  destruct (head foundParts) as [firstPart|] eqn:Hhead;
    [|destruct foundParts; [simpl in Hfp; lia|discriminate Hhead]].
  destruct (last foundParts) as [lastPart|] eqn:Hlast;
    [|apply last_None in Hlast; rewrite Hlast in Hfp; simpl in Hfp; lia].
  unfold firstPartIndex, lastPartIndex. rewrite Hhead, Hlast. cbn [default from_option id].
  set (page := Text.toLowerCase pageText).
  assert (∀ answer : bool,
    (answer = true ↔
       Text.indexOf page firstPart ≠ -1 ∧ Text.lastIndexOf page lastPart ≠ -1
       ∧ Z.abs (Text.lastIndexOf page lastPart - Text.indexOf page firstPart) < 200) →
    (answer = true
     ↔ ∃ firstPart0 lastPart0 i j,
         Some firstPart = Some firstPart0 ∧ Some lastPart = Some lastPart0
         ∧ firstOccurrence page firstPart0 i ∧ lastOccurrence page lastPart0 j
         ∧ Z.abs (j - i) < 200)
    ∧ (∀ firstPart0 lastPart0 i j,
         Some firstPart = Some firstPart0 → Some lastPart = Some lastPart0 →
         firstOccurrence page firstPart0 i → lastOccurrence page lastPart0 j →
         (Z.abs (j - i) = 180 → answer = true)
         ∧ (200 ≤ Z.abs (j - i) → answer = false))) as Hspec.
  { intros answer Hanswer.
    destruct (indexOf_spec page firstPart) as [[Hf Hnone]|[Hf Hfirst]];
      destruct (lastIndexOf_spec page lastPart) as [[Hl Hnone']|[Hl Hlast']].
    - split.
      + rewrite Hanswer. split; [tauto|].
        intros (f & l & i & j & [= <-] & _ & [Hi _] & _). by destruct (Hnone i).
      + intros f l i j [= <-] _ [Hi _]. by destruct (Hnone i).
    - split.
      + rewrite Hanswer. split; [tauto|].
        intros (f & l & i & j & [= <-] & _ & [Hi _] & _). by destruct (Hnone i).
      + intros f l i j [= <-] _ [Hi _]. by destruct (Hnone i).
    - split.
      + rewrite Hanswer. split; [tauto|].
        intros (f & l & i & j & _ & [= <-] & _ & [Hj _] & _). by destruct (Hnone' j).
      + intros f l i j _ [= <-] _ [Hj _]. by destruct (Hnone' j).
    - split.
      + rewrite Hanswer. split.
        * intros (_ & _ & Hd).
          exists firstPart, lastPart, (Text.indexOf page firstPart),
            (Text.lastIndexOf page lastPart). done.
        * intros (f & l & i & j & [= <-] & [= <-] & Hi & Hj & Hd).
          rewrite <- (firstOccurrence_unique _ _ _ _ Hfirst Hi) in Hd.
          rewrite <- (lastOccurrence_unique _ _ _ _ Hlast' Hj) in Hd. done.
      + intros f l i j [= <-] [= <-] Hi Hj.
        rewrite <- (firstOccurrence_unique _ _ _ _ Hfirst Hi).
        rewrite <- (lastOccurrence_unique _ _ _ _ Hlast' Hj).
        split.
        * intros Hd. apply Hanswer. split; [done|]. split; [done|lia].
        * intros Hd. destruct answer; [|done].
          destruct (proj1 Hanswer eq_refl) as (_ & _ & Hlt). lia. }
  destruct (Z.eqb_spec (Text.indexOf page firstPart) (-1)) as [Hf|Hf]; simpl.
  { exists false. split; [done|]. apply Hspec. split; [done|tauto]. }
  destruct (Z.eqb_spec (Text.lastIndexOf page lastPart) (-1)) as [Hl|Hl]; simpl.
  { exists false. split; [done|]. apply Hspec. split; [done|tauto]. }
  destruct (Z.ltb_spec
              (Z.abs (Text.lastIndexOf page lastPart - Text.indexOf page firstPart)) 200)
    as [Hd|Hd].
  - exists true. split; [done|]. apply Hspec. tauto.
  - exists false. split; [done|]. apply Hspec. split; [done|]. intros (_ & _ & Hlt). lia.
Qed.

(** ** A legal name on which the matcher throws *)

Section Throwing.
Context `{RegExpEngine} `{Browser}.
Variable args : Args.

Hypothesis proprietor : isProprietorEntity args = true.
Hypothesis throws : ∀ text, ∃ msg, containsLegalName text (legalName args) = Throw msg.

Lemma triple_assume {A} (φ : Prop) (P : Result.t → Prop) (m : M A) Q E :
  (∀ r, P r → φ) → (φ → triple P m Q E) → triple P m Q E.
Proof. intros Hφ Hm s Hs. apply Hm; [by apply (Hφ (result s))|done]. Qed.

Lemma name_not_empty : Text.isEmpty (legalName args) = false.
Proof.
  destruct (throws "") as [msg Hm]. unfold containsLegalName in Hm.
  destruct (Text.isEmpty (legalName args)); [simpl in Hm; congruence|done].
Qed.

Lemma never_true text : containsLegalName text (legalName args) ≠ Normal true.
Proof. destruct (throws text) as [msg ->]. done. Qed.

Lemma early_passes_Absent links :
  triple Absent (primaryPass args links) (λ _, Absent) Absent
  ∧ triple Absent (groupResolution args) (λ _, Absent) Absent
  ∧ triple Absent (verification args) (λ _, Absent) Absent.
Proof.
  assert (∀ r policy u t, Absent r →
            isPolicyRelevant policy (merchantType args) = true →
            Absent (Result.setPolicies
              (<[policy := {| present := true; url := u; pageText := t; status := FOUND |}]>
                 (Result.policies r)) r)) as Kf by done.
  assert (∀ r u text, Absent r → isProprietorEntity args = true → legalName args ≠ "" →
            containsLegalName text (legalName args) = Normal true →
            Absent (Result.setLegalName LegalTrue u r)) as Kt.
  { intros r u text _ _ _ Hc. by apply never_true in Hc. }
  assert (∀ r text, Absent r → isProprietorEntity args = true →
            containsLegalName text (legalName args) = Normal false →
            Absent (Result.setLegalName LegalFalse None r)) as Kn by done.
  split; [by apply primaryPass_keeps|].
  split; [by apply groupResolution_keeps | by apply verification_keeps].
Qed.

Lemma searchVisited_Absent pageInfo :
  triple Absent (searchVisited args pageInfo) (λ _, Absent) (λ _, True).
Proof.
  unfold searchVisited. tbind found.
  apply (triple_assume False); [|done].
  intros r (_ & Hc). destruct (throws (visitedText pageInfo)) as [msg Hm]. congruence.
Qed.

Lemma comprehensiveSearch_throws links :
  triple Absent (comprehensiveSearch args links) (λ _ _, False) (λ _, True).
Proof.
  unfold comprehensiveSearch. tbind isFalse.
  apply (triple_assume (isFalse = true)).
  { intros r (Ha & ->). by apply bool_decide_eq_true. }
  intros ->. rewrite proprietor, name_not_empty. simpl.
  tbind visited.
  eapply triple_bind with (Q' := λ _, Absent).
  { eapply triple_pre; [|apply triple_forOf; intros v _; apply searchVisited_Absent].
    weaken. }
  intros _. tbind isFalse1.
  apply (triple_assume (isFalse1 = true)).
  { intros r (Ha & ->). by apply bool_decide_eq_true. }
  intros ->.
  eapply triple_bind with (Q' := λ _ _, False); [|intros _ s []].
  unfold searchHomepage. tbind ok. tbind body. tbind found.
  apply (triple_assume False); [|done].
  intros r (_ & Hc). destruct (throws (normalize body)) as [msg Hm]. congruence.
Qed.

Lemma passes_throw links :
  triple Absent (passes args links) (λ _ _, False) (λ _, True).
Proof.
  destruct (early_passes_Absent links) as (H1 & H2 & H3). unfold passes.
  eapply triple_bind with (Q' := λ _, Absent).
  { eapply triple_conseq; [|apply H1| |]; done. }
  intros _. eapply triple_bind with (Q' := λ _, Absent).
  { eapply triple_conseq; [|apply H2| |]; done. }
  intros _. eapply triple_bind with (Q' := λ _, Absent).
  { eapply triple_conseq; [|apply H3| |]; done. }
  intros _. apply comprehensiveSearch_throws.
Qed.

Lemma audit_throws (pg pg' : Page) :
  page_goto (website args) pg = (Normal tt, pg') →
  ∃ msg, Result.error (checkWebsite args pg) = Some msg.
Proof.
  intros Hgo.
  assert (triple Absent
    (rawLinks <- anchors ;;
     passes args (map normalizeLink rawLinks) ;; finalEvaluation args)%audit
    (λ _ _, False) (λ _, True)) as Ht.
  { tbind rawLinks.
    eapply triple_bind with (Q' := λ _ _, False); [|intros _ s []].
    apply passes_throw. }
  unfold checkWebsite, checkWebsiteRun, try_catch, audit.
  unfold bind at 1. unfold safeGoto, try_catch, bind at 1, withPage.
  simpl. rewrite Hgo. simpl.
  match goal with
  | |- context [bind anchors ?k ?s1] =>
      assert (Absent (result s1)) as Ha
        by (unfold Absent; cbn [result initialState initialResult Result.legalNamePresent];
            by rewrite proprietor);
      specialize (Ht s1 Ha)
  end.
  destruct (bind anchors _ _) as [[[]|msg] s2]; [done|]. simpl. eauto.
Qed.

End Throwing.

(** C1 as stated fails on the shop: the first followed privacy link leads to
    a page that fails the keyword test, and yet the scan reaches the second
    link and finds the policy there. *)
Lemma C1_counterexample :
  ¬ @first_match_is_final MiniRegExp_engine StaticSite_browser Scenario.shopkeeper
      privacy [Scenario.cookieLink; Scenario.policyLink] Scenario.shopLoaded.
Proof.
  intros Hfinal.
  destruct (Hfinal Scenario.cookieLink
              (@page_goto StaticSite_browser "https://shop.example/cookies"
                 (page Scenario.shopLoaded)).2
              (@page_goto StaticSite_browser "https://shop.example/cookies"
                 (page Scenario.shopLoaded)).2
              (Some "Choose your cookies")) as [Hpresent _];
    try (vm_compute; reflexivity).
  vm_compute in Hpresent. discriminate Hpresent.
Qed.

(** C4 read on whole words fails on the page ["annex ... lee ann"] with the
    name ["Ann Lee"]: both parts are found as whole words, 4 characters
    apart, yet the program measures from the ["ann"] of ["annex"], 257
    characters before ["lee"], and answers false. *)
Lemma C4_counterexample : ¬ @distance_between_whole_words MiniRegExp_engine.
Proof.
  intros Hwords.
  assert (namePartsOf (cleanName "Ann Lee") = ["ann"; "lee"]) as Hparts
    by (vm_compute; reflexivity).
  assert (Text.toLowerCase Cases.insideWords = Cases.insideWords) as Hlower
    by (vm_compute; reflexivity).
  assert (@containsLegalName MiniRegExp_engine Cases.insideWords "Ann Lee" = Normal true)
    as Htrue.
  { apply (Hwords Cases.insideWords "Ann Lee"
             {| MiniRegExp.ignoreCase := true;
                MiniRegExp.expr :=
                  match MiniRegExp.compile "\bann\s+lee\b" "i" with
                  | Normal re => MiniRegExp.expr re
                  | Throw _ => MiniRegExp.Eps
                  end |}
             (λ _, true) "ann" "lee" 261 257).
    - rewrite Hparts. simpl. lia.
    - vm_compute. reflexivity.
    - vm_compute. reflexivity.
    - rewrite Hparts. intros part Hin.
      apply elem_of_cons in Hin as [->|Hin];
        [|apply list_elem_of_singleton in Hin as ->];
        eexists; (split; [vm_compute; reflexivity|]); vm_compute; reflexivity.
    - rewrite Hparts. simpl. lia.
    - rewrite Hparts. reflexivity.
    - rewrite Hparts. reflexivity.
    - rewrite Hlower. split.
      + split; [|split; vm_compute; reflexivity].
        exists ("annex " +:+ Scenario.filler 250 +:+ " lee "), "".
        split; vm_compute; reflexivity.
      + intros j (Ho & _ & Hafter).
        apply (occursAt_occurrences _ _ _ 0) in Ho.
        replace (occurrencesFrom 0 Cases.insideWords "ann") with [0; 261] in Ho
          by (vm_compute; reflexivity).
        apply elem_of_cons in Ho as [Hj|Ho];
          [|apply list_elem_of_singleton in Ho; lia].
        assert (wordCharAt Cases.insideWords (0 + 3) = true) as Hword
          by (vm_compute; reflexivity).
        replace j with 0 in Hafter by lia.
        change (Z.of_nat (String.length "ann")) with 3 in Hafter.
        rewrite Hword in Hafter. discriminate Hafter.
    - rewrite Hlower. split.
      + split; [|split; vm_compute; reflexivity].
        exists ("annex " +:+ Scenario.filler 250 +:+ " "), " ann".
        split; vm_compute; reflexivity.
      + intros j (Ho & _).
        apply (occursAt_occurrences _ _ _ 0) in Ho.
        replace (occurrencesFrom 0 Cases.insideWords "lee") with [257] in Ho
          by (vm_compute; reflexivity).
        apply list_elem_of_singleton in Ho. lia.
    - vm_compute. reflexivity. }
  assert (@containsLegalName MiniRegExp_engine Cases.insideWords "Ann Lee" = Normal false)
    as Hfalse by (vm_compute; reflexivity).
  rewrite Hfalse in Htrue. discriminate Htrue.
Qed.


(** C9: the matcher is not total.  On the legal name ["Acme ("] the exact
    pattern is a pattern of the modelled fragment with a group that is never
    closed: its construction throws a syntax error, whatever the page, and
    the audit of a proprietorship with that name whose home page loads ends
    with an error. *)
Theorem C9_matcher_throws_on_open_bracket :
  MiniRegExp.modelled (exactSource (cleanName "Acme (")) "i" = true
  ∧ MiniRegExp.parsePattern (exactSource (cleanName "Acme ("))
    = MiniRegExp.PErr "Unterminated group"
  ∧ (∀ pageText,
       ∃ msg, @containsLegalName MiniRegExp_engine pageText "Acme (" = Throw msg)
  ∧ (∀ (B : Browser) (args : Args) (pg pg' : Page),
       legalNameRaw args = Some "Acme (" →
       isProprietorship (entityType args) = true →
       page_goto (website args) pg = (Normal tt, pg') →
       ∃ msg, Result.error (@checkWebsite MiniRegExp_engine B args pg) = Some msg).
Proof.
  assert (∀ pageText,
     ∃ msg, @containsLegalName MiniRegExp_engine pageText "Acme (" = Throw msg) as Hthrow.
  { intros pageText. eexists. vm_compute. reflexivity. }
  split; [vm_compute; reflexivity|]. split; [vm_compute; reflexivity|].
  split; [exact Hthrow|].
  intros B args pg pg' Hname Hprop Hgo.
  apply (@audit_throws MiniRegExp_engine B args Hprop) with (pg' := pg'); [|exact Hgo].
  intros t. unfold legalName. rewrite Hname. simpl. apply Hthrow.
Qed.

(** ** The theorems at work on the scenarios *)

Lemma C9_witness :
  legalNameRaw Scenario.bracketProprietor = Some "Acme ("
  ∧ isProprietorship (entityType Scenario.bracketProprietor) = true
  ∧ (@page_goto StaticSite_browser (website Scenario.bracketProprietor) Scenario.studio).1
    = Normal tt
  ∧ (∃ msg, Result.error (@checkWebsite MiniRegExp_engine StaticSite_browser
                            Scenario.bracketProprietor Scenario.studio) = Some msg)
  ∧ Result.complianceStatus (@checkWebsite MiniRegExp_engine StaticSite_browser
                               Scenario.bracketProprietor Scenario.studio) = FAIL.
Proof.
  split; [reflexivity|]. split; [vm_compute; reflexivity|].
  split; [vm_compute; reflexivity|].
  split; [|vm_compute; reflexivity].
  apply (proj2 (proj2 (proj2 C9_matcher_throws_on_open_bracket)) StaticSite_browser
           Scenario.bracketProprietor Scenario.studio
           (StaticSite.goto "https://studio.example/" Scenario.studio).2);
    vm_compute; reflexivity.
Defined.

Lemma C2_witness :
  Result.error (@checkWebsite MiniRegExp_engine StaticSite_browser
                  Scenario.company Scenario.studio) = None
  ∧ Result.complianceStatus (@checkWebsite MiniRegExp_engine StaticSite_browser
                               Scenario.company Scenario.studio) = PASS
  ∧ Result.missingPolicies (@checkWebsite MiniRegExp_engine StaticSite_browser
                              Scenario.company Scenario.studio) = [].
Proof.
  assert (Result.error (@checkWebsite MiniRegExp_engine StaticSite_browser
                          Scenario.company Scenario.studio) = None) as Herr
    by (vm_compute; reflexivity).
  destruct (@C2_compliance_verdict MiniRegExp_engine StaticSite_browser
              Scenario.company Scenario.studio Herr) as (Hiff & _ & Hnil).
  assert (Result.complianceStatus (@checkWebsite MiniRegExp_engine StaticSite_browser
                                     Scenario.company Scenario.studio) = PASS) as Hpass.
  { apply Hiff. split; [|left; vm_compute; reflexivity].
    intros p Hrel. destruct p; try (vm_compute in Hrel; discriminate Hrel);
      eexists; (split; [vm_compute; reflexivity | reflexivity]). }
  split; [exact Herr|]. split; [exact Hpass | exact (Hnil Hpass)].
Defined.

Lemma C5_witness :
  Result.error (@checkWebsite MiniRegExp_engine StaticSite_browser
                  Scenario.consultancy Scenario.bare) = None
  ∧ Result.allRelevantPoliciesMissing
      (@checkWebsite MiniRegExp_engine StaticSite_browser
         Scenario.consultancy Scenario.bare) = true
  ∧ ManualCheckingRequired (@checkWebsite MiniRegExp_engine StaticSite_browser
                              Scenario.consultancy Scenario.bare) = "YES".
Proof.
  assert (Result.error (@checkWebsite MiniRegExp_engine StaticSite_browser
                          Scenario.consultancy Scenario.bare) = None) as Herr
    by (vm_compute; reflexivity).
  destruct (@C5_all_relevant_missing MiniRegExp_engine StaticSite_browser
              Scenario.consultancy Scenario.bare Herr) as (Hall & Hmanual).
  assert (Result.allRelevantPoliciesMissing
            (@checkWebsite MiniRegExp_engine StaticSite_browser
               Scenario.consultancy Scenario.bare) = true) as Hflag.
  { apply Hall. intros p Hrel.
    destruct p; try (vm_compute in Hrel; discriminate Hrel);
      eexists; (split; [vm_compute; reflexivity | reflexivity]). }
  split; [exact Herr|]. split; [exact Hflag | exact (proj2 Hmanual Hflag)].
Defined.

Lemma C8_witness :
  isProprietorship (entityType Scenario.namelessProprietor) = true
  ∧ default "" (legalNameRaw Scenario.namelessProprietor) = ""
  ∧ Result.complianceStatus (@checkWebsite MiniRegExp_engine StaticSite_browser
                               Scenario.namelessProprietor Scenario.studio) = FAIL
  ∧ Result.missingPolicies (@checkWebsite MiniRegExp_engine StaticSite_browser
                              Scenario.namelessProprietor Scenario.studio) = [].
Proof.
  split; [vm_compute; reflexivity|]. split; [reflexivity|].
  destruct (@C8_empty_legal_name MiniRegExp_engine StaticSite_browser
              Scenario.namelessProprietor Scenario.studio) as (Hfail & _ & Hnil);
    [vm_compute; reflexivity | reflexivity |].
  split; [exact Hfail|]. apply Hnil.
  intros p Hrel. apply presentOf_true.
  destruct p; try (vm_compute in Hrel; discriminate Hrel); vm_compute; reflexivity.
Defined.

Lemma C10_witness :
  (@page_goto StaticSite_browser (website Scenario.unreachable) Scenario.studio).1
  = Throw "net::ERR_NAME_NOT_RESOLVED"
  ∧ Result.error (@checkWebsite MiniRegExp_engine StaticSite_browser
                    Scenario.unreachable Scenario.studio)
    = Some "Failed to load website"
  ∧ ManualCheckingRequired (@checkWebsite MiniRegExp_engine StaticSite_browser
                              Scenario.unreachable Scenario.studio) = "NO".
Proof.
  split; [vm_compute; reflexivity|].
  destruct (@C10_homepage_not_loaded MiniRegExp_engine StaticSite_browser
              Scenario.unreachable Scenario.studio "net::ERR_NAME_NOT_RESOLVED")
    as (Herr & _ & _ & _ & _ & Hmanual); [vm_compute; reflexivity|].
  split; [exact Herr | exact Hmanual].
Defined.

Lemma C1_witness :
  followed privacy Scenario.cookieLink = true
  ∧ containsAny (normalize (Some "Choose your cookies"))
      (pageKeywords (POLICY_CONFIG privacy)) = false
  ∧ @forOf StaticSite_browser _ [Scenario.cookieLink; Scenario.policyLink]
      (@primaryLink MiniRegExp_engine StaticSite_browser Scenario.shopkeeper privacy)
      Scenario.shopLoaded
    = @forOf StaticSite_browser _ [Scenario.policyLink]
        (@primaryLink MiniRegExp_engine StaticSite_browser Scenario.shopkeeper privacy)
        (@visited StaticSite_browser privacy Scenario.cookieLink
           (Some "Choose your cookies")
           (StaticSite.goto "https://shop.example/cookies" (page Scenario.shopLoaded)).2
           Scenario.shopLoaded).
Proof.
  assert (followed privacy Scenario.cookieLink = true) as Hf by (vm_compute; reflexivity).
  assert (containsAny (normalize (Some "Choose your cookies"))
            (pageKeywords (POLICY_CONFIG privacy)) = false) as Hk
    by (vm_compute; reflexivity).
  split; [exact Hf|]. split; [exact Hk|].
  refine (proj1 (@C1_scan_continues_after_failed_page MiniRegExp_engine StaticSite_browser
             Scenario.shopkeeper privacy Scenario.cookieLink [Scenario.policyLink]
             Scenario.shopLoaded
             (StaticSite.goto "https://shop.example/cookies" (page Scenario.shopLoaded)).2
             (StaticSite.goto "https://shop.example/cookies" (page Scenario.shopLoaded)).2
             (Some "Choose your cookies") Hf _ _) Hk); vm_compute; reflexivity.
Defined.

Lemma C4_witness :
  (∃ answer,
     @containsLegalName MiniRegExp_engine (Cases.offsets 180) "Quincy John Doe"
     = Normal answer
     ∧ answer = true)
  ∧ (∃ answer,
       @containsLegalName MiniRegExp_engine (Cases.offsets 200) "Quincy John Doe"
       = Normal answer
       ∧ answer = false).
Proof.
  assert (namePartsOf (cleanName "Quincy John Doe") = ["quincy"; "john"; "doe"]) as Hparts
    by (vm_compute; reflexivity).
  assert (∀ n, (n = 180 ∨ n = 200)%nat →
    ∃ answer,
      @containsLegalName MiniRegExp_engine (Cases.offsets n) "Quincy John Doe"
      = Normal answer
      ∧ (∀ firstPart lastPart i j,
           Some "john" = Some firstPart → Some "doe" = Some lastPart →
           firstOccurrence (Text.toLowerCase (Cases.offsets n)) firstPart i →
           lastOccurrence (Text.toLowerCase (Cases.offsets n)) lastPart j →
           (Z.abs (j - i) = 180 → answer = true)
           ∧ (200 ≤ Z.abs (j - i) → answer = false))) as Hrun.
  { intros n Hn.
    destruct (@C4_proximity_strategy MiniRegExp_engine (Cases.offsets n) "Quincy John Doe"
                {| MiniRegExp.ignoreCase := true;
                   MiniRegExp.expr :=
                     match MiniRegExp.compile "\bquincy\s+john\s+doe\b" "i" with
                     | Normal re => MiniRegExp.expr re
                     | Throw _ => MiniRegExp.Eps
                     end |}
                (λ part, bool_decide (part ≠ "quincy")))
      as (answer & Heq & _ & Hbounds).
    - rewrite Hparts. simpl. lia.
    - vm_compute. reflexivity.
    - destruct Hn as [-> | ->]; vm_compute; reflexivity.
    - rewrite Hparts. intros part Hin.
      apply elem_of_cons in Hin as [->|Hin];
        [|apply elem_of_cons in Hin as [->|Hin];
          [|apply list_elem_of_singleton in Hin as ->]];
        eexists; (split; [vm_compute; reflexivity|]);
        destruct Hn as [-> | ->]; vm_compute; reflexivity.
    - rewrite Hparts. vm_compute. lia.
    - exists answer. split; [exact Heq|]. rewrite Hparts in Hbounds. exact Hbounds. }
  assert (∀ n, (n = 180 ∨ n = 200)%nat →
    firstOccurrence (Text.toLowerCase (Cases.offsets n)) "john" 0
    ∧ lastOccurrence (Text.toLowerCase (Cases.offsets n)) "doe" (Z.of_nat n)) as Hocc.
  { intros n Hn. split.
    - split; [|intros j Hj; by apply occursAt_nonneg in Hj].
      exists "", (" " +:+ Scenario.filler (n - 6) +:+ " doe").
      split; [|reflexivity]. destruct Hn as [-> | ->]; vm_compute; reflexivity.
    - split.
      + exists ("john " +:+ Scenario.filler (n - 6) +:+ " "), "".
        destruct Hn as [-> | ->]; (split; vm_compute; reflexivity).
      + intros j Hj. apply occursAt_bound in Hj.
        change (Z.of_nat (String.length "doe")) with 3 in Hj.
        destruct Hn as [-> | ->].
        * replace (Z.of_nat (String.length (Text.toLowerCase (Cases.offsets 180))))
            with 183 in Hj by (vm_compute; reflexivity). lia.
        * replace (Z.of_nat (String.length (Text.toLowerCase (Cases.offsets 200))))
            with 203 in Hj by (vm_compute; reflexivity). lia. }
  split.
  - destruct (Hrun 180%nat) as (answer & Heq & Hbounds); [by left|].
    destruct (Hocc 180%nat) as [Hfirst Hlast]; [by left|].
    exists answer. split; [exact Heq|].
    apply (Hbounds "john" "doe" 0 180 eq_refl eq_refl Hfirst Hlast). reflexivity.
  - destruct (Hrun 200%nat) as (answer & Heq & Hbounds); [by right|].
    destruct (Hocc 200%nat) as [Hfirst Hlast]; [by right|].
    exists answer. split; [exact Heq|].
    apply (Hbounds "john" "doe" 0 200 eq_refl eq_refl Hfirst Hlast). vm_compute.
    intros Hlt. discriminate Hlt.
Defined.


(** ** The documented examples, run on the model *)

Example determineMerchantType_examples :
  determineMerchantType (Some "Goods and Services") = goods
  ∧ determineMerchantType (Some "services") = services
  ∧ determineMerchantType (Some "") = goods
  ∧ determineMerchantType (Some "goods_services") = goods.
Proof. vm_compute. repeat split. Qed.

Example isProprietorship_examples :
  isProprietorship (Some "Sole Proprietorship") = true
  ∧ isProprietorship (Some "Private Limited") = false
  ∧ isProprietorship None = true.
Proof. vm_compute. repeat split. Qed.

Example containsLegalName_examples :
  (∀ pageText, @containsLegalName MiniRegExp_engine pageText "" = Normal false)
  ∧ @containsLegalName MiniRegExp_engine
      "This shop is operated by John Doe Traders LLC since 2019" "John Doe Traders LLC"
    = Normal true
  ∧ @containsLegalName MiniRegExp_engine "Johnson and Doering" "John Doe" = Normal false.
Proof. split; [intros pageText; reflexivity|]. vm_compute. split; reflexivity. Qed.

(** the offsets of the proximity test are those of the parts as strings: a
    part that also occurs inside a longer word is counted there, so that two
    parts that stand side by side as words may still be too far apart *)
Example proximity_counts_occurrences_inside_words :
  @partFound MiniRegExp_engine Cases.insideWords "ann" = Normal true
  ∧ @partFound MiniRegExp_engine Cases.insideWords "lee" = Normal true
  ∧ Text.indexOf Cases.insideWords "ann" = 0
  ∧ Text.lastIndexOf Cases.insideWords "lee" = 257
  ∧ @containsLegalName MiniRegExp_engine Cases.insideWords "Ann Lee" = Normal false.
Proof. vm_compute. repeat split. Qed.

(** * More of the program *)

(** ** [normalize] *)

Section Normalize.

Lemma toLowerChar_idem c : Text.toLowerChar (Text.toLowerChar c) = Text.toLowerChar c.
Proof. destruct c as [[] [] [] [] [] [] [] []]; vm_compute; reflexivity. Qed.

Lemma toLowerChar_space c :
  Text.isWhiteSpace (Text.toLowerChar c) = Text.isWhiteSpace c.
Proof. destruct c as [[] [] [] [] [] [] [] []]; vm_compute; reflexivity. Qed.

Lemma toLowerCase_lowered s : allChars lowered (Text.toLowerCase s) = true.
Proof.
  induction s as [|c s IH]; simpl; [done|]. rewrite IH, andb_true_r.
  apply bool_decide_eq_true. apply toLowerChar_idem.
Qed.

Lemma toLowerCase_fixed s : allChars lowered s = true → Text.toLowerCase s = s.
Proof.
  induction s as [|c s IH]; simpl; [done|]. intros [Hc Hs]%andb_true_iff.
  apply bool_decide_eq_true in Hc. by rewrite Hc, (IH Hs).
Qed.

Lemma allChars_app p a b :
  allChars p (a +:+ b) = allChars p a && allChars p b.
Proof. induction a as [|c a IH]; simpl; [done|]. by rewrite IH, andb_assoc. Qed.

Lemma replaceRuns_allChars p rep b s :
  allChars p rep = true → allChars p s = true →
  allChars p (Text.replaceRuns rep b s) = true.
Proof.
  intros Hrep. revert b. induction s as [|c s IH]; intros b; simpl; [done|].
  intros [Hc Hs]%andb_true_iff. destruct (Text.isWhiteSpace c).
  - destruct b; [by apply IH|]. rewrite allChars_app, Hrep. by apply IH.
  - simpl. rewrite Hc. by apply IH.
Qed.

Lemma trimStart_allChars p s :
  allChars p s = true → allChars p (Text.trimStart s) = true.
Proof.
  induction s as [|c s IH]; simpl; [done|]. intros Hcs.
  destruct (Text.isWhiteSpace c); [|done].
  apply andb_true_iff in Hcs as [_ Hs]. by apply IH.
Qed.

Lemma trimEnd_allChars p s :
  allChars p s = true → allChars p (Text.trimEnd s) = true.
Proof.
  induction s as [|c s IH]; simpl; [done|]. intros [Hc Hs]%andb_true_iff.
  destruct (_ && _); [done|]. simpl. by rewrite Hc, IH.
Qed.

Lemma replaceRuns_singleSpaced b s :
  singleSpaced b (Text.replaceRuns " " b s) = true.
Proof.
  revert b. induction s as [|c s IH]; intros b; simpl; [done|].
  destruct (Text.isWhiteSpace c) eqn:Hc.
  - destruct b; [apply IH|]. simpl. apply IH.
  - simpl. rewrite Hc. apply IH.
Qed.

Lemma singleSpaced_weaken b s : singleSpaced b s = true → singleSpaced false s = true.
Proof.
  destruct s as [|c s]; simpl; [done|]. destruct (Text.isWhiteSpace c); [|done].
  destruct b; [|done]. rewrite andb_false_r. done.
Qed.

Lemma trimStart_singleSpaced b s :
  singleSpaced b s = true → singleSpaced false (Text.trimStart s) = true.
Proof.
  revert b. induction s as [|c s IH]; intros b; simpl; [done|].
  destruct (Text.isWhiteSpace c) eqn:Hc.
  - intros [_ Hs]%andb_true_iff. by apply (IH true).
  - intros Hs. simpl. by rewrite Hc.
Qed.

Lemma trimEnd_singleSpaced b s :
  singleSpaced b s = true → singleSpaced b (Text.trimEnd s) = true.
Proof.
  revert b. induction s as [|c s IH]; intros b; simpl; [done|].
  destruct (Text.isWhiteSpace c) eqn:Hc; simpl.
  - intros [Hb Hs]%andb_true_iff. destruct (Text.isEmpty (Text.trimEnd s)); [done|].
    simpl. rewrite Hc, Hb. by apply IH.
  - intros Hs. rewrite Hc. by apply IH.
Qed.

Lemma singleSpaced_fixed b s :
  singleSpaced b s = true → Text.replaceRuns " " b s = s.
Proof.
  revert b. induction s as [|c s IH]; intros b; simpl; [done|].
  destruct (Text.isWhiteSpace c).
  - intros [[Hc Hb]%andb_true_iff Hs]%andb_true_iff.
    apply bool_decide_eq_true in Hc as ->. apply negb_true_iff in Hb as ->.
    simpl. by rewrite (IH true Hs).
  - intros Hs. by rewrite (IH false Hs).
Qed.

Lemma trimEnd_idem s : Text.trimEnd (Text.trimEnd s) = Text.trimEnd s.
Proof.
  induction s as [|c s IH]; simpl; [done|].
  destruct (Text.isWhiteSpace c && Text.isEmpty (Text.trimEnd s)) eqn:Hd; [done|].
  simpl. by rewrite IH, Hd.
Qed.

Lemma trimStart_inked s : isInk (firstChar (Text.trimStart s)) = true.
Proof.
  induction s as [|c s IH]; simpl; [done|].
  destruct (Text.isWhiteSpace c) eqn:Hc; [done|]. simpl. by rewrite Hc.
Qed.

Lemma trimEnd_first s :
  isInk (firstChar s) = true → isInk (firstChar (Text.trimEnd s)) = true.
Proof.
  destruct s as [|c s]; simpl; [done|]. intros Hc.
  apply negb_true_iff in Hc. rewrite Hc. simpl. by rewrite Hc.
Qed.

Lemma trimStart_fixed s : isInk (firstChar s) = true → Text.trimStart s = s.
Proof.
  destruct s as [|c s]; simpl; [done|]. intros Hc.
  apply negb_true_iff in Hc. by rewrite Hc.
Qed.

Lemma trimEnd_last s : isInk (lastChar (Text.trimEnd s)) = true.
Proof.
  induction s as [|c s IH]; simpl; [done|].
  destruct (Text.isWhiteSpace c) eqn:Hc; simpl.
  - destruct (Text.trimEnd s) as [|d t] eqn:Ht; simpl; [done|].
    simpl in IH. destruct (lastChar t); done.
  - destruct (lastChar (Text.trimEnd s)) eqn:Hl; [done|]. simpl. by rewrite Hc.
Qed.

Lemma trim_fixed s :
  isInk (firstChar (Text.trim s)) = true
  ∧ isInk (lastChar (Text.trim s)) = true
  ∧ Text.trim (Text.trim s) = Text.trim s.
Proof.
  unfold Text.trim. pose proof (trimEnd_first _ (trimStart_inked s)) as Hf.
  split; [done|]. split; [apply trimEnd_last|].
  rewrite (trimStart_fixed _ Hf). apply trimEnd_idem.
Qed.

Lemma singleSpaced_no_double b s :
  singleSpaced b s = true → Text.includes s "  " = false.
Proof.
  revert b. induction s as [|c s IH]; intros b; [done|].
  intros Hs. cbn [Text.includes]. apply orb_false_iff. split.
  - simpl. destruct (decide (" "%char = c)) as [<-|Hne].
    + simpl in Hs. apply andb_true_iff in Hs as [_ Hs].
      destruct s as [|d s]; [done|]. simpl in Hs.
      rewrite bool_decide_eq_true_2 by done. simpl.
      destruct (decide (" "%char = d)) as [<-|Hd]; [done|].
      by rewrite bool_decide_eq_false_2.
    + by rewrite bool_decide_eq_false_2.
  - simpl in Hs. destruct (Text.isWhiteSpace c).
    + apply andb_true_iff in Hs as [_ Hs]. by apply (IH true).
    + by apply (IH false).
Qed.

Lemma singleSpaced_spaceOrInk b s :
  singleSpaced b s = true → allChars spaceOrInk s = true.
Proof.
  revert b. induction s as [|c s IH]; intros b; simpl; [done|].
  unfold spaceOrInk at 1. destruct (Text.isWhiteSpace c); simpl.
  - intros [[-> _]%andb_true_iff Hs]%andb_true_iff. by apply (IH true).
  - by apply (IH false).
Qed.

Lemma isEmpty_trimEnd s : Text.isEmpty (Text.trimEnd s) = allWhite s.
Proof.
  induction s as [|c s IH]; simpl; [done|]. rewrite <- IH.
  destruct (Text.isWhiteSpace c), (Text.isEmpty (Text.trimEnd s)); done.
Qed.

Lemma allWhite_trimStart s : allWhite (Text.trimStart s) = allWhite s.
Proof.
  induction s as [|c s IH]; simpl; [done|].
  destruct (Text.isWhiteSpace c) eqn:Hc; simpl; [done|]. by rewrite Hc.
Qed.

Lemma allWhite_replaceRuns b s : allWhite (Text.replaceRuns " " b s) = allWhite s.
Proof.
  revert b. induction s as [|c s IH]; intros b; simpl; [done|].
  destruct (Text.isWhiteSpace c) eqn:Hc; simpl.
  - destruct b; [apply IH|]. simpl. apply IH.
  - by rewrite Hc.
Qed.

Lemma allWhite_toLowerCase s : allWhite (Text.toLowerCase s) = allWhite s.
Proof.
  induction s as [|c s IH]; simpl; [done|]. by rewrite toLowerChar_space, IH.
Qed.

Lemma isEmpty_normalize s : Text.isEmpty (normalize (Some s)) = allWhite s.
Proof.
  unfold normalize, Text.trim, Text.replaceWhiteSpace. simpl.
  by rewrite isEmpty_trimEnd, allWhite_trimStart, allWhite_replaceRuns,
    allWhite_toLowerCase.
Qed.

Lemma blank_allWhite s :
  Text.isEmpty s || Text.isEmpty (Text.trim s) = allWhite s.
Proof.
  unfold Text.trim. rewrite isEmpty_trimEnd, allWhite_trimStart.
  destruct s; [done|]. done.
Qed.

Lemma normalize_shape (s : option string) :
  allChars lowered (normalize s) = true
  ∧ singleSpaced false (normalize s) = true
  ∧ isInk (firstChar (normalize s)) = true
  ∧ isInk (lastChar (normalize s)) = true.
Proof.
  unfold normalize.
  destruct (trim_fixed (Text.replaceWhiteSpace " " (Text.toLowerCase (default "" s))))
    as (Hf & Hl & _).
  split; [|split; [|done]].
  - unfold Text.trim. apply trimEnd_allChars, trimStart_allChars.
    apply replaceRuns_allChars; [done|apply toLowerCase_lowered].
  - unfold Text.trim. apply trimEnd_singleSpaced, (trimStart_singleSpaced false).
    apply replaceRuns_singleSpaced.
Qed.

Lemma normalize_fixed (s : option string) :
  normalize (Some (normalize s)) = normalize s.
Proof.
  destruct (normalize_shape s) as (Hlow & Hsp & Hf & Hl).
  unfold normalize at 1. simpl.
  rewrite (toLowerCase_fixed _ Hlow). unfold Text.replaceWhiteSpace.
  rewrite (singleSpaced_fixed _ _ Hsp).
  unfold normalize. apply trim_fixed.
Qed.

Lemma startsWith_app text k k' :
  Text.startsWith text (k +:+ k') = true → Text.startsWith text k = true.
Proof.
  revert text. induction k as [|c k IH]; intros text; [by destruct text|].
  destruct text as [|d text]; simpl; [done|].
  intros [Hc Hs]%andb_true_iff. rewrite Hc. simpl. by apply IH.
Qed.

Lemma includes_app text k k' :
  Text.includes text (k +:+ k') = true → Text.includes text k = true.
Proof.
  induction text as [|c text IH]; cbn [Text.includes].
  - rewrite !orb_false_r. apply startsWith_app.
  - intros [Hs|Hi]%orb_true_iff; apply orb_true_iff;
      [left; by apply (startsWith_app _ k k') | right; by apply IH].
Qed.

End Normalize.

(** X1: [normalize] is idempotent: a text that is normalized already is
    left as it is. *)
Theorem X1_normalize_idempotent (s : option string) :
  normalize (Some (normalize s)) = normalize s.
Proof. apply normalize_fixed. Qed.

(** X2: a normalized text has no character that lower-casing would change
    and no white space other than the space, never two spaces in a row, and
    no space at either end. *)
Theorem X2_normalize_shape (s : option string) :
  Text.toLowerCase (normalize s) = normalize s
  ∧ allChars spaceOrInk (normalize s) = true
  ∧ Text.includes (normalize s) "  " = false
  ∧ isInk (firstChar (normalize s)) = true
  ∧ isInk (lastChar (normalize s)) = true.
Proof.
  destruct (normalize_shape s) as (Hlow & Hsp & Hf & Hl).
  split; [by apply toLowerCase_fixed|].
  split; [by apply (singleSpaced_spaceOrInk false)|].
  split; [by apply (singleSpaced_no_double false)|]. done.
Qed.

(** X3: the matcher reads the legal name through [normalize] only: the
    case of its letters and the white space in and around it make no
    difference, whatever the engine and the page. *)
Theorem X3_legal_name_read_normalized `{RegExpEngine} (pageText legalName : string) :
  containsLegalName pageText (normalize (Some legalName))
  = containsLegalName pageText legalName.
Proof.
  unfold containsLegalName, cleanName. rewrite normalize_fixed.
  rewrite !blank_allWhite.
  destruct (allWhite legalName) eqn:Hw.
  - rewrite (normalize_white legalName Hw). done.
  - assert (allWhite (normalize (Some legalName)) = false) as ->; [|done].
    destruct (normalize_shape (Some legalName)) as (_ & _ & Hf & _).
    pose proof (isEmpty_normalize legalName) as He. rewrite Hw in He.
    destruct (normalize (Some legalName)) as [|c t]; [done|].
    simpl in *. apply negb_true_iff in Hf. by rewrite Hf.
Qed.

(** X4: a merchant type or an entity type made of white space only is not
    read as an absent one: the merchant is taken for a services merchant
    that is no proprietorship, whereas the absent and the empty input give
    a goods merchant that is a proprietorship. *)
Theorem X4_blank_classification (s : string) :
  s ≠ "" → allWhite s = true →
  determineMerchantType (Some s) = services
  ∧ isProprietorship (Some s) = false
  ∧ determineMerchantType (Some "") = goods
  ∧ determineMerchantType None = goods
  ∧ isProprietorship (Some "") = true
  ∧ isProprietorship None = true.
Proof.
  intros Hne Hw. unfold determineMerchantType, isProprietorship.
  rewrite (normalize_white s Hw). destruct s; [done|]. done.
Qed.

Lemma X4_witness :
  "   " ≠ "" ∧ allWhite "   " = true
  ∧ determineMerchantType (Some "   ") = services
  ∧ isProprietorship (Some "   ") = false.
Proof.
  split; [discriminate|]. split; [reflexivity|].
  destruct (X4_blank_classification "   ") as (Ht & Hp & _);
    [discriminate | reflexivity |].
  split; [exact Ht | exact Hp].
Defined.

(** X5: for the returns, refund and cancellation policies the longer page
    keywords add nothing: a page passes the keyword test exactly when it
    contains "return", "refund" or "cancel"; the same holds of the anchor
    hints of returns and cancellation. *)
Theorem X5_longer_keywords_redundant (t : string) :
  containsAny t (pageKeywords (POLICY_CONFIG returns)) = Text.includes t "return"
  ∧ containsAny t (pageKeywords (POLICY_CONFIG refund)) = Text.includes t "refund"
  ∧ containsAny t (pageKeywords (POLICY_CONFIG cancellation)) = Text.includes t "cancel"
  ∧ containsAny t (anchorHints (POLICY_CONFIG returns)) = Text.includes t "return"
  ∧ containsAny t (anchorHints (POLICY_CONFIG cancellation)) = Text.includes t "cancel".
Proof.
  assert (∀ k k', Text.includes t (k +:+ k') = true → Text.includes t k = true) as Hp
    by (intros; by eapply includes_app).
  unfold containsAny. simpl. rewrite !orb_false_r.
  pose proof (Hp "return" " policy") as H1. pose proof (Hp "return" "s policy") as H2.
  pose proof (Hp "refund" " policy") as H3.
  pose proof (Hp "cancel" "lation policy") as H4. pose proof (Hp "cancel" "lation") as H5.
  pose proof (Hp "cancel" "ling") as H6. pose proof (Hp "return" "s") as H7.
  simpl in H1, H2, H3, H4, H5, H6, H7.
  repeat split;
    repeat match goal with
           | |- context [Text.includes t ?k] =>
               lazymatch goal with
               | H : Text.includes t k = _ |- _ => fail
               | _ => destruct (Text.includes t k) eqn:?
               end
           end; simpl; try done; intuition congruence.
Qed.

(** ** Audits by invariant *)

Section ByInvariant.
Context `{RegExpEngine} `{Browser}.
Variable args : Args.
Variables I F : Result.t → Prop.

Hypothesis at_start : I (initialResult args).
Hypothesis through_passes : ∀ links, triple I (passes args links) (λ _, I) I.
Hypothesis through_final : triple I (finalEvaluation args) (λ _, F) I.

(** the result of an audit is the one of a home page that failed, or a
    result of the passes with an error, or a result of the final evaluation *)
Lemma audit_by_invariant :
  triple (λ r, r = initialResult args) (audit args)
    (λ _ r, r = homepageFailure args ∨ F r) I.
Proof.
  unfold audit. tbind ok. destruct ok; simpl.
  - tbind rawLinks.
    tbind u. { eapply triple_pre; [|apply through_passes]. intros r ->. exact at_start. }
    eapply triple_conseq; [| apply through_final | |]; [done|auto|done].
  - apply (triple_modify _ _ (λ r, r = homepageFailure args ∨ F r)).
    intros r ->. by left.
Qed.

(** the result of an audit is the one of a home page that failed, or a
    result of the passes with an error, or a result of the final evaluation *)
Lemma checkWebsite_by_invariant (pg : Page) :
  checkWebsite args pg = homepageFailure args
  ∨ (∃ msg r, I r ∧ checkWebsite args pg = Result.setError (Some msg) r)
  ∨ F (checkWebsite args pg).
Proof.
  assert (triple (λ r, r = initialResult args)
            (try_catch (audit args) (λ msg, modify (Result.setError (Some msg))))
            (λ _ r, r = homepageFailure args
                    ∨ (∃ msg r0, I r0 ∧ r = Result.setError (Some msg) r0)
                    ∨ F r) (λ _, False)) as Ht.
  { eapply triple_try_catch.
    - eapply triple_conseq; [| apply audit_by_invariant | |]; [done| |done].
      intros _ r [?|?]; auto.
    - intros msg. apply (triple_modify _ _ (λ r, _ ∨ _ ∨ _)).
      intros r Hr. right. left. eauto. }
  specialize (Ht (initialState args pg) eq_refl).
  unfold checkWebsite, checkWebsiteRun.
  destruct (try_catch _ _ _) as [[[]|msg] s']; simpl; [done|done].
Qed.

End ByInvariant.

Section MoreTriples.
Context `{Browser}.

Lemma triple_conj {A} (m : M A) (P : Result.t → Prop) Q1 Q2 E1 E2 :
  triple P m Q1 E1 → triple P m Q2 E2 →
  triple P m (λ a r, Q1 a r ∧ Q2 a r) (λ r, E1 r ∧ E2 r).
Proof.
  intros H1 H2 s Hs. specialize (H1 s Hs). specialize (H2 s Hs).
  destruct (m s) as [[a|msg] s']; done.
Qed.

(** the result at the start may be named *)
Lemma triple_ghost {A} (m : M A) (P : Result.t → Prop) Q E :
  (∀ r0, triple (λ r, P r ∧ r = r0) m Q E) → triple P m Q E.
Proof. intros Hm s Hs. by apply (Hm (result s) s). Qed.

End MoreTriples.

(** ** The sources of the found policies *)

Section Sources.
Context `{RegExpEngine} `{Browser}.
Variable args : Args.

Lemma containsAny_empty p : containsAny "" (pageKeywords (POLICY_CONFIG p)) = false.
Proof. by destruct p. Qed.

Lemma Sourced_initial : Sourced (initialResult args).
Proof.
  intros p e. rewrite initial_lookup. intros [= <-]. unfold initialEntry.
  by destruct (isPolicyRelevant p (merchantType args)).
Qed.

Lemma Sourced_insert r p e :
  Sourced r →
  (if present e then truthy (url e) = true ∧ truthy (pageText e) = true
   else url e = None ∧ pageText e = None) →
  Sourced (Result.setPolicies (<[p := e]> (Result.policies r)) r).
Proof.
  intros Hr He q e'. simpl. destruct (decide (p = q)) as [<-|Hne].
  - rewrite lookup_insert_eq. by intros [= <-].
  - rewrite lookup_insert_ne by done. apply Hr.
Qed.

Lemma Sourced_legal r v u : Sourced r → Sourced (Result.setLegalName v u r).
Proof. intros Hr. exact Hr. Qed.

Lemma noteLegalName_Sourced t u :
  triple Sourced (noteLegalName args t u) (λ _, Sourced) Sourced.
Proof. apply noteLegalName_keeps. intros r u' text Hr _ _ _. exact Hr. Qed.

Lemma primaryLink_Sourced policy link :
  triple Sourced (primaryLink args policy link) (λ _, Sourced) Sourced.
Proof.
  unfold primaryLink.
  destruct (Text.isEmpty (href link) || Text.isEmpty (text link)) eqn:Hne; [tret|].
  destruct (negb _); [tret|].
  tbind ok. destruct ok; simpl; [|tret].
  tbind body. tbind u.
  destruct (containsAny _ _) eqn:Hkey; [|tret].
  tbind u1.
  { apply (triple_modify _ _ Sourced). intros r Hr. apply Sourced_insert; [done|].
    simpl. apply orb_false_iff in Hne as [-> _]. split; [done|].
    destruct (normalize body); [by rewrite containsAny_empty in Hkey|done]. }
  tbind u2. { apply noteLegalName_Sourced. }
  tbind back. tret.
Qed.

Lemma primaryPass_Sourced links :
  triple Sourced (primaryPass args links) (λ _, Sourced) Sourced.
Proof.
  unfold primaryPass. apply triple_forOf. intros policy _. unfold primaryPolicy.
  destruct (negb _); [tret|].
  tbind u. { apply triple_forOf. intros link _. apply primaryLink_Sourced. }
  tret.
Qed.

Lemma presentSources_Sourced :
  triple Sourced (presentSources args)
    (λ sources r, Sourced r
       ∧ ∀ src, In src sources →
           truthy (url src) = true ∧ truthy (pageText src) = true)
    Sourced.
Proof.
  intros s Hs. simpl. split; [done|]. intros src Hin.
  apply filter_In in Hin as [Hin Hp]. apply andb_true_iff in Hp as [Hp _].
  apply list_elem_of_In, list_elem_of_omap in Hin as (p & _ & Hl).
  specialize (Hs p src Hl). by rewrite Hp in Hs.
Qed.

Lemma resolveFromSource_Sourced policy source :
  truthy (url source) = true ∧ truthy (pageText source) = true →
  triple Sourced (resolveFromSource args policy source) (λ _, Sourced) Sourced.
Proof.
  intros Hsrc. unfold resolveFromSource.
  destruct (containsAny _ _); [|tret].
  tbind u1.
  { apply (triple_modify _ _ Sourced). intros r Hr. by apply Sourced_insert. }
  tbind u2. { apply noteLegalName_Sourced. }
  tret.
Qed.

Lemma groupResolution_Sourced :
  triple Sourced (groupResolution args) (λ _, Sourced) Sourced.
Proof.
  unfold groupResolution. apply triple_forOf. intros i _. unfold groupRound.
  tbind sources. { apply presentSources_Sourced. }
  destruct (_ =? _)%nat; [tret|].
  apply (triple_assume (∀ src, In src sources →
           truthy (url src) = true ∧ truthy (pageText src) = true)); [weaken|].
  intros Hsrc.
  tbind u; [|apply triple_ret; intros r Hr; exact Hr].
  tuse (triple_forOf (GROUP args) (resolvePolicy args sources) Sourced Sourced).
  intros policy _. unfold resolvePolicy.
  destruct (negb _); [tret|].
  tbind e. destruct (present e); [tret|].
  tbind u; [|apply triple_ret; intros r Hr; exact Hr].
  tuse (triple_forOf sources (resolveFromSource args policy) Sourced Sourced).
  intros source Hin. apply resolveFromSource_Sourced, Hsrc. by apply list_elem_of_In.
Qed.

Lemma passes_Sourced links :
  triple Sourced (passes args links) (λ _, Sourced) Sourced.
Proof.
  unfold passes.
  tbind u1. { apply primaryPass_Sourced. }
  tbind u2. { apply groupResolution_Sourced. }
  tbind u3. { apply verification_keeps. intros r text Hr _ _. exact Hr. }
  apply comprehensiveSearch_keeps. intros r u text Hr _ _ _. exact Hr.
Qed.

End Sources.

(** ** What the final evaluation reports *)

Section Report.
Context `{RegExpEngine} `{Browser}.
Variable args : Args.
Variable pr : Policy → bool.
Variable lp : LegalNamePresence.

Lemma Halfway_insert r p e :
  Halfway r →
  (if present e
   then truthy (url e) = true ∧ (truthy (pageText e) = true ∨ pageText e = None)
   else url e = None ∧ pageText e = None) →
  Halfway (Result.setPolicies (<[p := e]> (Result.policies r)) r).
Proof.
  intros Hr He q e'. simpl. destruct (decide (p = q)) as [<-|Hne].
  - rewrite lookup_insert_eq. by intros [= <-].
  - rewrite lookup_insert_ne by done. apply Hr.
Qed.

Lemma Sourced_Halfway r : Sourced r → Halfway r.
Proof.
  intros Hr p e He. specialize (Hr p e He). destruct (present e); [|done].
  destruct Hr. auto.
Qed.

(** an update of the outcome of [p] that keeps [present] and [url], and
    keeps or deletes [pageText] *)
Lemma Evaluation_update done tail r p e e' :
  Evaluation args pr lp done tail r →
  Result.policies r !! p = Some e →
  present e' = present e → url e' = url e →
  pageText e' = pageText e ∨ pageText e' = None →
  Evaluation args pr lp done tail (Result.setPolicies (<[p := e']> (Result.policies r)) r).
Proof.
  intros (Hk & Hp & Hl & Hm & Hh & Hc) He Hpe Hu Ht.
  split; [|split; [|split; [|split; [|split]]]]; simpl; try done.
  - intros q. destruct (decide (p = q)) as [<-|Hne].
    + rewrite lookup_insert_eq. eauto.
    + rewrite lookup_insert_ne by done. apply Hk.
  - intros q. rewrite <- Hp. by apply presentOf_update with (e := e).
  - apply Halfway_insert; [done|]. specialize (Hh p e He). rewrite Hpe, Hu.
    destruct (present e); destruct Ht as [->| ->]; intuition.
  - intros q Hq Hrel e1. simpl. destruct (decide (p = q)) as [<-|Hne].
    + rewrite lookup_insert_eq. intros [= <-].
      destruct Ht as [->| ->]; [|done]. by apply (Hc p Hq Hrel).
    + rewrite lookup_insert_ne by done. by apply (Hc q Hq Hrel).
Qed.

Lemma Evaluation_flags done tail r f :
  Result.policies (f r) = Result.policies r →
  Result.legalNamePresent (f r) = Result.legalNamePresent r →
  Result.missingPolicies (f r) = Result.missingPolicies r →
  Evaluation args pr lp done tail r → Evaluation args pr lp done tail (f r).
Proof.
  intros Hp Hl Hm (Hk & Hpr & Hlp & Hmi & Hh & Hc).
  unfold Evaluation, presentOf, Halfway, Cleared in *. rewrite Hp, Hl, Hm. done.
Qed.

Lemma evaluatePolicy_Evaluation done policy :
  triple (Evaluation args pr lp done [])
    (evaluatePolicy args policy)
    (λ c r, c = Continue ∧ Evaluation args pr lp (done ++ [policy]) [] r) (λ _, True).
Proof.
  unfold evaluatePolicy.
  destruct (isPolicyRelevant policy (merchantType args)) eqn:Hrel; simpl.
  2:{ apply triple_ret. intros r (Hk & Hp & Hl & Hm & Hh & Hc).
      split; [done|]. split; [done|]. split; [done|]. split; [done|]. split; [|split; [exact Hh|]].
      - rewrite Hm, List.filter_app. simpl. rewrite Hrel. simpl. by rewrite !app_nil_r.
      - intros q [Hq|Hq]%elem_of_app Hq'; [by apply Hc|].
        apply list_elem_of_singleton in Hq as ->. congruence. }
  set (mid := λ r : Result.t,
    Evaluation args pr lp done
      (if pr policy then [] else [policyKey policy]) r).
  eapply triple_bind.
  { apply triple_getPolicy_total. intros r Hev. apply Hev. }
  intros e. cbv beta.
  eapply triple_bind with (Q' := λ _, mid).
  { destruct (present e) eqn:Hpe; simpl.
    - apply triple_ret. intros r (Hev & He). unfold mid.
      destruct Hev as (Hk & Hp & Hrest). rewrite <- Hp. unfold presentOf.
      rewrite He, Hpe. by split.
    - eapply triple_bind with
        (Q' := λ _ r, mid r ∧ Result.policies r !! policy = Some e).
      { apply (triple_modify _ _ (λ r, mid r ∧ Result.policies r !! policy = Some e)).
        intros r ((Hk & Hp & Hl & Hm & Hh & Hc) & He). split; [|done].
        unfold mid. rewrite <- Hp. unfold presentOf at 1. rewrite He, Hpe.
        split; [done|]. split; [done|]. split; [done|]. split; [|done].
        simpl. by rewrite Hm, app_nil_r. }
      intros _. eapply triple_bind.
      { apply triple_getPolicy_total. intros r (Hev & _). apply Hev. }
      intros e'. apply (triple_modify _ _ mid).
      intros r ((Hev & He) & He'). assert (e' = e) as -> by congruence.
      apply (Evaluation_update _ _ r policy e); auto. }
  intros _. eapply triple_bind.
  { apply triple_getPolicy_total. intros r Hev. apply Hev. }
  intros e1. cbv beta.
  assert (∀ r e2, mid r → Result.policies r !! policy = Some e2 → pageText e2 = None →
            Evaluation args pr lp (done ++ [policy]) [] r) as Hdone.
  { intros r e2 (Hk & Hp & Hl & Hm & Hh & Hc) He2 Hnone.
    split; [done|]. split; [done|]. split; [done|]. split; [|split; [exact Hh|]].
    - rewrite Hm, List.filter_app, map_app, !app_nil_r. simpl. rewrite Hrel. simpl.
      by destruct (pr policy).
    - intros q [Hq|Hq]%elem_of_app Hq'; [by apply Hc|].
      apply list_elem_of_singleton in Hq as ->. intros e3 He3. congruence. }
  eapply triple_bind with (Q' := λ _, Evaluation args pr lp (done ++ [policy]) []);
    [|intros; apply triple_ret; auto].
  (* the pending test of [pageText] *)
  destruct (truthy (pageText e1)) eqn:Ht.
  - eapply triple_bind.
    { apply triple_getPolicy_total. intros r (Hev & _). apply Hev. }
    intros e2. apply (triple_modify _ _ (Evaluation args pr lp (done ++ [policy]) [])).
    intros r ((Hev & He1) & He2).
    apply (Hdone _ (deletePageText e2)); [|by apply lookup_insert_eq|done].
    apply (Evaluation_update _ _ r policy e2); auto.
  - apply triple_ret. intros r (Hev & He1). apply (Hdone r e1 Hev He1).
    destruct Hev as (_ & _ & _ & _ & Hh & _). specialize (Hh policy e1 He1).
    destruct (present e1); [|by destruct Hh].
    destruct Hh as [_ [Hh|Hh]]; [congruence|done].
Qed.

Lemma evaluation_loop xs : ∀ done,
  triple (Evaluation args pr lp done [])
    (forOf xs (evaluatePolicy args))
    (λ _, Evaluation args pr lp (done ++ xs) []) (λ _, True).
Proof.
  induction xs as [|x xs IH]; intros done; simpl.
  - apply triple_ret. intros r Hr. by rewrite app_nil_r.
  - eapply triple_bind; [apply evaluatePolicy_Evaluation|].
    intros c. cbv beta.
    apply (triple_assume (c = Continue)); [intros r [Hc _]; exact Hc|]. intros ->.
    eapply triple_conseq; [|apply (IH (done ++ [x]))|..]; [by intros r [_ Hr]| |done].
    intros u r. by rewrite <- app_assoc.
Qed.

Lemma Evaluation_tail done r l :
  Evaluation args pr lp done [] r →
  Evaluation args pr lp done [l]
    (Result.setMissingPolicies (Result.missingPolicies r ++ [l]) r).
Proof.
  intros (Hk & Hp & Hl & Hm & Hh & Hc).
  split; [done|]. split; [done|]. split; [done|]. split; [|split; [exact Hh|exact Hc]].
  simpl. by rewrite Hm, app_nil_r.
Qed.

Lemma finalEvaluation_Evaluation :
  triple (Evaluation args pr lp [] [])
    (finalEvaluation args)
    (λ _, Evaluation args pr lp (ORDER args)
            (if isProprietorEntity args && bool_decide (lp = LegalFalse)
                && negb (Text.isEmpty (legalName args))
             then ["legal name"] else []))
    (λ _, True).
Proof.
  unfold finalEvaluation.
  set (tail := if isProprietorEntity args && bool_decide (lp = LegalFalse)
                  && negb (Text.isEmpty (legalName args))
               then ["legal name"] else []).
  set (J := Evaluation args pr lp (ORDER args) tail).
  eapply triple_bind; [apply (evaluation_loop (ORDER args) [])|]. intros ?. cbv beta.
  tbind isFalse.
  eapply triple_bind with (Q' := λ _, J).
  { apply (triple_assume (isFalse = bool_decide (lp = LegalFalse))).
    { intros r ((_ & _ & <- & _) & ->). done. }
    intros ->. unfold J, tail.
    destruct (isProprietorEntity args && bool_decide (lp = LegalFalse)
              && negb (Text.isEmpty (legalName args))).
    - apply (triple_modify _ _ (Evaluation args pr lp (ORDER args) ["legal name"])).
      intros r (Hev & _). by apply Evaluation_tail.
    - apply triple_ret. by intros r (Hev & _). }
  intros ?. cbv beta.
  eapply triple_bind with (Q' := λ _, J).
  { apply triple_filterM. intros p.
    eapply triple_conseq; [|apply (isPresent_keeps p J)|..]; done. }
  intros found. cbv beta.
  eapply triple_bind with (Q' := λ _, J).
  { apply (triple_modify _ _ J). intros r Hr.
    by apply (Evaluation_flags _ _ r (Result.setAllRelevantPoliciesMissing _)). }
  intros ?. cbv beta.
  eapply triple_bind with (Q' := λ _, J).
  { apply triple_everyM. intros p.
    destruct (negb (isPolicyRelevant p _)); [apply triple_ret; intros r Hr; exact Hr|].
    eapply triple_conseq; [|apply (isPresent_keeps p J)|..]; done. }
  intros allRelevantPoliciesPresent. cbv beta.
  eapply triple_bind with (Q' := λ _, J).
  { eapply triple_conseq; [|apply (triple_legalNameIs LegalTrue J (λ _, True))|..];
      [done|by intros b r [Hr _]|done]. }
  intros isTrue. cbv beta.
  destruct (allRelevantPoliciesPresent && _).
  - apply (triple_modify _ _ J). intros r Hr.
    by apply (Evaluation_flags _ _ r (Result.setComplianceStatus PASS)).
  - apply triple_ret. intros r Hr. exact Hr.
Qed.

End Report.

Section Reports.
Context `{RegExpEngine} `{Browser}.
Variable args : Args.

Lemma Evaluation_start r :
  Inv args r → Sourced r →
  Evaluation args (presentOf r) (Result.legalNamePresent r) [] [] r.
Proof.
  intros (Hc & _ & Hm) Hs.
  split; [intros p; by apply (Core_keys args)|]. split; [done|]. split; [done|].
  split; [by rewrite Hm|]. split; [by apply Sourced_Halfway|].
  intros p Hp. by apply not_elem_of_nil in Hp.
Qed.

Lemma Evaluation_Reported r0 r :
  Evaluated args r →
  Evaluation args (presentOf r0) (Result.legalNamePresent r0) (ORDER args)
    (if isProprietorEntity args && bool_decide (Result.legalNamePresent r0 = LegalFalse)
        && negb (Text.isEmpty (legalName args))
     then ["legal name"] else []) r →
  Reported args r.
Proof.
  intros Hev (Hk & Hp & Hl & Hm & Hh & Hc). split; [done|]. split.
  - intros p e He. specialize (Hh p e He).
    destruct (isPolicyRelevant p (merchantType args)) eqn:Hrel.
    + assert (pageText e = None) as Hnone.
      { apply (Hc p); [|done..]. by apply list_elem_of_In, relevant_in_ORDER. }
      split; [|done]. destruct (present e); by destruct Hh.
    + destruct (core_entries _ _ (evaluated_core _ _ Hev) p) as (e' & He' & Hok).
      unfold EntryOk in Hok. rewrite Hrel in Hok.
      assert (e = notRelevantEntry) as -> by congruence. done.
  - rewrite Hm. unfold expectedMissing, legalNameWanted. rewrite Hl.
    f_equal. f_equal. apply filter_ext. intros p. by rewrite Hp.
Qed.

Lemma finalEvaluation_Reported :
  triple (λ r, Inv args r ∧ Sourced r) (finalEvaluation args)
    (λ _, Reported args) (λ r, Inv args r ∧ Sourced r).
Proof.
  apply triple_ghost. intros r0.
  assert (triple (λ r, (Inv args r ∧ Sourced r) ∧ r = r0) (finalEvaluation args)
            (λ _, Evaluated args) (λ _, False)) as H1.
  { eapply triple_pre; [|apply finalEvaluation_Evaluated]. by intros r ((Hi & _) & _). }
  pose proof (finalEvaluation_Evaluation args (presentOf r0) (Result.legalNamePresent r0))
    as H2.
  eapply triple_pre with (P := λ r, (Inv args r ∧ Sourced r) ∧ r = r0) in H2.
  2:{ intros r ((Hi & Hs) & ->). by apply Evaluation_start. }
  pose proof (triple_conj _ _ _ _ _ _ H1 H2) as H3.
  eapply triple_conseq; [|exact H3|..].
  - intros r Hr. exact Hr.
  - intros u r (Hev & Hr). by apply (Evaluation_Reported r0).
  - by intros r ([] & _).
Qed.

Lemma passes_Inv_Sourced links :
  triple (λ r, Inv args r ∧ Sourced r) (passes args links)
    (λ _ r, Inv args r ∧ Sourced r) (λ r, Inv args r ∧ Sourced r).
Proof.
  assert (triple (λ r, Inv args r ∧ Sourced r) (passes args links)
            (λ _, Inv args) (Inv args)) as H1.
  { eapply triple_pre; [|apply passes_Inv]. by intros r [Hi _]. }
  assert (triple (λ r, Inv args r ∧ Sourced r) (passes args links)
            (λ _, Sourced) Sourced) as H2.
  { eapply triple_pre; [|apply passes_Sourced]. by intros r [_ Hs]. }
  exact (triple_conj _ _ _ _ _ _ H1 H2).
Qed.

End Reports.

(** ** Invariants on the legal name alone *)

Section LegalFrame.
Context `{RegExpEngine} `{Browser}.
Variable args : Args.
Variable L : Result.t → Prop.

Hypothesis L_frame : ∀ r r',
  Result.legalNamePresent r' = Result.legalNamePresent r →
  Result.legalNameURL r' = Result.legalNameURL r → L r → L r'.

Hypothesis L_initial : L (initialResult args).

Hypothesis L_true : ∀ r u text,
  L r → isProprietorEntity args = true → legalName args ≠ "" →
  containsLegalName text (legalName args) = Normal true →
  L (Result.setLegalName LegalTrue u r).

Hypothesis L_false : ∀ r text,
  L r → isProprietorEntity args = true →
  containsLegalName text (legalName args) = Normal false →
  L (Result.setLegalName LegalFalse None r).

Lemma passes_legal links : triple L (passes args links) (λ _, L) L.
Proof.
  apply passes_keeps.
  - intros r policy u t Hr Hrel. by apply (L_frame r).
  - exact L_true.
  - exact L_false.
Qed.

Lemma evaluatePolicy_legal policy :
  triple L (evaluatePolicy args policy) (λ _, L) L.
Proof.
  unfold evaluatePolicy.
  destruct (isPolicyRelevant policy (merchantType args)) eqn:Hrel in |- *; simpl; [|tret].
  tbind e.
  eapply triple_bind with (Q' := λ _, L).
  { destruct (present e); simpl; [tret|].
    eapply triple_bind with (Q' := λ _, L).
    { apply (triple_modify _ _ L). intros r (Hr & _). by apply (L_frame r). }
    intros u. tbind e'. apply (triple_modify _ _ L).
    intros r (Hr & _). by apply (L_frame r). }
  intros u. tbind e1.
  eapply triple_bind with (Q' := λ _, L); [|intros; tret].
  destruct (truthy (pageText e1)); [|tret].
  tbind e2. apply (triple_modify _ _ L).
  intros r ((Hr & _) & Hl). by apply (L_frame r).
Qed.

Lemma finalEvaluation_legal :
  triple L (finalEvaluation args) (λ _, L) L.
Proof.
  unfold finalEvaluation.
  tbind u. { apply triple_forOf. intros policy _. apply evaluatePolicy_legal. }
  tbind isFalse.
  eapply triple_bind with (Q' := λ _, L).
  { destruct (isProprietorEntity args && isFalse && _); [|tret].
    apply (triple_modify _ _ L). intros r (Hr & _). by apply (L_frame r). }
  intros u0.
  tbind found. { apply triple_filterM. intros p. apply isPresent_keeps. }
  tbind u1. { apply (triple_modify _ _ L). intros r Hr. by apply (L_frame r). }
  tbind allRelevantPoliciesPresent.
  { apply triple_everyM. intros p.
    destruct (negb (isPolicyRelevant p _)); [tret | apply isPresent_keeps]. }
  tbind isTrue. destruct (allRelevantPoliciesPresent && _); [|tret].
  apply (triple_modify _ _ L). intros r (Hr & _). by apply (L_frame r).
Qed.

(** The result of an audit, with what it reports about the policies and
    what is known of the legal name all along. *)
Lemma checkWebsite_report (pg : Page) :
  checkWebsite args pg = homepageFailure args
  ∨ (∃ msg r, ((Inv args r ∧ Sourced r) ∧ L r)
              ∧ checkWebsite args pg = Result.setError (Some msg) r)
  ∨ (Reported args (checkWebsite args pg) ∧ L (checkWebsite args pg)).
Proof.
  apply (checkWebsite_by_invariant args (λ r, (Inv args r ∧ Sourced r) ∧ L r)
           (λ r, Reported args r ∧ L r)).
  - split; [split; [apply Inv_initial|apply Sourced_initial]|done].
  - intros links.
    assert (triple (λ r, (Inv args r ∧ Sourced r) ∧ L r) (passes args links)
              (λ _ r, Inv args r ∧ Sourced r) (λ r, Inv args r ∧ Sourced r)) as H1.
    { eapply triple_pre; [|apply passes_Inv_Sourced]. by intros r [Hi _]. }
    assert (triple (λ r, (Inv args r ∧ Sourced r) ∧ L r) (passes args links)
              (λ _, L) L) as H2.
    { eapply triple_pre; [|apply passes_legal]. by intros r [_ Hs]. }
    exact (triple_conj _ _ _ _ _ _ H1 H2).
  - assert (triple (λ r, (Inv args r ∧ Sourced r) ∧ L r) (finalEvaluation args)
              (λ _, Reported args) (λ r, Inv args r ∧ Sourced r)) as H1.
    { eapply triple_pre; [|apply finalEvaluation_Reported]. by intros r [Hi _]. }
    assert (triple (λ r, (Inv args r ∧ Sourced r) ∧ L r) (finalEvaluation args)
              (λ _, L) L) as H2.
    { eapply triple_pre; [|apply finalEvaluation_legal]. by intros r [_ Hs]. }
    exact (triple_conj _ _ _ _ _ _ H1 H2).
Qed.

End LegalFrame.

Section LocatedName.
Context `{RegExpEngine} `{Browser}.
Variable args : Args.

Lemma checkWebsite_Located (pg : Page) :
  checkWebsite args pg = homepageFailure args
  ∨ (∃ msg r, ((Inv args r ∧ Sourced r) ∧ Located r)
              ∧ checkWebsite args pg = Result.setError (Some msg) r)
  ∨ (Reported args (checkWebsite args pg) ∧ Located (checkWebsite args pg)).
Proof.
  apply checkWebsite_report.
  - intros r r' Hl Hu Hr. unfold Located. by rewrite Hl, Hu.
  - done.
  - intros r u text Hr _ _ _ Hne. by destruct Hne.
  - intros r text Hr _ _ _. done.
Qed.

End LocatedName.

(** ** Properties of the reported result *)

Section ReportedResult.
Context `{RegExpEngine} `{Browser}.
Variable args : Args.

Lemma expectedMissing_nil r :
  expectedMissing args r = []
  ↔ (∀ p, isPolicyRelevant p (merchantType args) = true → presentOf r p = true)
    ∧ legalNameWanted args r = false.
Proof.
  unfold expectedMissing. split.
  - intros [Hm Ht]%app_eq_nil. split.
    + intros p Hrel. destruct (presentOf r p) eqn:Hp; [done|].
      apply map_eq_nil in Hm.
      assert (In p []) as []. rewrite <- Hm. apply filter_In.
      split; [by apply relevant_in_ORDER|]. by rewrite Hrel, Hp.
    + by destruct (legalNameWanted args r).
  - intros [Hall ->]. rewrite app_nil_r.
    replace (List.filter _ (ORDER args)) with (@nil Policy); [done|].
    symmetry. induction (ORDER args) as [|p ps IH]; [done|]. simpl.
    destruct (isPolicyRelevant p (merchantType args)) eqn:Hrel; [|done].
    by rewrite (Hall p Hrel).
Qed.

(** an audit that ended with an error has no missing item *)
Lemma missing_of_error (pg : Page) :
  Result.error (checkWebsite args pg) ≠ None →
  Result.missingPolicies (checkWebsite args pg) = [].
Proof.
  intros Herr.
  destruct (checkWebsite_cases args pg) as [_ [Hr|[(msg & r0 & Hinv & Hr)|Hev]]].
  - by rewrite Hr.
  - rewrite Hr. simpl. by destruct Hinv as (_ & _ & Hm).
  - by destruct (core_error _ _ (evaluated_core _ _ Hev)).
Qed.

Lemma reported_of_no_error (pg : Page) :
  Result.error (checkWebsite args pg) = None →
  Reported args (checkWebsite args pg) ∧ Located (checkWebsite args pg).
Proof.
  intros Herr.
  destruct (checkWebsite_Located args pg) as [Hr|[(msg & r0 & _ & Hr)|Hrep]];
    [by rewrite Hr in Herr..|done].
Qed.

(** what every result says about the legal name *)
Lemma checkWebsite_legal (pg : Page) :
  Result.isProprietorship (checkWebsite args pg) = isProprietorEntity args
  ∧ (Result.legalNamePresent (checkWebsite args pg) = LegalNotRelevant
     ↔ isProprietorEntity args = false)
  ∧ Located (checkWebsite args pg).
Proof.
  destruct (checkWebsite_Located args pg)
    as [Hr|[(msg & r0 & ((Hinv & _) & Hloc) & Hr)|[(Hev & _) Hloc]]].
  - rewrite Hr. simpl. split; [done|]. split; [|done].
    unfold isProprietorEntity. by destruct (isProprietorship (entityType args)).
  - rewrite Hr. destruct Hinv as ([_ Hp Hn _ _] & _). done.
  - destruct (evaluated_core _ _ Hev) as [_ Hp Hn _ _]. done.
Qed.

End ReportedResult.

(** X6: the list of missing items of a completed audit is exact: it holds
    the keys of the relevant policies that are not present, once each and
    in the order of the checklist, followed by "legal name" when the
    merchant is a proprietorship with a non-empty legal name that was not
    found; an audit that ended with an error lists no missing item. *)
Theorem X6_missing_items_exact `{RegExpEngine} `{Browser} (args : Args) (pg : Page) :
  Result.missingPolicies (checkWebsite args pg)
  = match Result.error (checkWebsite args pg) with
    | None => expectedMissing args (checkWebsite args pg)
    | Some _ => []
    end.
Proof.
  destruct (Result.error (checkWebsite args pg)) as [msg|] eqn:Herr.
  - apply missing_of_error. by rewrite Herr.
  - by destruct (reported_of_no_error args pg Herr) as ((_ & _ & Hm) & _).
Qed.

(** X7: in every result, a policy that is present has the status FOUND and
    a non-empty URL, and a policy that is not present has another status and
    no URL; the cached page texts are gone from the result of a completed
    audit. *)
Theorem X7_policy_outcomes `{RegExpEngine} `{Browser} (args : Args) (pg : Page)
    (p : Policy) :
  ∃ e, Result.policies (checkWebsite args pg) !! p = Some e
       ∧ (present e = true → status e = FOUND ∧ truthy (url e) = true)
       ∧ (present e = false → status e ≠ FOUND ∧ url e = None)
       ∧ (Result.error (checkWebsite args pg) = None → pageText e = None).
Proof.
  assert (∀ r, Core args r → Halfway r →
    ∃ e, Result.policies r !! p = Some e
         ∧ (present e = true → status e = FOUND ∧ truthy (url e) = true)
         ∧ (present e = false → status e ≠ FOUND ∧ url e = None)) as Hgen.
  { intros r Hc Hh. destruct (core_entries _ _ Hc p) as (e & He & Hok).
    exists e. split; [done|]. specialize (Hh p e He). unfold EntryOk in Hok.
    destruct (isPolicyRelevant p (merchantType args)).
    - destruct Hok as [[Hp Hs]|[Hp Hs]]; rewrite Hp in Hh |- *; rewrite Hs;
        (split; [intros Ht|intros Hf]); try done; by destruct Hh.
    - rewrite Hok. done. }
  destruct (checkWebsite_Located args pg)
    as [Hr|[(msg & r0 & ((Hinv & Hs) & _) & Hr)|[(Hev & Hpub & _) _]]].
  - rewrite Hr.
    destruct (Hgen (initialResult args)) as (e & He & H1 & H2).
    + by destruct (Inv_initial args).
    + apply Sourced_Halfway, Sourced_initial.
    + exists e. split; [exact He|]. split; [exact H1|]. split; [exact H2|].
      intros Herr. discriminate Herr.
  - rewrite Hr. destruct (Hgen r0) as (e & He & H1 & H2).
    + by destruct Hinv.
    + by apply Sourced_Halfway.
    + exists e. split; [exact He|]. split; [exact H1|]. split; [exact H2|].
      intros Herr. discriminate Herr.
  - destruct (Hgen (checkWebsite args pg)) as (e & He & H1 & H2).
    + apply (evaluated_core _ _ Hev).
    + intros q e' He'. destruct (Hpub q e' He') as [Hu ->].
      destruct (present e'); auto.
    + exists e. split; [done|]. split; [done|]. split; [done|].
      intros _. by destruct (Hpub p e He).
Qed.

(** X8: unless the merchant is a proprietorship without a legal name, a
    completed audit passes exactly when its list of missing items is
    empty. *)
Theorem X8_pass_iff_nothing_missing `{RegExpEngine} `{Browser} (args : Args) (pg : Page) :
  Result.error (checkWebsite args pg) = None →
  isProprietorship (entityType args) = false ∨ default "" (legalNameRaw args) ≠ "" →
  Result.complianceStatus (checkWebsite args pg) = PASS
  ↔ Result.missingPolicies (checkWebsite args pg) = [].
Proof.
  intros Herr Hname.
  destruct (reported_of_no_error args pg Herr) as ((Hev & _ & Hm) & _).
  split; [by apply (Evaluated_missing_nil args)|].
  rewrite Hm. intros [Hall Hw]%expectedMissing_nil.
  rewrite (evaluated_compliance _ _ Hev).
  apply (allPresent_spec args) in Hall. rewrite Hall. simpl.
  replace (legalNameOk args (checkWebsite args pg)) with true; [done|].
  symmetry. unfold legalNameOk. unfold legalNameWanted in Hw.
  destruct (isProprietorEntity args) eqn:Hp; [|done]. simpl in *.
  destruct Hname as [Hname|Hname]; [unfold isProprietorEntity in Hp; congruence|].
  replace (Text.isEmpty (legalName args)) with false in Hw.
  2:{ unfold legalName. by destruct (default "" (legalNameRaw args)). }
  rewrite andb_true_r in Hw. apply bool_decide_eq_false in Hw.
  apply bool_decide_eq_true.
  destruct (Result.legalNamePresent (checkWebsite args pg)) eqn:Hlp; [done|done|].
  apply (core_not_relevant _ _ (evaluated_core _ _ Hev)) in Hlp. congruence.
Qed.

(** X9: in every result the column LegalNameStatus agrees with
    [legalNamePresent]: FOUND for [true], MISSING for [false] and
    NOT RELEVANT for "NOT RELEVANT"; and a URL of the legal name is reported
    only when the status is FOUND. *)
Theorem X9_legal_name_columns `{RegExpEngine} `{Browser} (args : Args) (pg : Page) :
  LegalNameStatus (checkWebsite args pg)
  = match Result.legalNamePresent (checkWebsite args pg) with
    | LegalTrue => "FOUND"
    | LegalFalse => "MISSING"
    | LegalNotRelevant => "NOT RELEVANT"
    end
  ∧ (LegalNameStatus (checkWebsite args pg) ≠ "FOUND" →
     LegalNameURL (checkWebsite args pg) = None).
Proof.
  destruct (checkWebsite_legal args pg) as (Hp & Hn & Hloc).
  unfold LegalNameStatus, LegalNameURL. rewrite Hp.
  destruct (Result.legalNamePresent (checkWebsite args pg)) eqn:Hlp.
  - destruct (isProprietorEntity args); [done|]. discriminate (proj2 Hn eq_refl).
  - rewrite Hloc by (rewrite Hlp; done).
    destruct (isProprietorEntity args); [done|]. discriminate (proj2 Hn eq_refl).
  - rewrite (proj1 Hn eq_refl), Hloc by (rewrite Hlp; done). done.
Qed.

(** X10: an email is generated for a row exactly when the audit completed,
    the row has an email address, something is missing and at least one
    relevant policy was found; in particular never for an audit that ended
    with an error, and never together with manual checking. *)
Theorem X10_email_decision `{RegExpEngine} `{Browser} (args : Args) (pg : Page)
    (merchantEmail : string) :
  (emailDue (checkWebsite args pg) merchantEmail = true
   ↔ Result.error (checkWebsite args pg) = None
     ∧ merchantEmail ≠ ""
     ∧ Result.missingPolicies (checkWebsite args pg) ≠ []
     ∧ ∃ p e, isPolicyRelevant p (merchantType args) = true
              ∧ Result.policies (checkWebsite args pg) !! p = Some e
              ∧ present e = true)
  ∧ (ManualCheckingRequired (checkWebsite args pg) = "YES" →
     EmailGenerated (checkWebsite args pg) merchantEmail = "NO").
Proof.
  split.
  2:{ unfold ManualCheckingRequired, EmailGenerated, emailDue.
      destruct (Result.allRelevantPoliciesMissing _); [|done].
      by rewrite andb_false_r. }
  unfold emailDue. rewrite !andb_true_iff, bool_decide_eq_true, !negb_true_iff.
  rewrite Nat.ltb_lt. split.
  - intros (((Hfail & Hall) & Hmail) & Hlen).
    assert (Result.missingPolicies (checkWebsite args pg) ≠ []) as Hmiss.
    { intros Hnil. rewrite Hnil in Hlen. simpl in Hlen. lia. }
    destruct (Result.error (checkWebsite args pg)) as [msg|] eqn:Herr.
    { destruct Hmiss. apply missing_of_error. by rewrite Herr. }
    split; [done|]. split; [by destruct merchantEmail|]. split; [done|].
    destruct (reported_of_no_error args pg Herr) as ((Hev & _ & _) & _).
    rewrite (evaluated_allMissing _ _ Hev) in Hall.
    apply Nat.eqb_neq in Hall.
    destruct (foundRelevant args (checkWebsite args pg)) as [|p ps] eqn:Hfound; [done|].
    assert (In p (foundRelevant args (checkWebsite args pg))) as Hin
      by (rewrite Hfound; left; done).
    unfold foundRelevant in Hin. apply filter_In in Hin as [Hin Hp].
    apply filter_In in Hin as [_ Hrel]. apply presentOf_true in Hp as (e & He & Hpe).
    eauto.
  - intros (Herr & Hmail & Hmiss & p & e & Hrel & He & Hpe).
    destruct (reported_of_no_error args pg Herr) as ((Hev & _ & _) & _).
    split; [split; [split|]|].
    + destruct (Result.complianceStatus (checkWebsite args pg)) eqn:Hc; [|done].
      destruct Hmiss. by apply (Evaluated_missing_nil args).
    + destruct (Result.allRelevantPoliciesMissing (checkWebsite args pg)) eqn:Hall; [|done].
      rewrite (evaluated_allMissing _ _ Hev) in Hall.
      pose proof (proj1 (foundRelevant_spec args _) Hall p Hrel) as Hnot.
      clear Hall. rename Hnot into Hall.
      unfold presentOf in Hall. rewrite He in Hall. congruence.
    + by destruct merchantEmail.
    + destruct (Result.missingPolicies (checkWebsite args pg)); [done|simpl; lia].
Qed.

(** ** The engine of regular expressions is needed for named proprietorships only *)

Section EngineIndependence.
Context (E1 E2 : RegExpEngine) `{Browser}.
Variable args : Args.

Lemma passes_engine :
  isProprietorEntity args = false ∨ legalName args = "" →
  @passes E1 _ args = @passes E2 _ args.
Proof.
  intros [Hp|Hn];
    unfold passes, primaryPass, primaryPolicy, primaryLink, groupResolution, groupRound,
      resolvePolicy, resolveFromSource, noteLegalName, verification, comprehensiveSearch,
      searchPageType, searchLink, searchHomepage, searchVisited;
    [rewrite Hp | rewrite Hn]; reflexivity.
Qed.

End EngineIndependence.

(** X11: unless the merchant is a proprietorship with a non-empty legal
    name, the result of the audit does not depend on the engine of regular
    expressions: no expression that the engine refuses, or matches in its
    own way, can touch it. *)
Theorem X11_engine_only_for_named_proprietors (E1 E2 : RegExpEngine) `{Browser}
    (args : Args) (pg : Page) :
  isProprietorship (entityType args) = false ∨ default "" (legalNameRaw args) = "" →
  @checkWebsite E1 _ args pg = @checkWebsite E2 _ args pg.
Proof.
  intros Hcase. unfold checkWebsite, checkWebsiteRun, audit.
  by rewrite (passes_engine E1 E2 args Hcase).
Qed.

(** ** Legal names that clean to nothing *)

Section EmptiedName.
Context `{RegExpEngine} `{Browser}.
Variable args : Args.
Hypothesis proprietor : isProprietorEntity args = true.
Hypothesis emptied : cleanName (legalName args) = "".

Lemma emptied_never_found text : containsLegalName text (legalName args) = Normal false.
Proof.
  unfold containsLegalName. rewrite emptied.
  by destruct (Text.isEmpty (legalName args) || Text.isEmpty (Text.trim (legalName args))).
Qed.

Lemma checkWebsite_Absent (pg : Page) :
  checkWebsite args pg = homepageFailure args
  ∨ (∃ msg r, ((Inv args r ∧ Sourced r) ∧ Absent r)
              ∧ checkWebsite args pg = Result.setError (Some msg) r)
  ∨ (Reported args (checkWebsite args pg) ∧ Absent (checkWebsite args pg)).
Proof.
  apply checkWebsite_report.
  - intros r r' Hl Hu Hr. unfold Absent. by rewrite Hl.
  - unfold Absent. simpl. by rewrite proprietor.
  - intros r u text Hr _ _ Hc. rewrite emptied_never_found in Hc. discriminate Hc.
  - intros r text Hr _ _. done.
Qed.

End EmptiedName.

(** X12: a proprietorship whose legal name is not empty but cleans to
    nothing (white space only, or nothing but entity suffixes such as
    "Company Limited") never has its legal name found: the audit fails, and
    when it completes "legal name" is the last of its missing items. *)
Theorem X12_emptied_legal_name `{RegExpEngine} `{Browser} (args : Args) (pg : Page) :
  isProprietorship (entityType args) = true →
  default "" (legalNameRaw args) ≠ "" →
  cleanName (default "" (legalNameRaw args)) = "" →
  Result.complianceStatus (checkWebsite args pg) = FAIL
  ∧ Result.legalNamePresent (checkWebsite args pg) = LegalFalse
  ∧ (Result.error (checkWebsite args pg) = None →
     last (Result.missingPolicies (checkWebsite args pg)) = Some "legal name").
Proof.
  intros Hp Hn Hc.
  destruct (checkWebsite_Absent args Hp Hc pg)
    as [Hr|[(msg & r0 & ((Hinv & _) & Ha) & Hr)|[(Hev & _ & Hm) Ha]]].
  - rewrite Hr. split; [done|]. split; [|done].
    simpl. unfold isProprietorEntity. by rewrite Hp.
  - rewrite Hr. destruct Hinv as (_ & [Hf _] & _). done.
  - split; [|split; [done|]].
    + rewrite (evaluated_compliance _ _ Hev).
      unfold legalNameOk, isProprietorEntity. rewrite Hp, Ha. simpl.
      by rewrite andb_false_r.
    + intros _. rewrite Hm. unfold expectedMissing, legalNameWanted, isProprietorEntity.
      rewrite Hp, Ha. unfold legalName.
      replace (Text.isEmpty (default "" (legalNameRaw args))) with false
        by (by destruct (default "" (legalNameRaw args))).
      simpl. by rewrite last_snoc.
Qed.

(** ** Emails *)

Section Includes.

Lemma startsWith_self k rest : Text.startsWith (k +:+ rest) k = true.
Proof.
  induction k as [|c k IH]; [by destruct rest|]. simpl.
  rewrite bool_decide_eq_true_2 by done. exact IH.
Qed.

Lemma startsWith_prefix a b k :
  Text.startsWith a k = true → Text.startsWith (a +:+ b) k = true.
Proof.
  revert a. induction k as [|c k IH]; intros a; [intros _; by destruct (a +:+ b)|].
  destruct a as [|d a]; simpl; [done|].
  intros [Hc Hs]%andb_true_iff. rewrite Hc. simpl. by apply IH.
Qed.

Lemma startsWith_common a b k :
  Text.startsWith b k = true → Text.startsWith (a +:+ b) (a +:+ k) = true.
Proof.
  intros Hb. induction a as [|c a IH]; [done|].
  change (Text.startsWith (String c (a +:+ b)) (String c (a +:+ k)) = true).
  simpl. by rewrite bool_decide_eq_true_2.
Qed.

Lemma includes_prefix a b k :
  Text.includes a k = true → Text.includes (a +:+ b) k = true.
Proof.
  induction a as [|c a IH]; cbn [Text.includes].
  - rewrite orb_false_r. intros Hk. destruct k; [|done]. by destruct b.
  - intros [Hs|Hi]%orb_true_iff.
    + change (String c a +:+ b) with (String c (a +:+ b)).
      cbn [Text.includes]. apply orb_true_iff. left.
      by apply (startsWith_prefix (String c a) b k).
    + change (String c a +:+ b) with (String c (a +:+ b)).
      cbn [Text.includes]. apply orb_true_iff. right. by apply IH.
Qed.

Lemma includes_suffix a b k :
  Text.includes b k = true → Text.includes (a +:+ b) k = true.
Proof.
  intros Hb. induction a as [|c a IH]; [done|].
  change (String c a +:+ b) with (String c (a +:+ b)).
  cbn [Text.includes]. apply orb_true_iff. by right.
Qed.

Lemma includes_self k rest : Text.includes (k +:+ rest) k = true.
Proof.
  destruct (k +:+ rest) eqn:Hk; cbn [Text.includes]; rewrite <- Hk;
    by rewrite startsWith_self.
Qed.

Lemma append_empty k : k +:+ "" = k.
Proof.
  induction k as [|c k IH]; [done|].
  change (String c (k +:+ "") = String c k). by rewrite IH.
Qed.

Lemma includes_refl k : Text.includes k k = true.
Proof. pose proof (includes_self k "") as Hk. by rewrite append_empty in Hk. Qed.

Lemma includes_join sep xs x :
  In x xs → Text.includes (join sep xs) x = true.
Proof.
  induction xs as [|y ys IH]; [done|].
  intros [->|Hin].
  - destruct ys; simpl; [apply includes_refl|apply includes_self].
  - destruct ys as [|z zs]; [done|].
    change (join sep (y :: z :: zs)) with (y +:+ sep +:+ join sep (z :: zs)).
    apply includes_suffix, includes_suffix. by apply IH.
Qed.

End Includes.

Lemma displayNameOf_key (p : Policy) :
  Email.displayNameOf (policyKey p) = displayName (POLICY_CONFIG p).
Proof. by destruct p. Qed.

Lemma policyKey_other (p : Policy) : policyKey p ≠ "legal name".
Proof. by destruct p. Qed.

(** X13: the body of an email names, by the display name of the
    catalogue, every policy whose key is among the missing items handed to
    [generateEmailContent]. *)
Theorem X13_email_names_missing_policies (bullet : string) (year : nat)
    (website legalName merchantEmail : string) (missingPolicies : list string)
    (entityType : option string) (p : Policy) :
  policyKey p ∈ missingPolicies →
  Text.includes
    (Email.body (Email.generateEmailContent bullet year website legalName merchantEmail
                   missingPolicies entityType))
    (displayName (POLICY_CONFIG p)) = true.
Proof.
  intros Hin. unfold Email.generateEmailContent. cbn [Email.body].
  set (others := List.filter (λ p, bool_decide (p ≠ "legal name")) missingPolicies).
  assert (In (policyKey p) others) as Hp.
  { apply filter_In. split; [by apply list_elem_of_In|].
    apply bool_decide_eq_true_2, policyKey_other. }
  assert ((0 <? length others)%nat = true) as ->.
  { destruct others; [done|]. apply Nat.ltb_lt. simpl. lia. }
  do 3 apply includes_prefix. apply includes_suffix.
  unfold Email.policiesSection. do 5 apply includes_suffix.
  apply includes_prefix. apply includes_join.
  rewrite <- displayNameOf_key. by apply in_map.
Qed.

(** X14: when the audit lists the legal name as missing, the email made of
    its missing items greets the merchant by the legal name, which is not
    empty, and its body holds the section on the legal name. *)
Theorem X14_email_legal_name_section `{RegExpEngine} `{Browser} (bullet : string)
    (year : nat) (args : Args) (pg : Page) (merchantEmail : string) :
  "legal name" ∈ Result.missingPolicies (checkWebsite args pg) →
  legalName args ≠ ""
  ∧ Text.startsWith
      (Email.body (Email.generateEmailContent bullet year (website args) (legalName args)
                     merchantEmail (Result.missingPolicies (checkWebsite args pg))
                     (entityType args)))
      ("Dear " +:+ legalName args +:+ ",") = true
  ∧ Text.includes
      (Email.body (Email.generateEmailContent bullet year (website args) (legalName args)
                     merchantEmail (Result.missingPolicies (checkWebsite args pg))
                     (entityType args)))
      (Email.legalNameSection bullet year (legalName args)) = true.
Proof.
  intros Hin.
  assert (isProprietorEntity args = true ∧ legalName args ≠ "") as [Hp Hn].
  { destruct (checkWebsite_cases args pg) as [_ [Hr|[(msg & r0 & Hinv & Hr)|Hev]]].
    - rewrite Hr in Hin. by apply not_elem_of_nil in Hin.
    - rewrite Hr in Hin. destruct Hinv as (_ & _ & Hm). simpl in Hin.
      rewrite Hm in Hin. by apply not_elem_of_nil in Hin.
    - destruct (evaluated_missing _ _ Hev _ Hin) as [(p & Hk & _)|(_ & Hp & _ & Hn)].
      + symmetry in Hk. by apply policyKey_other in Hk.
      + done. }
  split; [done|].
  unfold Email.generateEmailContent. cbn [Email.body].
  rewrite (bool_decide_eq_true_2 _ Hin).
  unfold isProprietorEntity in Hp. rewrite Hp. cbn [andb].
  replace (Text.isEmpty (legalName args)) with false by (by destruct (legalName args)).
  split.
  - destruct (0 <? _)%nat;
      [do 7 apply startsWith_prefix | do 6 apply startsWith_prefix];
      do 2 apply startsWith_common; apply (startsWith_self ",").
  - destruct (0 <? _)%nat;
      [do 4 apply includes_prefix | do 3 apply includes_prefix];
      apply includes_suffix, includes_refl.
Qed.

(** ** The names of the email files *)

Section FileNames.

Lemma digits_of_uint (d : Decimal.uint) :
  allChars Email.isDigit (DecimalString.NilEmpty.string_of_uint d) = true.
Proof. induction d; simpl; done. Qed.

Lemma decimal_digits n : allChars Email.isDigit (decimal n) = true.
Proof. apply digits_of_uint. Qed.

Lemma decimal_inj n m : decimal n = decimal m → n = m.
Proof.
  unfold decimal. intros Heq.
  apply (f_equal DecimalString.NilEmpty.uint_of_string) in Heq.
  rewrite !DecimalString.NilEmpty.usu in Heq.
  injection Heq as Heq. apply (f_equal Nat.of_uint) in Heq.
  by rewrite !DecimalNat.Unsigned.of_to in Heq.
Qed.

(** a run of digits followed by an underscore is read back in one way *)
Lemma digits_then_underscore d1 d2 r1 r2 :
  allChars Email.isDigit d1 = true → allChars Email.isDigit d2 = true →
  d1 +:+ "_" +:+ r1 = d2 +:+ "_" +:+ r2 → d1 = d2 ∧ r1 = r2.
Proof.
  revert d2. induction d1 as [|c d1 IH]; intros [|c' d2] H1 H2 Heq.
  - change (String "_" r1 = String "_" r2) in Heq. by injection Heq as ->.
  - change (String "_" r1 = String c' (d2 +:+ "_" +:+ r2)) in Heq.
    injection Heq as <- _. simpl in H2. done.
  - change (String c (d1 +:+ "_" +:+ r1) = String "_" r2) in Heq.
    injection Heq as -> _. simpl in H1. done.
  - change (String c (d1 +:+ "_" +:+ r1) = String c' (d2 +:+ "_" +:+ r2)) in Heq.
    injection Heq as -> Heq. simpl in H1, H2.
    apply andb_true_iff in H1 as [_ H1]. apply andb_true_iff in H2 as [_ H2].
    destruct (IH d2 H1 H2 Heq) as [-> ->]. done.
Qed.

Lemma filename_inj w1 w2 i j :
  Email.filename w1 i = Email.filename w2 j → i = j.
Proof.
  unfold Email.filename. intros Heq.
  change ("email_" +:+ ?a) with (String "e" (String "m" (String "a" (String "i"
            (String "l" (String "_" a)))))) in Heq.
  injection Heq as Heq.
  apply digits_then_underscore in Heq as [Heq _]; [|apply decimal_digits..].
  apply decimal_inj in Heq. lia.
Qed.

Lemma toLowerChar_fileName c :
  Email.isFileNameChar
    (Text.toLowerChar (if Email.isAlphaNumeric c then c else "_"%char)) = true.
Proof.
  destruct c as [[] [] [] [] [] [] [] []]; vm_compute; reflexivity.
Qed.

Lemma safeWebsiteName_chars s :
  allChars Email.isFileNameChar (Text.toLowerCase (Email.replaceOthers s)) = true.
Proof.
  induction s as [|c s IH]; [done|]. simpl.
  rewrite IH, andb_true_r. apply toLowerChar_fileName.
Qed.

Lemma digit_fileName s :
  allChars Email.isDigit s = true → allChars Email.isFileNameChar s = true.
Proof.
  induction s as [|c s IH]; [done|]. simpl.
  intros [Hc Hs]%andb_true_iff. rewrite (IH Hs), andb_true_r.
  unfold Email.isFileNameChar. unfold Email.isDigit in Hc. rewrite Hc.
  by rewrite orb_true_r.
Qed.

End FileNames.

(** X15: the emails of two different rows are saved under different names,
    so that after both are saved each file holds the email of its row. *)
Theorem X15_email_files_kept (w1 w2 m1 m2 : string) (c1 c2 : Email.Content)
    (i j : nat) (emailDir : gmap string string) :
  i ≠ j →
  let saved1 := Email.saveEmailToFile w1 m1 c1 i emailDir in
  let saved2 := Email.saveEmailToFile w2 m2 c2 j saved1.2 in
  saved1.1 ≠ saved2.1
  ∧ saved2.2 !! saved1.1 = Some (Email.fullEmail m1 c1)
  ∧ saved2.2 !! saved2.1 = Some (Email.fullEmail m2 c2).
Proof.
  intros Hij. simpl.
  assert (Email.filename w1 i ≠ Email.filename w2 j) as Hne.
  { intros Heq. by apply filename_inj in Heq. }
  split; [done|]. split.
  - rewrite lookup_insert_ne by done. apply lookup_insert_eq.
  - apply lookup_insert_eq.
Qed.

(** X16: the name of an email file is made of lower-case letters, digits,
    underscores and dots only, whatever the website is, and the part that
    stands for the website has one character for each character of the
    website without its scheme. *)
Theorem X16_email_file_name_safe (website : string) (index : nat) :
  allChars Email.isFileNameChar (Email.filename website index) = true
  ∧ String.length (Email.safeWebsiteName website)
    = String.length (Email.stripScheme website).
Proof.
  split.
  - unfold Email.filename. rewrite !allChars_app.
    rewrite (digit_fileName _ (decimal_digits _)).
    unfold Email.safeWebsiteName. rewrite safeWebsiteName_chars. done.
  - unfold Email.safeWebsiteName.
    induction (Email.stripScheme website) as [|c s IH]; [done|].
    simpl. by rewrite IH.
Qed.

(** ** Audits by invariant, the links of the home page being known *)

Section ByLinks.
Context `{RegExpEngine} `{Browser}.
Variable args : Args.
Variables I F : list Link → Result.t → Prop.

Hypothesis at_start : ∀ rawLinks, I rawLinks (initialResult args).
Hypothesis through_passes : ∀ rawLinks,
  triple (I rawLinks) (passes args (map normalizeLink rawLinks))
    (λ _, I rawLinks) (I rawLinks).
Hypothesis through_final : ∀ rawLinks,
  triple (I rawLinks) (finalEvaluation args) (λ _, F rawLinks) (I rawLinks).

Lemma checkWebsite_by_links (pg : Page) :
  match page_goto (website args) pg with
  | (Throw _, _) => checkWebsite args pg = homepageFailure args
  | (Normal _, pg1) =>
      match page_anchors pg1 with
      | (Throw msg, _) =>
          checkWebsite args pg = Result.setError (Some msg) (initialResult args)
      | (Normal rawLinks, _) =>
          (∃ msg r, I rawLinks r ∧ checkWebsite args pg = Result.setError (Some msg) r)
          ∨ F rawLinks (checkWebsite args pg)
      end
  end.
Proof.
  unfold checkWebsite, checkWebsiteRun, try_catch, audit, bind, safeGoto,
    try_catch, bind, withPage, anchors, withPage. simpl.
  destruct (page_goto (website args) pg) as [[[]|msg0] pg1]; simpl; [|done].
  destruct (page_anchors pg1) as [[rawLinks|msg1] pg2]; simpl; [|done].
  set (s2 := {| result := initialResult args; visitedPages := []; page := pg2;
                navigations := [website args] |}).
  pose proof (through_passes rawLinks s2 (at_start rawLinks)) as Hp.
  destruct (passes args (map normalizeLink rawLinks) s2) as [[[]|msg2] s3]; simpl.
  - pose proof (through_final rawLinks s3 Hp) as Hf.
    destruct (finalEvaluation args s3) as [[[]|msg3] s4]; simpl; [by right|].
    left. eauto.
  - left. eauto.
Qed.

End ByLinks.

(** ** The found policies come from the links of the home page *)

Section Provenance.
Context `{RegExpEngine} `{Browser}.
Variable args : Args.
Variable links : list Link.

Lemma FromLinks_insert r p e :
  FromLinks links r →
  (present e = true → ∃ l, l ∈ links ∧ url e = Some (href l)) →
  FromLinks links (Result.setPolicies (<[p := e]> (Result.policies r)) r).
Proof.
  intros Hr He q e'. simpl. destruct (decide (p = q)) as [<-|Hne].
  - rewrite lookup_insert_eq. by intros [= <-].
  - rewrite lookup_insert_ne by done. apply Hr.
Qed.

Lemma primaryLink_FromLinks policy link :
  link ∈ links →
  triple (FromLinks links) (primaryLink args policy link)
    (λ _, FromLinks links) (FromLinks links).
Proof.
  intros Hin. unfold primaryLink.
  destruct (Text.isEmpty (href link) || Text.isEmpty (text link)); [tret|].
  destruct (negb _); [tret|].
  tbind ok. destruct ok; simpl; [|tret].
  tbind body. tbind u.
  destruct (containsAny _ _); [|tret].
  tbind u1.
  { apply (triple_modify _ _ (FromLinks links)). intros r Hr.
    apply FromLinks_insert; [done|]. intros _. by exists link. }
  tbind u2.
  { apply noteLegalName_keeps. intros r u' t Hr _ _ _. exact Hr. }
  tbind back. tret.
Qed.

Lemma presentSources_FromLinks :
  triple (FromLinks links) (presentSources args)
    (λ sources r, FromLinks links r
       ∧ ∀ src, In src sources → ∃ l, l ∈ links ∧ url src = Some (href l))
    (FromLinks links).
Proof.
  intros s Hs. simpl. split; [done|]. intros src Hin.
  apply filter_In in Hin as [Hin Hp]. apply andb_true_iff in Hp as [Hp _].
  apply list_elem_of_In, list_elem_of_omap in Hin as (p & _ & Hl).
  by apply (Hs p src Hl).
Qed.

Lemma resolveFromSource_FromLinks policy source :
  (∃ l, l ∈ links ∧ url source = Some (href l)) →
  triple (FromLinks links) (resolveFromSource args policy source)
    (λ _, FromLinks links) (FromLinks links).
Proof.
  intros Hsrc. unfold resolveFromSource.
  destruct (containsAny _ _); [|tret].
  tbind u1.
  { apply (triple_modify _ _ (FromLinks links)). intros r Hr.
    by apply FromLinks_insert. }
  tbind u2.
  { apply noteLegalName_keeps. intros r u' t Hr _ _ _. exact Hr. }
  tret.
Qed.

Lemma groupResolution_FromLinks :
  triple (FromLinks links) (groupResolution args)
    (λ _, FromLinks links) (FromLinks links).
Proof.
  unfold groupResolution. apply triple_forOf. intros i _. unfold groupRound.
  tbind sources. { apply presentSources_FromLinks. }
  destruct (_ =? _)%nat; [tret|].
  apply (triple_assume (∀ src, In src sources →
           ∃ l, l ∈ links ∧ url src = Some (href l))); [weaken|].
  intros Hsrc.
  tbind u; [|apply triple_ret; intros r Hr; exact Hr].
  tuse (triple_forOf (GROUP args) (resolvePolicy args sources)
          (FromLinks links) (FromLinks links)).
  intros policy _. unfold resolvePolicy.
  destruct (negb _); [tret|].
  tbind e. destruct (present e); [tret|].
  tbind u; [|apply triple_ret; intros r Hr; exact Hr].
  tuse (triple_forOf sources (resolveFromSource args policy)
          (FromLinks links) (FromLinks links)).
  intros source Hin. apply resolveFromSource_FromLinks, Hsrc. by apply list_elem_of_In.
Qed.

Lemma passes_FromLinks :
  triple (FromLinks links) (passes args links)
    (λ _, FromLinks links) (FromLinks links).
Proof.
  unfold passes.
  tbind u1.
  { unfold primaryPass. apply triple_forOf. intros policy _. unfold primaryPolicy.
    destruct (negb _); [tret|].
    tbind u. { apply triple_forOf. intros link Hin. by apply primaryLink_FromLinks. }
    tret. }
  tbind u2. { apply groupResolution_FromLinks. }
  tbind u3. { apply verification_keeps. intros r t Hr _ _. exact Hr. }
  apply comprehensiveSearch_keeps. intros r u t Hr _ _ _. exact Hr.
Qed.

Lemma FromLinks_update r p e e' :
  FromLinks links r → Result.policies r !! p = Some e →
  present e' = present e → url e' = url e →
  FromLinks links (Result.setPolicies (<[p := e']> (Result.policies r)) r).
Proof.
  intros Hr He Hp Hu. apply FromLinks_insert; [done|].
  rewrite Hp, Hu. exact (Hr p e He).
Qed.

Lemma evaluatePolicy_FromLinks policy :
  triple (FromLinks links) (evaluatePolicy args policy)
    (λ _, FromLinks links) (FromLinks links).
Proof.
  unfold evaluatePolicy.
  destruct (isPolicyRelevant policy (merchantType args)); simpl; [|tret].
  tbind e.
  eapply triple_bind with (Q' := λ _, FromLinks links).
  { destruct (present e); simpl; [tret|].
    eapply triple_bind with (Q' := λ _, FromLinks links).
    { apply (triple_modify _ _ (FromLinks links)). intros r (Hr & _). exact Hr. }
    intros u. tbind e'. apply (triple_modify _ _ (FromLinks links)).
    intros r (Hr & He). by apply (FromLinks_update r policy e'). }
  intros u. tbind e1.
  eapply triple_bind with (Q' := λ _, FromLinks links); [|intros; tret].
  destruct (truthy (pageText e1)); [|tret].
  tbind e2. apply (triple_modify _ _ (FromLinks links)).
  intros r ((Hr & _) & He). by apply (FromLinks_update r policy e2).
Qed.

Lemma finalEvaluation_FromLinks :
  triple (FromLinks links) (finalEvaluation args)
    (λ _, FromLinks links) (FromLinks links).
Proof.
  unfold finalEvaluation.
  tbind u. { apply triple_forOf. intros policy _. apply evaluatePolicy_FromLinks. }
  tbind isFalse.
  eapply triple_bind with (Q' := λ _, FromLinks links).
  { destruct (isProprietorEntity args && isFalse && _); [|tret].
    apply (triple_modify _ _ (FromLinks links)). intros r (Hr & _). exact Hr. }
  intros u0.
  tbind found. { apply triple_filterM. intros p. apply isPresent_keeps. }
  tbind u1. { apply (triple_modify _ _ (FromLinks links)). intros r Hr. exact Hr. }
  tbind allRelevantPoliciesPresent.
  { apply triple_everyM. intros p.
    destruct (negb (isPolicyRelevant p _)); [tret | apply isPresent_keeps]. }
  tbind isTrue. destruct (allRelevantPoliciesPresent && _); [|tret].
  apply (triple_modify _ _ (FromLinks links)). intros r (Hr & _). exact Hr.
Qed.

End Provenance.

Lemma FromLinks_initial (args : Args) (links : list Link) :
  FromLinks links (initialResult args).
Proof.
  intros p e. rewrite initial_lookup. intros [= <-]. unfold initialEntry.
  by destruct (isPolicyRelevant p (merchantType args)).
Qed.

(** X17: the URL reported for a policy that is present is the address of
    one of the links that the home page showed when the audit read it. *)
Theorem X17_policy_urls_from_home_page `{RegExpEngine} `{Browser} (args : Args)
    (pg : Page) (p : Policy) (e : PolicyEntry) :
  Result.policies (checkWebsite args pg) !! p = Some e →
  present e = true →
  ∃ l, l ∈ homeLinks args pg ∧ url e = Some (href l).
Proof.
  intros He Hp.
  pose proof (checkWebsite_by_links args
                (λ rawLinks, FromLinks (map normalizeLink rawLinks))
                (λ rawLinks, FromLinks (map normalizeLink rawLinks))
                (λ rawLinks, FromLinks_initial args _)
                (λ rawLinks, passes_FromLinks args _)
                (λ rawLinks, finalEvaluation_FromLinks args _) pg) as Hcw.
  unfold homeLinks.
  destruct (page_goto (website args) pg) as [[[]|msg0] pg1]; simpl.
  - destruct (page_anchors pg1) as [[rawLinks|msg1] pg2]; simpl.
    + assert (FromLinks (map normalizeLink rawLinks) (checkWebsite args pg)) as Hfrom.
      { destruct Hcw as [(msg & r & Hr & ->)|Hr]; [exact Hr|exact Hr]. }
      destruct (Hfrom p e He Hp) as (l & Hl & Hu).
      apply list_elem_of_fmap in Hl as (l0 & -> & Hl0).
      exists l0. done.
    + rewrite Hcw in He.
      destruct (FromLinks_initial args [] p e He Hp) as (l & Hl & _).
      by apply not_elem_of_nil in Hl.
  - rewrite Hcw in He.
    destruct (FromLinks_initial args [] p e He Hp) as (l & Hl & _).
    by apply not_elem_of_nil in Hl.
Qed.

(** ** The page loads of an audit *)

Section Loads.
Context `{RegExpEngine} `{Browser}.
Variable args : Args.

Lemma loads_offline {A} (m : M A) : offline m → loads m 0.
Proof. intros Hm s. destruct (Hm s) as (_ & -> & _). lia. Qed.

Lemma loads_le {A} (m : M A) a b : loads m a → (a ≤ b)%nat → loads m b.
Proof. intros Hm Hab s. specialize (Hm s). lia. Qed.

Lemma loads_ret {A} (a : A) n : loads (ret a) n.
Proof. intros s. simpl. lia. Qed.

Lemma loads_bind {A B} (m : M A) (k : A → M B) a b :
  loads m a → (∀ x, loads (k x) b) → loads (bind m k) (a + b).
Proof.
  intros Hm Hk s. unfold bind. specialize (Hm s).
  destruct (m s) as [[x|msg] s1]; simpl in *; [|lia].
  specialize (Hk x s1). lia.
Qed.

Lemma loads_forOf {A} (xs : list A) (body : A → M LoopControl) b :
  (∀ x, loads (body x) b) → loads (forOf xs body) (length xs * b).
Proof.
  intros Hb. induction xs as [|x xs IH]; [apply loads_ret|].
  simpl. apply loads_bind; [apply Hb|]. intros [|]; [exact IH|apply loads_ret].
Qed.

Lemma loads_safeGoto url : loads (safeGoto url) 1.
Proof.
  intros s. unfold safeGoto, try_catch, bind, withPage, ret.
  destruct (page_goto url (page s)) as [[[]|msg] pg]; simpl; rewrite length_app; simpl; lia.
Qed.

Lemma loads_textContent : loads textContent 0.
Proof.
  intros s. unfold textContent, withPage.
  destruct (page_textContent (page s)) as [c pg]. simpl. rewrite app_nil_r. lia.
Qed.

Lemma loads_legalNameIs v : loads (legalNameIs v) 0.
Proof. intros s. simpl. lia. Qed.

Lemma loads_modify f : loads (modify f) 0.
Proof. intros s. simpl. lia. Qed.

Lemma loads_call {A} (c : Completion A) : loads (call c) 0.
Proof. intros s. simpl. lia. Qed.

(** a link of the primary pass costs one page load, and one more when it
    ends the scan *)
Lemma primaryLink_loads policy link s c s' :
  primaryLink args policy link s = (c, s') →
  (length (navigations s')
   ≤ length (navigations s)
     + match c with
       | Normal Continue => 1
       | _ => 2
       end)%nat.
Proof.
  unfold primaryLink.
  destruct (Text.isEmpty (href link) || Text.isEmpty (text link));
    [intros [= <- <-]; lia|].
  destruct (negb _); [intros [= <- <-]; lia|].
  unfold bind. pose proof (loads_safeGoto (href link) s) as Hgo.
  destruct (safeGoto (href link) s) as [[[|]|msg] s1]; simpl in *;
    [|intros [= <- <-]; lia..].
  pose proof (loads_textContent s1) as Htc.
  destruct (textContent s1) as [[body|msg] s2]; simpl in *; [|intros [= <- <-]; lia].
  destruct (containsAny _ _); [|intros [= <- <-]; simpl; lia].
  match goal with
  | |- context [noteLegalName args ?t ?u ?s3] =>
      pose proof (noteLegalName_offline args t u s3) as (_ & Hn & _);
      apply (f_equal length) in Hn;
      destruct (noteLegalName args t u s3) as [[[]|msg] s4]
  end; simpl in *; [|intros [= <- <-]; lia].
  pose proof (loads_safeGoto (website args) s4) as Hback.
  destruct (safeGoto (website args) s4) as [[ok|msg] s5]; simpl in *;
    intros [= <- <-]; lia.
Qed.

Lemma loads_scan policy links :
  loads (forOf links (primaryLink args policy)) (length links + 1).
Proof.
  induction links as [|link links IH]; [apply loads_ret|].
  intros s. simpl. unfold bind.
  pose proof (primaryLink_loads policy link s) as Hl.
  destruct (primaryLink args policy link s) as [c s1].
  specialize (Hl c s1 eq_refl).
  destruct c as [[|]|msg]; simpl in *; [|lia..].
  specialize (IH s1). lia.
Qed.

Lemma loads_primaryPass links :
  loads (primaryPass args links) (length (ORDER args) * (length links + 1)).
Proof.
  apply loads_forOf. intros policy. unfold primaryPolicy.
  destruct (negb _); [apply loads_ret|].
  apply (loads_le _ (length links + 1 + 0)); [|lia].
  apply loads_bind; [apply loads_scan|]. intros _. apply loads_ret.
Qed.

Lemma loads_verification : loads (verification args) 1.
Proof.
  unfold verification.
  apply (loads_le _ (0 + (0 + 1))); [|lia].
  apply loads_bind; [apply loads_legalNameIs|]. intros isTrue.
  apply loads_bind; [apply loads_offline, offline_gets|]. intros legalNameURL.
  destruct (_ && _); [|apply loads_ret].
  apply (loads_le _ (1 + (0 + (0 + 0)))); [|lia].
  apply loads_bind; [apply loads_safeGoto|]. intros [|]; [|apply loads_ret].
  apply loads_bind; [apply loads_textContent|]. intros body.
  apply loads_bind; [apply loads_call|]. intros found.
  destruct (negb found); [apply loads_modify|apply loads_ret].
Qed.

Lemma loads_searchLink link : loads (searchLink args link) 2.
Proof.
  unfold searchLink.
  apply (loads_le _ (1 + (0 + (0 + 1)))); [|lia].
  apply loads_bind; [apply loads_safeGoto|]. intros [|]; cbn [negb]; [|apply loads_ret].
  apply loads_bind; [apply loads_textContent|]. intros body.
  apply loads_bind; [apply loads_call|]. intros [|].
  - apply (loads_le _ (0 + 0)); [|lia].
    apply loads_bind; [apply loads_modify|]. intros _. apply loads_ret.
  - apply (loads_le _ (1 + (0 + 0))); [|lia].
    apply loads_bind; [apply loads_safeGoto|]. intros _.
    apply loads_bind; [apply loads_legalNameIs|]. intros [|]; apply loads_ret.
Qed.

Lemma loads_searchPageType links pageType :
  loads (searchPageType args links pageType) 4.
Proof.
  unfold searchPageType.
  apply (loads_le _ (4 + (0 + 0))); [|lia].
  apply loads_bind.
  { eapply loads_le; [apply loads_forOf, loads_searchLink|].
    rewrite length_take. lia. }
  intros _. apply loads_bind; [apply loads_legalNameIs|]. intros [|]; apply loads_ret.
Qed.

Lemma loads_comprehensiveSearch links :
  loads (comprehensiveSearch args links) 21.
Proof.
  unfold comprehensiveSearch.
  apply (loads_le _ (0 + (0 + (0 + (0 + (1 + (0 + 20))))))); [|lia].
  apply loads_bind; [apply loads_legalNameIs|]. intros isFalse.
  destruct (_ && _); [|apply loads_ret].
  apply loads_bind; [apply loads_offline; intros s; done|]. intros visited.
  apply loads_bind.
  { apply (loads_le _ (length visited * 0)); [|lia].
    apply loads_forOf. intros pageInfo. unfold searchVisited.
    apply (loads_le _ (0 + (0 + 0))); [|lia].
    apply loads_bind; [apply loads_call|]. intros [|]; [|apply loads_ret].
    apply loads_bind; [apply loads_modify|]. intros _. apply loads_ret. }
  intros _. apply loads_bind; [apply loads_legalNameIs|]. intros isFalse1.
  apply loads_bind.
  { destruct isFalse1; [|apply loads_ret]. unfold searchHomepage.
    apply (loads_le _ (1 + (0 + (0 + 0)))); [|lia].
    apply loads_bind; [apply loads_safeGoto|]. intros _.
    apply loads_bind; [apply loads_textContent|]. intros body.
    apply loads_bind; [apply loads_call|]. intros [|];
      [apply loads_modify|apply loads_ret]. }
  intros _. apply loads_bind; [apply loads_legalNameIs|]. intros isFalse2.
  destruct isFalse2; [|apply loads_ret].
  apply (loads_le _ (length otherPages * 4)); [|simpl; lia].
  apply loads_forOf. intros pageType. apply loads_searchPageType.
Qed.

Lemma loads_passes links :
  loads (passes args links) (length (ORDER args) * (length links + 1) + 22).
Proof.
  unfold passes.
  apply (loads_le _ (length (ORDER args) * (length links + 1) + (0 + (1 + 21))));
    [|lia].
  apply loads_bind; [apply loads_primaryPass|]. intros _.
  apply loads_bind; [apply loads_offline, groupResolution_offline|]. intros _.
  apply loads_bind; [apply loads_verification|]. intros _.
  apply loads_comprehensiveSearch.
Qed.

Lemma loads_filterM {A} (f : A → M bool) xs :
  (∀ x, loads (f x) 0) → loads (filterM f xs) 0.
Proof.
  intros Hf. induction xs as [|x xs IH]; [apply loads_ret|]. simpl.
  apply (loads_bind _ _ 0 0); [apply Hf|]. intros b.
  apply (loads_bind _ _ 0 0); [apply IH|]. intros r. apply loads_ret.
Qed.

Lemma loads_everyM {A} (f : A → M bool) xs :
  (∀ x, loads (f x) 0) → loads (everyM f xs) 0.
Proof.
  intros Hf. induction xs as [|x xs IH]; [apply loads_ret|]. simpl.
  apply (loads_bind _ _ 0 0); [apply Hf|]. intros [|]; [apply IH|apply loads_ret].
Qed.

Lemma loads_getPolicy policy : loads (getPolicy policy) 0.
Proof. apply loads_offline, getPolicy_offline. Qed.

Lemma loads_isPresent policy : loads (isPresent policy) 0.
Proof.
  apply (loads_bind _ _ 0 0); [apply loads_getPolicy|]. intros e. apply loads_ret.
Qed.

Lemma loads_finalEvaluation : loads (finalEvaluation args) 0.
Proof.
  unfold finalEvaluation.
  apply (loads_bind _ _ 0 0).
  { apply (loads_le _ (length (ORDER args) * 0)); [|lia].
    apply loads_forOf. intros policy. unfold evaluatePolicy.
    destruct (negb _); [apply loads_ret|].
    apply (loads_bind _ _ 0 0); [apply loads_getPolicy|]. intros e.
    apply (loads_bind _ _ 0 0).
    { destruct (negb (present e)); [|apply loads_ret].
      apply (loads_bind _ _ 0 0); [apply loads_modify|]. intros _.
      apply (loads_bind _ _ 0 0); [apply loads_getPolicy|]. intros e'.
      apply loads_modify. }
    intros _. apply (loads_bind _ _ 0 0); [apply loads_getPolicy|]. intros e1.
    apply (loads_bind _ _ 0 0); [|intros; apply loads_ret].
    destruct (truthy (pageText e1)); [|apply loads_ret].
    apply (loads_bind _ _ 0 0); [apply loads_getPolicy|]. intros e2.
    apply loads_modify. }
  intros _. apply (loads_bind _ _ 0 0); [apply loads_legalNameIs|]. intros isFalse.
  apply (loads_bind _ _ 0 0).
  { destruct (_ && _); [apply loads_modify|apply loads_ret]. }
  intros _. apply (loads_bind _ _ 0 0).
  { apply loads_filterM. intros p. apply loads_isPresent. }
  intros found. apply (loads_bind _ _ 0 0); [apply loads_modify|]. intros _.
  apply (loads_bind _ _ 0 0).
  { apply loads_everyM. intros p.
    destruct (negb _); [apply loads_ret|apply loads_isPresent]. }
  intros allRelevantPoliciesPresent.
  apply (loads_bind _ _ 0 0); [apply loads_legalNameIs|]. intros isTrue.
  destruct (_ && _); [apply loads_modify|apply loads_ret].
Qed.

End Loads.

(** X18: an audit loads pages a bounded number of times: with [n] links on
    the home page, at most [n + 1] times for each relevant policy in the
    primary pass and 23 times besides (the home page, the verification and
    the 21 loads of the comprehensive search). *)
Theorem X18_page_loads_bounded `{RegExpEngine} `{Browser} (args : Args) (pg : Page) :
  (length (navigations (checkWebsiteRun args pg).2)
   ≤ length (ORDER args) * (length (homeLinks args pg) + 1) + 23)%nat
  ∧ (length (ORDER args) ≤ 6)%nat.
Proof.
  split; [|unfold ORDER; destruct (merchantType args); simpl; lia].
  unfold homeLinks, checkWebsiteRun, try_catch, audit, bind, safeGoto,
    try_catch, bind, withPage, anchors, withPage. simpl.
  destruct (page_goto (website args) pg) as [[[]|msg0] pg1]; simpl; [|lia].
  destruct (page_anchors pg1) as [[rawLinks|msg1] pg2]; simpl; [|lia].
  set (s2 := {| result := initialResult args; visitedPages := []; page := pg2;
                navigations := [website args] |}).
  pose proof (loads_passes args (map normalizeLink rawLinks) s2) as Hp.
  rewrite length_map in Hp.
  destruct (passes args (map normalizeLink rawLinks) s2) as [[[]|msg2] s3];
    simpl in *; [|lia].
  pose proof (loads_finalEvaluation args s3) as Hf.
  destruct (finalEvaluation args s3) as [[[]|msg3] s4]; simpl in *; lia.
Qed.

(** ** Rows that leave the entity type and the legal name blank *)

(** X19: a row of the input sheet that has a website but neither an entity
    type nor a legal name is audited as a proprietorship without a name: its
    verdict is always FAIL and its LegalNameStatus is MISSING, although
    "legal name" is never among its missing items. *)
Theorem X19_blank_entity_and_name `{RegExpEngine} `{Browser}
    (row : gmap string string) (pg : Page) :
  truthy (rowWebsite row) = true →
  truthy (row !! "EntityType") = false → truthy (row !! "entityType") = false →
  truthy (row !! "LegalName") = false → truthy (row !! "legalName") = false →
  ∃ r, auditRow row pg = Some r
       ∧ Result.complianceStatus r = FAIL
       ∧ LegalNameStatus r = "MISSING"
       ∧ "legal name" ∉ Result.missingPolicies r.
Proof.
  intros Hw He1 He2 Hn1 Hn2. unfold auditRow. rewrite Hw.
  set (args := rowArgs row (default "" (rowWebsite row))).
  exists (checkWebsite args pg). split; [done|].
  assert (∀ a b, truthy a = false → cellOr a b = b) as Hcell.
  { intros [s|] b; simpl; [|done]. by destruct (Text.isEmpty s). }
  assert (isProprietorEntity args = true) as Hp.
  { unfold isProprietorEntity, args, rowArgs. cbn [entityType].
    rewrite (Hcell _ _ He1), (Hcell _ _ He2). vm_compute. reflexivity. }
  assert (legalName args = "") as Hn.
  { unfold legalName, args, rowArgs. cbn [legalNameRaw default].
    by rewrite (Hcell _ _ Hn1), (Hcell _ _ Hn2). }
  destruct (checkWebsite_legal args pg) as (Hprop & Hrel & _).
  assert (Result.legalNamePresent (checkWebsite args pg) = LegalFalse
          ∧ Result.complianceStatus (checkWebsite args pg) = FAIL
          ∧ "legal name" ∉ Result.missingPolicies (checkWebsite args pg))
    as (Hlp & Hfail & Hmiss).
  { destruct (checkWebsite_cases args pg) as [_ [Hr|[(msg & r0 & Hinv & Hr)|Hev]]].
    - rewrite Hr. simpl. rewrite Hp. split; [done|]. split; [done|].
      apply not_elem_of_nil.
    - assert (Result.legalNamePresent r0 = LegalFalse) as Hlp0.
      { destruct Hinv as ([_ _ Hnr Hnn _] & _).
        destruct (Result.legalNamePresent r0); [by destruct (Hnn Hn)|done|].
        rewrite (proj1 Hnr eq_refl) in Hp. discriminate Hp. }
      rewrite Hr. destruct Hinv as (_ & [Hc _] & Hm). simpl. rewrite Hm.
      split; [done|]. split; [done|]. apply not_elem_of_nil.
    - destruct Hev as [Hc Hm Ha Hv].
      assert (Result.legalNamePresent (checkWebsite args pg) = LegalFalse) as Hlp0.
      { destruct Hc as [_ _ Hnr Hnn _].
        destruct (Result.legalNamePresent _); [by destruct (Hnn Hn)|done|].
        rewrite (proj1 Hnr eq_refl) in Hp. discriminate Hp. }
      split; [done|]. split.
      + rewrite Hv. unfold legalNameOk. rewrite Hp, Hlp0. simpl.
        by rewrite andb_false_r.
      + intros Hin. destruct (Hm _ Hin) as [(p & Hk & _)|(_ & _ & _ & Hne)].
        * symmetry in Hk. by apply policyKey_other in Hk.
        * by apply Hne. }
  split; [done|]. split; [|done].
  unfold LegalNameStatus. rewrite Hprop, Hp, Hlp. done.
Qed.

(** ** The further properties at work *)

Lemma X8_witness :
  Result.error (@checkWebsite MiniRegExp_engine StaticSite_browser
                  Scenario.company Scenario.studio) = None
  ∧ isProprietorship (entityType Scenario.company) = false
  ∧ (Result.complianceStatus (@checkWebsite MiniRegExp_engine StaticSite_browser
                                Scenario.company Scenario.studio) = PASS
     ↔ Result.missingPolicies (@checkWebsite MiniRegExp_engine StaticSite_browser
                                 Scenario.company Scenario.studio) = []).
Proof.
  assert (Result.error (@checkWebsite MiniRegExp_engine StaticSite_browser
                          Scenario.company Scenario.studio) = None) as Herr
    by (vm_compute; reflexivity).
  assert (isProprietorship (entityType Scenario.company) = false) as Hp
    by (vm_compute; reflexivity).
  split; [exact Herr|]. split; [exact Hp|].
  exact (@X8_pass_iff_nothing_missing MiniRegExp_engine StaticSite_browser
           Scenario.company Scenario.studio Herr (or_introl Hp)).
Defined.

Lemma X11_witness :
  isProprietorship (entityType Scenario.company) = false
  ∧ @checkWebsite MiniRegExp_engine StaticSite_browser Scenario.company Scenario.studio
    = @checkWebsite Cases.refusingEngine StaticSite_browser Scenario.company
        Scenario.studio.
Proof.
  assert (isProprietorship (entityType Scenario.company) = false) as Hp
    by (vm_compute; reflexivity).
  split; [exact Hp|].
  exact (@X11_engine_only_for_named_proprietors MiniRegExp_engine Cases.refusingEngine
           StaticSite_browser Scenario.company Scenario.studio (or_introl Hp)).
Defined.

Lemma X12_witness :
  isProprietorship (entityType Cases.suffixProprietor) = true
  ∧ default "" (legalNameRaw Cases.suffixProprietor) ≠ ""
  ∧ cleanName (default "" (legalNameRaw Cases.suffixProprietor)) = ""
  ∧ Result.complianceStatus (@checkWebsite MiniRegExp_engine StaticSite_browser
                               Cases.suffixProprietor Scenario.studio) = FAIL
  ∧ Result.legalNamePresent (@checkWebsite MiniRegExp_engine StaticSite_browser
                               Cases.suffixProprietor Scenario.studio) = LegalFalse.
Proof.
  assert (isProprietorship (entityType Cases.suffixProprietor) = true) as Hp
    by (vm_compute; reflexivity).
  assert (default "" (legalNameRaw Cases.suffixProprietor) ≠ "") as Hn
    by (intros Hn; discriminate Hn).
  assert (cleanName (default "" (legalNameRaw Cases.suffixProprietor)) = "") as Hc
    by (vm_compute; reflexivity).
  split; [exact Hp|]. split; [exact Hn|]. split; [exact Hc|].
  destruct (@X12_emptied_legal_name MiniRegExp_engine StaticSite_browser
              Cases.suffixProprietor Scenario.studio Hp Hn Hc) as (Hfail & Hlp & _).
  split; [exact Hfail | exact Hlp].
Defined.

Lemma X13_witness :
  policyKey refund ∈ ["refund"]
  ∧ Text.includes (Email.body Cases.refundEmail) "Refund Policy" = true.
Proof.
  assert (policyKey refund ∈ ["refund"]) as Hin by (apply list_elem_of_In; left; reflexivity).
  split; [exact Hin|].
  exact (X13_email_names_missing_policies "*" 2024 "https://shop.example/" ""
           "owner@shop.example" ["refund"] (Some "Private Limited") refund Hin).
Defined.

Lemma X14_witness :
  "legal name" ∈ Result.missingPolicies
                   (@checkWebsite MiniRegExp_engine StaticSite_browser
                      Cases.suffixProprietor Scenario.studio)
  ∧ legalName Cases.suffixProprietor ≠ "".
Proof.
  assert ("legal name" ∈ Result.missingPolicies
                           (@checkWebsite MiniRegExp_engine StaticSite_browser
                              Cases.suffixProprietor Scenario.studio)) as Hin.
  { replace (Result.missingPolicies
               (@checkWebsite MiniRegExp_engine StaticSite_browser
                  Cases.suffixProprietor Scenario.studio)) with ["legal name"]
      by (vm_compute; reflexivity).
    apply list_elem_of_In. left. reflexivity. }
  split; [exact Hin|].
  exact (proj1 (@X14_email_legal_name_section MiniRegExp_engine StaticSite_browser
                  "*" 2024 Cases.suffixProprietor Scenario.studio "owner@studio.example"
                  Hin)).
Defined.

Lemma X15_witness :
  0%nat ≠ 1%nat
  ∧ (Email.saveEmailToFile "https://b.example" "b@b.example" Cases.refundEmail 1
       (Email.saveEmailToFile "https://a.example" "a@a.example" Cases.refundEmail 0 ∅).2).2
    !! "email_1_a_example.txt"
    = Some (Email.fullEmail "a@a.example" Cases.refundEmail).
Proof.
  assert (0%nat ≠ 1%nat) as Hij by (intros Hij; discriminate Hij).
  split; [exact Hij|].
  exact (proj1 (proj2 (X15_email_files_kept "https://a.example" "https://b.example"
                         "a@a.example" "b@b.example" Cases.refundEmail Cases.refundEmail
                         0 1 ∅ Hij))).
Defined.

Lemma X17_witness :
  ∃ l, l ∈ @homeLinks StaticSite_browser Scenario.company Scenario.studio
       ∧ Some "https://studio.example/privacy" = Some (href l).
Proof.
  refine (@X17_policy_urls_from_home_page MiniRegExp_engine StaticSite_browser
            Scenario.company Scenario.studio privacy
            {| present := true; url := Some "https://studio.example/privacy";
               pageText := None; status := FOUND |} _ _);
    [vm_compute; reflexivity | reflexivity].
Defined.

Lemma X19_witness :
  truthy (rowWebsite Cases.blankRow) = true
  ∧ ∃ r, @auditRow MiniRegExp_engine StaticSite_browser Cases.blankRow Scenario.studio
         = Some r
         ∧ Result.complianceStatus r = FAIL
         ∧ LegalNameStatus r = "MISSING".
Proof.
  assert (truthy (rowWebsite Cases.blankRow) = true) as Hw by (vm_compute; reflexivity).
  split; [exact Hw|].
  destruct (@X19_blank_entity_and_name MiniRegExp_engine StaticSite_browser
              Cases.blankRow Scenario.studio Hw)
    as (r & Hr & Hfail & Hstatus & _);
    [vm_compute; reflexivity..|].
  exists r. split; [exact Hr|]. split; [exact Hfail | exact Hstatus].
Defined.
